(** * Moonshot signup counter: the time-series engine of [src/app/page.tsx]

    A shallow embedding of the data pipeline inside the [Home] component:
    keyset pagination over the [signups] table, hourly downsampling, the
    statistics block (average rate, sliding-window peak, completion
    estimate), the chart resampler and the realtime payload handler; then
    the range filter, the tooltip's interpolation and formatter, what the
    labels and cards show of the state, and a refresh cycle as a whole.

    Conventions of the embedding:
    - an instant is its epoch-millisecond value ([Date.getTime()]), a [Z];
      a timestamp string is identified with the instant it parses to;
    - counts are integers (the [count] column is [int8]);
    - a JavaScript number is a [Live.JSNum]: [NaN], an infinity or a
      rational. [Live.round64] takes a real result to the nearest double
      and the arithmetic of [Live] rounds after every operation; with it
      are computed what [Number] reads from a string, the percentage and
      the completion estimate of [Estimate]. The interpolation, the peak
      and the snapshot of [Stats] are computed in exact rationals ([Q]);
    - a [while]/[for] loop is a function on a fuel counter that answers
      [None] when the fuel runs out, and the theorems show that it does
      not. *)

From Stdlib Require Import ZArith QArith Qround Qpower Qabs Lia Lqa Ascii String.
From stdpp Require Import base list sorting gmap strings pretty.

Open Scope Z_scope.

(** ** Data model *)

(** [interface DataPoint { timestamp: string; count: number }] *)
Record DataPoint := mkPoint { timestamp : Z; count : Z }.

(** A row of the backing table [signups]: [id] (int8, primary key),
    [timestamp] (timestamptz) and a nullable [count] (int8). *)
Record Row := mkRow { row_id : Z; row_timestamp : Z; row_count : option Z }.

(** [{ timestamp: r.timestamp, count: Number(r.count ?? 0) }] *)
Definition toDataPoint (r : Row) : DataPoint :=
  {| timestamp := row_timestamp r; count := default 0 (row_count r) |}.

(** [interface Stats { .. }]; [estimatedCompletion] is [Date | null]. *)
Record StatsView := mkStats {
  totalSignups : Z;
  averagePerHour : Q;
  peakSignupsPerHour : Q;
  estimatedCompletion : option Z;
  daysRemaining : Z;
  lastDayGrowth : Z }.

(** ** Ingestion: keyset pagination *)

Module Pager.

Definition PAGE_SIZE : nat := 1000.

(** The column a page is ordered and keyed by. *)
Inductive Key := ById | ByTimestamp.

Definition keyOf (k : Key) (r : Row) : Z :=
  match k with ById => row_id r | ByTimestamp => row_timestamp r end.

(** [supabase.from('signups').select(..).order(key).limit(n)], with the
    optional [.gt(key, v)]. *)
Record Query := mkQuery { q_order : Key; q_gt : option Z; q_limit : nat }.

(** The awaited [{ data, error }]: an error, or a batch that may be [null]. *)
Inductive Response := Failed | Data (batch : option (list Row)).

(** The storage backend as the pager sees it: the outcome of the one-row
    [select('id')] probe and the answer to each page query. *)
Record Backend := mkBackend { probeOk : bool; run : Query → Response }.

(** One run of the pager: the rows collected and the page queries issued,
    oldest first. *)
Definition Outcome : Type := list DataPoint * list Query.

(** The body of [while (true)] of either branch. The two branches differ
    only in the key column: [if (lastId !== null)] and [if (lastTs)]
    both hold exactly when an earlier page set the bound. *)
Fixpoint pageLoop (fuel : nat) (be : Backend) (k : Key)
    (allRows : list DataPoint) (lastKey : option Z) (safety : Z)
    (log : list Query) : option Outcome :=
  match fuel with
  | O => None
  | S fuel' =>
      let query := {| q_order := k; q_gt := lastKey; q_limit := PAGE_SIZE |} in
      let log := log ++ [query] in
      match run be query with
      | Failed => Some (allRows, log)
      | Data None => Some (allRows, log)
      | Data (Some batch) =>
          match last batch with
          | None => Some (allRows, log)
          | Some r =>
              let allRows := allRows ++ (toDataPoint <$> batch) in
              let lastKey := Some (keyOf k r) in
              let safety := safety + 1 in
              if 100 <? safety then Some (allRows, log)
              else pageLoop fuel' be k allRows lastKey safety log
          end
      end
  end.

(** [if (hasId) { .. } else { .. }]: the key column of the branch taken. *)
Definition keyFor (hasId : bool) : Key := if hasId then ById else ByTimestamp.

(** The pagination part of [fetchData]: probe, then page with [safety = 0].
    The safety counter stops the loop within 101 rounds, which is the fuel. *)
Definition fetchAllSamples (be : Backend) : option Outcome :=
  let hasId := probeOk be in
  pageLoop 101 be (keyFor hasId) [] None 0 [].

(** The storage service is not part of the repository. A table answers a
    page query by what the query says: the rows above the bound, ascending
    by the key column, at most [limit] of them. *)
Definition keyLe (k : Key) : relation Row := λ a b, keyOf k a ≤ keyOf k b.

Definition keyLt (k : Key) : relation Row := λ a b, keyOf k a < keyOf k b.

Definition aboveBound (k : Key) (bound : option Z) (r : Row) : Prop :=
  match bound with None => True | Some v => v < keyOf k r end.

#[global] Instance aboveBound_dec k bound r : Decision (aboveBound k bound r).
Proof. destruct bound; simpl; apply _. Defined.

#[global] Instance keyLe_dec k : RelDecision (keyLe k).
Proof. intros a b. unfold keyLe. apply _. Defined.

Definition select (table : list Row) (q : Query) : list Row :=
  take (q_limit q)
    (filter (aboveBound (q_order q) (q_gt q)) (merge_sort (keyLe (q_order q)) table)).

Definition tableBackend (hasId : bool) (table : list Row) : Backend :=
  {| probeOk := hasId; run := λ q, Data (Some (select table q)) |}.

(** A small table, out of key order and with a [null] count. *)
Definition three_rows : list Row :=
  [mkRow 12 300 (Some 7); mkRow 10 100 (Some 5); mkRow 11 200 None].

Definition one_row : list Row := [mkRow 1 0 (Some 5)].

(** 1001 rows without usable ids; the last two share the timestamp 999. *)
Definition tied_rows : list Row :=
  ((λ i, mkRow 0 (Z.of_nat i) (Some (Z.of_nat i))) <$> seq 0 1000)
  ++ [mkRow 0 999 (Some 1000)].

(** [ceil(n / p)] on naturals. *)
Definition ceilDiv (n p : nat) : nat := ((n + p - 1) / p)%nat.

End Pager.

(** ** Hourly downsampling for the chart *)

Module Hourly.

Definition hourMs : Z := 60 * 60 * 1000.

(** The visitor's time zone, as [Date] reads it (LocalTime and UTC of
    ECMAScript): [offsetAt t] is the zone's distance from UTC, in
    milliseconds, at the instant [t]; [offsetOfLocal l] is the distance
    with which the local time value [l] is read back as an instant. For a
    local time that a clock change repeats or skips, that is the distance
    in force before the change. *)
Record Zone := mkZone { offsetAt : Z → Z; offsetOfLocal : Z → Z }.

(** A zone without clock changes. *)
Definition fixedZone (offset : Z) : Zone := mkZone (λ _, offset) (λ _, offset).

(** Europe/Helsinki around the end of summer time in 2025: UTC+3 until
    2025-10-26T01:00:00Z, UTC+2 from then on. The local hour from 03:00 to
    04:00 of that day occurs twice. *)
Definition helsinkiChange : Z := 1761440400000.

Definition helsinki : Zone :=
  mkZone (λ t, if t <? helsinkiChange then 3 * hourMs else 2 * hourMs)
         (λ l, if l <? helsinkiChange + 3 * hourMs then 3 * hourMs else 2 * hourMs).

(** Lord Howe Island at the start of summer time in 2025: UTC+10:30 until
    2025-10-04T15:30:00Z, UTC+11 from then on. The local half hour from
    02:00 to 02:30 of 5 October is skipped. *)
Definition lordHoweChange : Z := 1759591800000.

Definition lordHowe : Zone :=
  mkZone (λ t, if t <? lordHoweChange then 630 * 60000 else 660 * 60000)
         (λ l, if l <? lordHoweChange + 660 * 60000 then 630 * 60000 else 660 * 60000).

(** [d.setMinutes(0, 0, 0); d.getTime()]: the minutes, seconds and
    milliseconds of the local time are cleared, and the local time that
    results is read back as an instant. *)
Definition truncateToHour (zone : Zone) (t : Z) : Z :=
  let local := t + offsetAt zone t in
  let top := local - local mod hourMs in
  top - offsetOfLocal zone top.

(** [for (const row of allRows) hourlyMap.set(d.getTime(), row.count)] *)
Definition hourlyMap (zone : Zone) (allRows : list DataPoint) : gmap Z Z :=
  foldl (λ m row, <[truncateToHour zone (timestamp row) := count row]> m) ∅ allRows.

Definition entryLe : relation (Z * Z) := λ a b, a.1 ≤ b.1.

#[global] Instance entryLe_dec : RelDecision entryLe.
Proof. intros a b. unfold entryLe. apply _. Defined.

(** [Array.from(hourlyMap.entries()).sort((a, b) => a[0] - b[0]).map(..)].
    The keys of a map are distinct, so the order in which its entries are
    listed before the sort does not show in the result. *)
Definition hourlyData (zone : Zone) (allRows : list DataPoint) : list DataPoint :=
  (λ e, {| timestamp := e.1; count := e.2 |})
    <$> merge_sort entryLe (map_to_list (hourlyMap zone allRows)).

(** The count of the last row of [allRows] that is mapped to [h]. *)
Definition lastInHour (zone : Zone) (allRows : list DataPoint) (h : Z) : option Z :=
  count <$> last (filter (λ row, truncateToHour zone (timestamp row) = h) allRows).

(** Over [allRows] the clock keeps the distance [offset] from UTC: at
    every row, and where the top of its local hour is read back. *)
Definition steady (zone : Zone) (offset : Z) (allRows : list DataPoint) : Prop :=
  Forall (λ row,
            let local := timestamp row + offset in
            offsetAt zone (timestamp row) = offset ∧
            offsetOfLocal zone (local - local mod hourMs) = offset) allRows.


(** Rows at 00:30Z, 01:30Z and 02:30Z of 2025-10-26. *)
Definition autumn_rows : list DataPoint :=
  [mkPoint 1761438600000 100; mkPoint 1761442200000 200; mkPoint 1761445800000 300].

(** Rows at 14:40Z of 2025-10-03 and at 15:40Z and 16:10Z of 2025-10-04. *)
Definition spring_rows : list DataPoint :=
  [mkPoint 1759502400000 1; mkPoint 1759592400000 2; mkPoint 1759594200000 3].

End Hourly.

(** ** A result that may fail *)

Inductive Fault :=
| OutOfFuel    (* the model's fuel ran out *)
| TypeError    (* a property of [undefined] or [null] was read *)
| NotFinite.   (* a division by zero: [Infinity] or [NaN] *)

Inductive Res (A : Type) := Ok (a : A) | Raise (f : Fault).
Arguments Ok {A} a.
Arguments Raise {A} f.

Definition bind {A B} (r : Res A) (k : A → Res B) : Res B :=
  match r with Ok a => k a | Raise f => Raise f end.

Notation "x <~ r ; k" := (bind r (λ x, k))
  (at level 100, r at next level, right associativity).

(** ** Statistics: average rate, interpolation, sliding-window peak, estimate *)

Module Stats.

Definition TARGET_SIGNUPS : Z := 5000.
Definition oneHourMs : Z := 60 * 60 * 1000.

Definition Qltb (a b : Q) : bool := negb (Qle_bool b a).
Definition Qmax (a b : Q) : Q := if Qle_bool a b then b else a.

(** [signupDiff / Math.max(hoursDiff, 1e-6)] *)
Definition avgPerHour (first latest : DataPoint) : Q :=
  let timeDiff := timestamp latest - timestamp first in
  let hoursDiff := (inject_Z timeDiff / inject_Z (1000 * 60 * 60))%Q in
  let signupDiff := count latest - count first in
  (inject_Z signupDiff / Qmax hoursDiff (1 # 1000000))%Q.

(** [points[i]], followed by a field read. *)
Definition nth_point (points : list DataPoint) (i : Z) : Res DataPoint :=
  if i <? 0 then Raise TypeError
  else match points !! Z.to_nat i with
       | Some p => Ok p
       | None => Raise TypeError
       end.

Inductive Search :=
| Exact (c : Z)     (* [return points[mid].count] inside the loop *)
| Gap (lo : Z).     (* the loop ended with this [lo] *)

(** [while (lo <= hi) { mid = floor((lo + hi) / 2); .. }] *)
Fixpoint bsearch (fuel : nat) (points : list DataPoint) (t lo hi : Z) : Res Search :=
  if lo <=? hi then
    match fuel with
    | O => Raise OutOfFuel
    | S fuel' =>
        let mid := (lo + hi) / 2 in
        p <~ nth_point points mid;
        if timestamp p =? t then Ok (Exact (count p))
        else if timestamp p <? t then bsearch fuel' points t (mid + 1) hi
        else bsearch fuel' points t lo (mid - 1)
    end
  else Ok (Gap lo).

Definition len (points : list DataPoint) : Z := Z.of_nat (length points).

(** [const interpCount = (t: number) => ..]. The search gets one unit of
    fuel per point. *)
Definition interpCount (points : list DataPoint) (t : Z) : Res Q :=
  p0 <~ nth_point points 0;
  if t <=? timestamp p0 then Ok (inject_Z (count p0)) else
  pn <~ nth_point points (len points - 1);
  if timestamp pn <=? t then Ok (inject_Z (count pn)) else
  s <~ bsearch (length points) points t 0 (len points - 1);
  match s with
  | Exact c => Ok (inject_Z c)
  | Gap lo =>
      let right := lo in
      let left := right - 1 in
      pL <~ nth_point points left;
      pR <~ nth_point points right;
      if timestamp pR - timestamp pL =? 0 then Raise NotFinite else
      let frac := (inject_Z (t - timestamp pL) / inject_Z (timestamp pR - timestamp pL))%Q in
      Ok (inject_Z (count pL) + inject_Z (count pR - count pL) * frac)%Q
  end.

(** The precondition of the interpolator: timestamps strictly increase
    along the series. *)
Definition ascending (points : list DataPoint) : Prop :=
  StronglySorted (λ a b, timestamp a < timestamp b) points.

(** Counts never decrease along the series. *)
Definition nondecreasing (points : list DataPoint) : Prop :=
  StronglySorted (λ a b, count a ≤ count b) points.

(** The straight line through two neighbouring samples, at [t]. *)
Definition lerp (pL pR : DataPoint) (t : Z) : Q :=
  (inject_Z (count pL)
   + inject_Z (count pR - count pL)
     * (inject_Z (t - timestamp pL) / inject_Z (timestamp pR - timestamp pL)))%Q.

(** The four ways [interpCount] answers: the two clamps, an exact hit
    and the interpolation between the bracketing neighbours. *)
Inductive valueAt (points : list DataPoint) (t : Z) : Q → Prop :=
| ClampFirst p0 :
    points !! 0%nat = Some p0 → t ≤ timestamp p0 →
    valueAt points t (inject_Z (count p0))
| ClampLast pn :
    last points = Some pn → timestamp pn ≤ t →
    valueAt points t (inject_Z (count pn))
| Hit (i : nat) p :
    points !! i = Some p → timestamp p = t →
    valueAt points t (inject_Z (count p))
| Between (i : nat) pL pR :
    points !! i = Some pL → points !! S i = Some pR →
    timestamp pL < t < timestamp pR →
    valueAt points t (lerp pL pR t).

(** The loop invariant of the binary search: every point left of [lo] is
    before [t], every point right of [hi] is after it. *)
Definition brackets (points : list DataPoint) (t lo hi : Z) : Prop :=
  (∀ (i : nat) p, points !! i = Some p → Z.of_nat i < lo → timestamp p < t) ∧
  (∀ (i : nat) p, points !! i = Some p → hi < Z.of_nat i → t < timestamp p).

(** [for (let i = 0; i < points.length; i++)]: [rest] holds the points
    from index [i] on. *)
Fixpoint peakScan (points rest : list DataPoint) (maxPerHour : Q) : Res Q :=
  match rest with
  | [] => Ok maxPerHour
  | p :: rest' =>
      let t := timestamp p in
      let t0 := t - oneHourMs in
      cT <~ interpCount points t;
      cT0 <~ interpCount points t0;
      let delta := (cT - cT0)%Q in
      let perHour := delta in
      peakScan points rest' (if Qltb maxPerHour perHour then perHour else maxPerHour)
  end.

Definition peakHourly (points : list DataPoint) : Res Q :=
  if (length points <? 2)%nat then Ok 0%Q
  else m <~ peakScan points points 0%Q; Ok (Qmax 0%Q m).

(** [new Date(v)] keeps the whole milliseconds of [v]. *)
Definition dateOf (v : Q) : Z := if Qle_bool 0%Q v then Qfloor v else Qceiling v.

(** The block under [// Estimate completion date] in exact arithmetic:
    the values of [estimatedCompletion] and [daysRemaining] after it, as
    the snapshot of [computeStats] carries them. [Estimate.estimate] is
    the same block in the arithmetic of doubles. *)
Definition estimate (avgPerHour : Q) (latestCount now : Z) : option Z * Z :=
  let remaining := TARGET_SIGNUPS - latestCount in
  if Qltb 0%Q avgPerHour && (0 <? remaining) then
    let hoursRemaining := (inject_Z remaining / avgPerHour)%Q in
    (Some (dateOf (inject_Z now + hoursRemaining * inject_Z (60 * 60 * 1000))%Q),
     Qceiling (hoursRemaining / 24)%Q)
  else (None, 0).

(** [recentData.length > 1 ? last.count - first.count : 0] *)
Definition lastDayGrowthOf (allRows : list DataPoint) (now : Z) : Z :=
  let oneDayAgo := now - 24 * 60 * 60 * 1000 in
  let recentData := filter (λ d, oneDayAgo ≤ timestamp d) allRows in
  match recentData, last recentData with
  | r0 :: _ :: _, Some rl => count rl - count r0
  | _, _ => 0
  end.

(** The statistics block of [fetchData], under [if (allRows.length > 1)];
    [None] when [setStats] is not reached. *)
Definition computeStats (allRows : list DataPoint) (now : Z) : Res (option StatsView) :=
  match allRows, last allRows with
  | first :: _ :: _, Some latest =>
      let avg := avgPerHour first latest in
      peak <~ peakHourly allRows;
      let e := estimate avg (count latest) now in
      Ok (Some {| totalSignups := count latest;
                  peakSignupsPerHour := Qmax 0%Q peak;
                  averagePerHour := avg;
                  estimatedCompletion := e.1;
                  daysRemaining := e.2;
                  lastDayGrowth := lastDayGrowthOf allRows now |})
  | _, _ => Ok None
  end.

(** Three samples: 0 at [t0], 10 half an hour later, 40 an hour after that. *)
Definition scenario (t0 : Z) : list DataPoint :=
  [mkPoint t0 0; mkPoint (t0 + 30 * 60 * 1000) 10; mkPoint (t0 + 90 * 60 * 1000) 40].

End Stats.

(** ** The chart resampler *)

Module Resampler.

Definition minute : Z := 60 * 1000.
Definition hour : Z := 60 * minute.
Definition day : Z := 24 * hour.

(** [Math.round]: the nearest integer, a half going up. *)
Definition mathRound (q : Q) : Z := Qfloor (q + (1 # 2))%Q.

(** The choice of [bucketMs] from [span]. *)
Definition bucketWidth (span : Z) : Z :=
  if span <=? hour then minute
  else if span <=? day then 10 * minute
  else if span <=? 7 * day then hour
  else
    let TARGET_POINTS := 240 in
    let approx := Qceiling (inject_Z span / inject_Z TARGET_POINTS)%Q in
    let bucketMs := Z.max approx hour in
    let approxHours := mathRound (inject_Z bucketMs / inject_Z hour)%Q in
    if approxHours <=? 24 then approxHours * hour
    else
      let approxDays := Z.max 1 (mathRound (inject_Z approxHours / 24)%Q) in
      approxDays * day.

(** [{ timestamp: string; count: number | null }] *)
Record Bucket := mkBucket { b_timestamp : Z; b_count : option Z }.

(** [while (j < points.length && ts(points[j]) < bucketStart) j += 1],
    with [rest] the points from index [j] on. *)
Fixpoint skipBefore (rest : list DataPoint) (bucketStart : Z) (j : nat) : nat :=
  match rest with
  | p :: rest' =>
      if timestamp p <? bucketStart then skipBefore rest' bucketStart (S j) else j
  | [] => j
  end.

Definition advance (points : list DataPoint) (bucketStart : Z) (j : nat) : nat :=
  skipBefore (drop j points) bucketStart j.

(** [for (let t = firstTs; t <= lastTs; t += bucketMs) { .. }] *)
Fixpoint fill (fuel : nat) (points : list DataPoint) (lastTs bucketMs t : Z)
    (j : nat) (resampled : list Bucket) : option (list Bucket) :=
  if t <=? lastTs then
    match fuel with
    | O => None
    | S fuel' =>
        let bucketStart := t in
        let bucketEnd := t + bucketMs in
        let j := advance points bucketStart j in
        match points !! j with
        | Some p =>
            if (bucketStart <=? timestamp p) && (timestamp p <? bucketEnd) then
              fill fuel' points lastTs bucketMs (t + bucketMs) (S j)
                (resampled ++ [mkBucket bucketStart (Some (count p))])
            else
              fill fuel' points lastTs bucketMs (t + bucketMs) j
                (resampled ++ [mkBucket bucketStart None])
        | None =>
            fill fuel' points lastTs bucketMs (t + bucketMs) j
              (resampled ++ [mkBucket bucketStart None])
        end
    end
  else Some resampled.

Definition resampleTimeSeries (fuel : nat) (points : list DataPoint)
    : option (list Bucket) :=
  match points, last points with
  | p0 :: _, Some pn =>
      let firstTs := timestamp p0 in
      let lastTs := timestamp pn in
      let span := lastTs - firstTs in
      fill fuel points lastTs (bucketWidth span) firstTs 0%nat []
  | _, _ => Some []
  end.

(** The same walk, recording for every bucket the index [j] of the point
    it consumed instead of that point's count. *)
Fixpoint fillIdx (fuel : nat) (points : list DataPoint) (lastTs bucketMs t : Z)
    (j : nat) (taken : list (option nat)) : option (list (option nat)) :=
  if t <=? lastTs then
    match fuel with
    | O => None
    | S fuel' =>
        let j := advance points t j in
        match points !! j with
        | Some p =>
            if (t <=? timestamp p) && (timestamp p <? t + bucketMs) then
              fillIdx fuel' points lastTs bucketMs (t + bucketMs) (S j) (taken ++ [Some j])
            else fillIdx fuel' points lastTs bucketMs (t + bucketMs) j (taken ++ [None])
        | None => fillIdx fuel' points lastTs bucketMs (t + bucketMs) j (taken ++ [None])
        end
    end
  else Some taken.

Definition consumed (fuel : nat) (points : list DataPoint) : option (list (option nat)) :=
  match points, last points with
  | p0 :: _, Some pn =>
      fillIdx fuel points (timestamp pn)
        (bucketWidth (timestamp pn - timestamp p0)) (timestamp p0) 0%nat []
  | _, _ => Some []
  end.

(** What a bucket shows of the point it consumed: that point's count, the
    point being inside the bucket's interval; or nothing. *)
Definition agrees (points : list DataPoint) (width : Z) (b : Bucket)
    (taken : option nat) : Prop :=
  match taken with
  | Some j =>
      ∃ p, points !! j = Some p ∧ b_count b = Some (count p) ∧
           b_timestamp b ≤ timestamp p < b_timestamp b + width
  | None => b_count b = None
  end.

(** The consumed indices are at least [j] and strictly increase. *)
Fixpoint increasingFrom (j : nat) (taken : list (option nat)) : Prop :=
  match taken with
  | [] => True
  | None :: rest => increasingFrom j rest
  | Some j' :: rest => (j ≤ j')%nat ∧ increasingFrom (S j') rest
  end.

(** The number of values [t, t + w, ..] that do not exceed [lastTs]. *)
Definition rounds (lastTs w t : Z) : nat :=
  if t <=? lastTs then (Z.to_nat ((lastTs - t) / w) + 1)%nat else 0%nat.

(** The input order of the resampler: timestamps never decrease. *)
Definition chronological (points : list DataPoint) : Prop :=
  StronglySorted (λ a b, timestamp a ≤ timestamp b) points.

(** Four samples within four minutes, two of them in the same minute. *)
Definition four_points : list DataPoint :=
  [mkPoint 0 1; mkPoint 60000 2; mkPoint 60001 3; mkPoint 200000 4].

(** Ten days, one sample a day. *)
Definition daily : list DataPoint :=
  (λ i, mkPoint (Z.of_nat i * day) (Z.of_nat i * 100)) <$> seq 0 11.

(** The bucket width as the specification words it: past 24 hours the
    width before any rounding is rounded to the nearest whole day. *)
Definition specBucketWidth (span : Z) : Z :=
  if span <=? hour then minute
  else if span <=? day then 10 * minute
  else if span <=? 7 * day then hour
  else
    let w := Z.max (Qceiling (inject_Z span / 240)%Q) hour in
    let nearestHours := mathRound (inject_Z w / inject_Z hour)%Q in
    if nearestHours <=? 24 then nearestHours * hour
    else mathRound (inject_Z w / inject_Z day)%Q * day.

End Resampler.

(** ** JavaScript numbers and values; the realtime handler *)

Module Live.

(** A JavaScript number; [-0] is identified with [0]. *)
Inductive JSNum := NaN | Fin (q : Q) | PosInf | NegInf.

(** *** Rounding to a double (binary64, to nearest, ties to even) *)

(** The exponent of the binade of a positive [x]: the [e] with
    [2^e <= x < 2^(e+1)]. *)
Definition floorLog2 (x : Q) : Z :=
  let k := Z.log2 (Qnum x) - Z.log2 (Z.pos (Qden x)) in
  if Qle_bool (2 ^ k) x then k else k - 1.

Definition roundHalfEven (m : Q) : Z :=
  let f := Qfloor m in
  match (m - inject_Z f ?= 1 # 2)%Q with
  | Lt => f
  | Gt => f + 1
  | Eq => if Z.even f then f else f + 1
  end.

(** The distance between neighbouring doubles around a positive [x]:
    53 significant bits, and the spacing [2^-1074] of the subnormal
    numbers below [2^-1022]. *)
Definition ulpOf (x : Q) : Q := (2 ^ (Z.max (floorLog2 x) (-1022) - 52))%Q.

Definition nearest (x : Q) : Q :=
  (inject_Z (roundHalfEven (x / ulpOf x)) * ulpOf x)%Q.

(** A positive [x] as a double; from [2^1024] on the result is [Infinity]. *)
Definition roundPos (x : Q) : JSNum :=
  let v := nearest x in
  if Qle_bool (2 ^ 1024) v then PosInf else Fin (Qred v).

(** The double that a real result is stored as. *)
Definition round64 (x : Q) : JSNum :=
  match (x ?= 0)%Q with
  | Eq => Fin 0
  | Gt => roundPos x
  | Lt => match roundPos (- x) with
          | Fin v => Fin (Qred (- v))
          | PosInf => NegInf
          | other => other
          end
  end.

(** *** Arithmetic on numbers *)

Definition negate (n : JSNum) : JSNum :=
  match n with
  | NaN => NaN
  | Fin q => Fin (Qred (- q)%Q)
  | PosInf => NegInf
  | NegInf => PosInf
  end.

(** The sign of a number that is not [NaN]. *)
Definition signOf (n : JSNum) : comparison :=
  match n with
  | Fin q => (q ?= 0)%Q
  | NegInf => Lt
  | _ => Gt
  end.

(** The infinity of a sign; the sign is not [Eq]. *)
Definition infinityOf (s : comparison) : JSNum :=
  match s with Lt => NegInf | _ => PosInf end.

(** [a + b] *)
Definition add (a b : JSNum) : JSNum :=
  match a, b with
  | NaN, _ | _, NaN => NaN
  | Fin x, Fin y => round64 (x + y)
  | PosInf, NegInf | NegInf, PosInf => NaN
  | PosInf, _ | _, PosInf => PosInf
  | NegInf, _ | _, NegInf => NegInf
  end.

(** [a - b] *)
Definition sub (a b : JSNum) : JSNum := add a (negate b).

(** [a * b] *)
Definition mul (a b : JSNum) : JSNum :=
  match a, b with
  | NaN, _ | _, NaN => NaN
  | Fin x, Fin y => round64 (x * y)
  | _, _ =>
      match signOf a, signOf b with
      | Eq, _ | _, Eq => NaN
      | Lt, Lt | Gt, Gt => PosInf
      | _, _ => NegInf
      end
  end.

(** [a / b]; a divisor that is zero is taken as [+0]. *)
Definition div (a b : JSNum) : JSNum :=
  match a, b with
  | NaN, _ | _, NaN => NaN
  | Fin x, Fin y =>
      if Qeq_bool y 0 then
        match (x ?= 0)%Q with Eq => NaN | Lt => NegInf | Gt => PosInf end
      else round64 (x / y)
  | Fin _, _ => Fin 0
  | _, Fin y =>
      match signOf a, (y ?= 0)%Q with
      | Lt, Lt | Gt, Gt | Gt, Eq => PosInf
      | _, _ => NegInf
      end
  | _, _ => NaN
  end.

(** [Math.ceil(a)] *)
Definition ceil (a : JSNum) : JSNum :=
  match a with
  | Fin q => Fin (inject_Z (Qceiling q))
  | other => other
  end.

(** [Math.max(a, b)] *)
Definition max (a b : JSNum) : JSNum :=
  match a, b with
  | NaN, _ | _, NaN => NaN
  | PosInf, _ | _, PosInf => PosInf
  | NegInf, other | other, NegInf => other
  | Fin x, Fin y => if Qle_bool x y then b else a
  end.

(** [a < b]: false when either is [NaN]. *)
Definition lt (a b : JSNum) : bool :=
  match a, b with
  | NaN, _ | _, NaN => false
  | Fin x, Fin y => negb (Qle_bool y x)
  | NegInf, NegInf | PosInf, _ => false
  | NegInf, _ | _, PosInf => true
  | Fin _, NegInf => false
  end.

(** The order of the numbers, [NaN] apart. *)
Definition numLe (a b : JSNum) : Prop :=
  match a, b with
  | NaN, _ | _, NaN => False
  | NegInf, _ => True
  | _, PosInf => True
  | Fin x, Fin y => (x <= y)%Q
  | _, _ => False
  end.

(** A push payload is decoded JSON; [VUndefined] is what reading a
    missing property gives. The fields of an object have distinct keys. *)
#[local] Unset Elimination Schemes.
Inductive Value :=
| VUndefined
| VNull
| VBool (b : bool)
| VNum (n : JSNum)
| VStr (s : string)
| VArr (items : list Value)
| VObj (fields : list (string * Value)).
#[local] Set Elimination Schemes.

(** *** [Number(..)] on strings (StringToNumber, ASCII white space) *)

Definition code (c : ascii) : Z := Z.of_nat (nat_of_ascii c).

Definition isSpace (c : ascii) : bool :=
  (code c =? 32) || ((9 <=? code c) && (code c <=? 13)).

Fixpoint trimLeft (s : list ascii) : list ascii :=
  match s with
  | c :: s' => if isSpace c then trimLeft s' else s
  | [] => []
  end.

Definition trim (s : list ascii) : list ascii :=
  reverse (trimLeft (reverse (trimLeft s))).

Definition digitOf (radix : Z) (c : ascii) : option Z :=
  let n := code c in
  let d := if (48 <=? n) && (n <=? 57) then n - 48
           else if (97 <=? n) && (n <=? 102) then n - 87
           else if (65 <=? n) && (n <=? 70) then n - 55
           else -1 in
  if (0 <=? d) && (d <? radix) then Some d else None.

(** The leading digits of [s]: their value, their number and the rest. *)
Fixpoint takeDigits (radix : Z) (s : list ascii) (acc : Z) (n : nat)
    : Z * nat * list ascii :=
  match s with
  | c :: s' =>
      match digitOf radix c with
      | Some d => takeDigits radix s' (acc * radix + d) (S n)
      | None => (acc, n, s)
      end
  | [] => (acc, n, [])
  end.

(** [0x..], [0o..], [0b..]: digits only, at least one; the value is
    stored as the nearest double. *)
Definition digitsOnly (radix : Z) (s : list ascii) : JSNum :=
  match takeDigits radix s 0 0%nat with
  | (v, S _, []) => round64 (inject_Z v)
  | _ => NaN
  end.

Definition isE (c : ascii) : bool := (code c =? 101) || (code c =? 69).

(** Nothing, or [e], an optional sign and at least one digit. *)
Definition exponentOf (s : list ascii) : option Z :=
  match s with
  | [] => Some 0
  | c :: s' =>
      if isE c then
        let '(sign, ds) :=
          match s' with
          | "+"%char :: r => (1, r)
          | "-"%char :: r => (-1, r)
          | _ => (1, s')
          end in
        match takeDigits 10 ds 0 0%nat with
        | (v, S _, []) => Some (sign * v)
        | _ => None
        end
      else None
  end.

(** [digits . digits? exp?], [. digits exp?] or [digits exp?]; the value
    of the numeral is stored as the nearest double, [Infinity] when it is
    too large. *)
Definition unsignedDecimal (s : list ascii) : JSNum :=
  let '(ip, ni, r1) := takeDigits 10 s 0 0%nat in
  let '(fp, nf, r2) :=
    match r1 with
    | "."%char :: r => takeDigits 10 r 0 0%nat
    | _ => (0, 0%nat, r1)
    end in
  if ((ni =? 0) && (nf =? 0))%nat then NaN
  else match exponentOf r2 with
       | Some e =>
           round64 ((inject_Z (ip * 10 ^ Z.of_nat nf + fp) / inject_Z (10 ^ Z.of_nat nf))
                    * Qpower 10 e)%Q
       | None => NaN
       end.

Definition infinityOr (s : list ascii) : JSNum :=
  if decide (s = list_ascii_of_string "Infinity") then PosInf else unsignedDecimal s.

Definition stringToNumber (s : string) : JSNum :=
  match trim (list_ascii_of_string s) with
  | [] => Fin 0%Q
  | "0"%char :: "x"%char :: r | "0"%char :: "X"%char :: r => digitsOnly 16 r
  | "0"%char :: "o"%char :: r | "0"%char :: "O"%char :: r => digitsOnly 8 r
  | "0"%char :: "b"%char :: r | "0"%char :: "B"%char :: r => digitsOnly 2 r
  | "+"%char :: r => infinityOr r
  | "-"%char :: r => negate (infinityOr r)
  | t => infinityOr t
  end.

(** [Number(v)]. An array goes through its [join(",")]: empty it is the
    empty string, with one element that element's string (nothing for
    [null] and [undefined]), with more it has a comma and parses to [NaN]. *)
Fixpoint toNumber (v : Value) : JSNum :=
  match v with
  | VUndefined => NaN
  | VNull => Fin 0%Q
  | VBool b => Fin (if b then 1 else 0)%Q
  | VNum n => n
  | VStr s => stringToNumber s
  | VArr [] => Fin 0%Q
  | VArr [x] =>
      match x with
      | VUndefined | VNull => Fin 0%Q
      | VBool _ | VObj _ => NaN
      | _ => toNumber x
      end
  | VArr _ => NaN
  | VObj _ => NaN
  end.

Definition isNaN (n : JSNum) : bool := match n with NaN => true | _ => false end.

(** *** Property access *)

Fixpoint field (fields : list (string * Value)) (key : string) : Value :=
  match fields with
  | (k, v) :: rest => if String.eqb k key then v else field rest key
  | [] => VUndefined
  end.

(** [v.key]: a [TypeError] on [null] and [undefined]; none of the keys
    read here exists on a primitive or an array. *)
Definition get (v : Value) (key : string) : Res Value :=
  match v with
  | VUndefined | VNull => Raise TypeError
  | VObj fields => Ok (field fields key)
  | _ => Ok VUndefined
  end.

Definition nullish (v : Value) : bool :=
  match v with VUndefined | VNull => true | _ => false end.

(** [!v] is false *)
Definition truthy (v : Value) : bool :=
  match v with
  | VUndefined | VNull => false
  | VBool b => b
  | VNum NaN => false
  | VNum (Fin q) => negb (Qeq_bool q 0)
  | VNum _ => true
  | VStr s => negb (String.eqb s "")
  | VArr _ | VObj _ => true
  end.

(** *** The component state *)

Inductive TimeRange := RangeAll | Range7d | Range24h | Range1h.

(** The six [useState] cells of [Home]. *)
Record View := mkView {
  data : list DataPoint;
  currentCount : JSNum;
  lastUpdated : string;
  loading : bool;
  stats : option StatsView;
  timeRange : TimeRange }.

Definition setCount (newCount : JSNum) (st : View) : View :=
  {| data := data st; currentCount := newCount; lastUpdated := "< 1 min ago";
     loading := loading st; stats := stats st; timeRange := timeRange st |}.

(** [p.new ?? p.old] *)
Definition record (payload : Value) : Res Value :=
  n <~ get payload "new";
  if nullish n then get payload "old" else Ok n.

(** The body of the [try] block. *)
Definition tryBody (payload : Value) (st : View) : Res View :=
  rec <~ record payload;
  if negb (truthy rec) then Ok st else
  raw <~ get rec "count";
  let newCount := toNumber raw in
  if negb (isNaN newCount) then Ok (setCount newCount st) else Ok st.

(** [try { .. } catch { }] *)
Definition onChange (payload : Value) (st : View) : View :=
  match tryBody payload st with
  | Ok st' => st'
  | Raise _ => st
  end.

(** The count a payload carries: the [count] field of its new row, or of
    its old row when the new one is [null] or missing; the row is an
    object (or anything else that is not falsy). *)
Inductive carries (payload : Value) : JSNum → Prop :=
| carries_new row raw :
    get payload "new" = Ok row → nullish row = false → truthy row = true →
    get row "count" = Ok raw →
    carries payload (toNumber raw)
| carries_old absent row raw :
    get payload "new" = Ok absent → nullish absent = true →
    get payload "old" = Ok row → truthy row = true →
    get row "count" = Ok raw →
    carries payload (toNumber raw).

(** [{ new: { count: c } }] *)
Definition insertOf (c : Value) : Value := VObj [("new", VObj [("count", c)])].

(** [{ old: { count: c } }], as a delete is pushed without a new row *)
Definition deleteOf (c : Value) : Value := VObj [("old", VObj [("count", c)])].

End Live.

(** ** The completion estimate, in the arithmetic of doubles *)

Module Estimate.
Import Live.

(** The time value of [new Date(v)]: [v] without its fraction, and no
    valid date ([NaN]) when [v] is not finite or further than 8.64e15 ms
    from the epoch. *)
Inductive DateValue := InvalidDate | At (ms : Z).

Definition newDate (v : JSNum) : DateValue :=
  match v with
  | Fin q =>
      if Qle_bool (Qabs q) 8640000000000000 then At (Stats.dateOf q) else InvalidDate
  | _ => InvalidDate
  end.

(** A whole number as a number; the counts and the clock are whole
    numbers below [2^53], which are doubles. *)
Definition num (z : Z) : JSNum := Fin (inject_Z z).

(** [signupDiff / Math.max(hoursDiff, 1e-6)] *)
Definition avgPerHour (first latest : DataPoint) : JSNum :=
  let timeDiff := sub (num (timestamp latest)) (num (timestamp first)) in
  let hoursDiff := div timeDiff (num (1000 * 60 * 60)) in
  let signupDiff := sub (num (count latest)) (num (count first)) in
  div signupDiff (max hoursDiff (round64 (1 # 1000000))).

(** The block under [// Estimate completion date]: the values of
    [estimatedCompletion] ([null] is [None]) and [daysRemaining] after it. *)
Definition estimate (avgPerHour : JSNum) (latestCount now : Z)
    : option DateValue * JSNum :=
  let remaining := sub (num Stats.TARGET_SIGNUPS) (num latestCount) in
  if lt (num 0) avgPerHour && lt (num 0) remaining then
    let hoursRemaining := div remaining avgPerHour in
    (Some (newDate (add (num now)
                        (mul (mul (mul hoursRemaining (num 60)) (num 60)) (num 1000)))),
     ceil (div hoursRemaining (num 24)))
  else (None, num 0).

(** [v] is [x] up to the fraction [eps] of [x]. *)
Definition near (eps x v : Q) : Prop :=
  (x * (1 - eps) <= v)%Q ∧ (v <= x * (1 + eps))%Q.

(** Half the distance between 1 and the next double. *)
Definition unitRoundoff : Q := 1 # 9007199254740992.

End Estimate.

(** ** What a run of the pager did, read off its log *)

Module Pages.
Import Pager.

(** [for (const r of batch) allRows.push(..)]: what the answer to one page
    query added to [allRows]. *)
Definition contribution (be : Backend) (q : Query) : list DataPoint :=
  match run be q with
  | Data (Some batch) => toDataPoint <$> batch
  | _ => []
  end.

(** [lastId = batch[batch.length - 1].id] (or [lastTs]): the bound the
    answer to [q] leaves for the next query. *)
Definition nextBound (be : Backend) (k : Key) (q : Query) : option Z :=
  match run be q with
  | Data (Some batch) => keyOf k <$> last batch
  | _ => None
  end.

(** A backend that answers every page query with the same batch. *)
Definition stuckBackend (hasId : bool) (batch : list Row) : Backend :=
  {| probeOk := hasId; run := λ _, Data (Some batch) |}.

(** A table of 101001 rows with the keys 0, 1, 2, .. *)
Definition long_table : list Row :=
  (λ i, mkRow (Z.of_nat i) (Z.of_nat i) None) <$> seq 0 (Z.to_nat 101001).

End Pages.

(** ** The chart: range filter and tooltip interpolation *)

Module Chart.
Import Resampler.

(** [getFilteredData], with [now] the value of [new Date().getTime()]. *)
Definition getFilteredData (timeRange : Live.TimeRange) (now : Z)
    (data : list DataPoint) : list DataPoint :=
  match timeRange with
  | Live.RangeAll => data
  | _ =>
      let msPerHour := 60 * 60 * 1000 in
      let msPerDay := 24 * msPerHour in
      let cutoff :=
        match timeRange with
        | Live.Range1h => now - msPerHour
        | Live.Range7d => now - 7 * msPerDay
        | _ => now - msPerDay
        end in
      filter (λ d, cutoff ≤ timestamp d) data
  end.

(** [chartData[k].count]; [chartData] is the resampled series, each bucket
    carrying its position as [index]. *)
Definition countAt (chartData : list Bucket) (k : Z) : Res (option Z) :=
  if k <? 0 then Raise TypeError
  else match chartData !! Z.to_nat k with
       | Some b => Ok (b_count b)
       | None => Raise TypeError
       end.

(** [while (left >= 0 && chartData[left].count === null) left -= 1] *)
Fixpoint scanLeft (fuel : nat) (chartData : list Bucket) (left : Z) : Res Z :=
  if 0 <=? left then
    match fuel with
    | O => Raise OutOfFuel
    | S fuel' =>
        c <~ countAt chartData left;
        match c with
        | None => scanLeft fuel' chartData (left - 1)
        | Some _ => Ok left
        end
    end
  else Ok left.

(** [while (right < chartData.length && chartData[right].count === null) right += 1] *)
Fixpoint scanRight (fuel : nat) (chartData : list Bucket) (right : Z) : Res Z :=
  if right <? Z.of_nat (length chartData) then
    match fuel with
    | O => Raise OutOfFuel
    | S fuel' =>
        c <~ countAt chartData right;
        match c with
        | None => scanRight fuel' chartData (right + 1)
        | Some _ => Ok right
        end
    end
  else Ok right.

(** [interpolateAtIndex]; [null] is [None]. With [idx] infinite the first
    array read is out of range; with [idx] [NaN] both loops and both reads
    are skipped. Each scan gets one unit of fuel per bucket, and one more. *)
Definition interpolateAtIndex (chartData : list Bucket) (idx : Live.JSNum)
    : Res (option Z) :=
  match idx with
  | Live.NaN => Ok None
  | Live.PosInf | Live.NegInf => Raise TypeError
  | Live.Fin q =>
      let i := Qfloor q in
      left <~ scanLeft (S (length chartData)) chartData (i - 1);
      right <~ scanRight (S (length chartData)) chartData (i + 1);
      leftVal <~ (if 0 <=? left then countAt chartData left else Ok None);
      rightVal <~ (if right <? Z.of_nat (length chartData)
                   then countAt chartData right else Ok None);
      match leftVal, rightVal with
      | None, None => Ok None
      | None, Some r => Ok (Some r)
      | Some l, None => Ok (Some l)
      | Some l, Some r =>
          let t := (inject_Z (i - left) / inject_Z (right - left))%Q in
          Ok (Some (mathRound (inject_Z l + inject_Z (r - l) * t)%Q))
      end
  end.

(** What the tooltip shows in the place of the value. *)
Inductive TooltipValue := NoData | Signups (v : Live.JSNum).

(** The [formatter] of the tooltip, called with the value of a bucket and
    with [props]; [p?.label] is [undefined] when [p] is [null] or
    [undefined]. *)
Definition formatter (chartData : list Bucket) (value props : Live.Value)
    : Res TooltipValue :=
  if Live.nullish value then
    label <~ (if Live.nullish props then Ok Live.VUndefined else Live.get props "label");
    let idx := Live.toNumber (if Live.nullish label then Live.VNum Live.NaN else label) in
    interp <~ interpolateAtIndex chartData idx;
    match interp with
    | None => Ok NoData
    | Some v => Ok (Signups (Live.Fin (inject_Z v)))
    end
  else Ok (Signups (Live.toNumber value)).

(** [props] with the index [i] as its label. *)
Definition labelled (i : Z) : Live.Value :=
  Live.VObj [("label", Live.VNum (Live.Fin (inject_Z i)))].

(** The nearest counts shown before and after position [i]. *)
Definition shownBefore (chartData : list Bucket) (i : Z) : option Z :=
  last (omap b_count (take (Z.to_nat i) chartData)).

Definition shownAfter (chartData : list Bucket) (i : Z) : option Z :=
  head (omap b_count (drop (Z.to_nat (i + 1)) chartData)).

(** Five buckets, the second and the third empty. *)
Definition gappy : list Bucket :=
  [mkBucket 0 (Some 10); mkBucket 60000 None; mkBucket 120000 None;
   mkBucket 180000 (Some 40); mkBucket 240000 (Some 41)].

(** The chart of [Resampler.four_points]. *)
Definition four_buckets : list Bucket :=
  [mkBucket 0 (Some 1); mkBucket 60000 (Some 2);
   mkBucket 120000 None; mkBucket 180000 (Some 4)].

End Chart.

(** ** What the page shows of the state *)

Module Display.

(** The label set after a fetch, from the latest row's time and [now]. *)
Definition lastUpdatedLabel (latestTs now : Z) : string :=
  let diffMs := now - latestTs in
  let diffMins := Z.max 0 (diffMs / 60000) in
  if 1440 <=? diffMins then
    let days := diffMins / 1440 in
    let dayLabel := if days =? 1 then "day" else "days" in
    "Last updated: " +:+ pretty days +:+ " " +:+ dayLabel +:+ " ago"
  else if diffMins =? 0 then "< 1 min ago"
  else pretty diffMins +:+ " min ago".


(** [TARGET_SIGNUPS > 0 ? (currentCount / TARGET_SIGNUPS) * 100 : 0] *)
Definition percentage (currentCount : Live.JSNum) : Live.JSNum :=
  if 0 <? Stats.TARGET_SIGNUPS then
    Live.mul (Live.div currentCount (Live.Fin (inject_Z Stats.TARGET_SIGNUPS)))
             (Live.Fin 100)
  else Live.Fin 0.







End Display.

(** ** One refresh cycle *)

Module Fetch.
Import Live.

Definition setData (d : list DataPoint) (st : View) : View :=
  {| data := d; currentCount := currentCount st; lastUpdated := lastUpdated st;
     loading := loading st; stats := stats st; timeRange := timeRange st |}.

Definition setCurrentCount (n : JSNum) (st : View) : View :=
  {| data := data st; currentCount := n; lastUpdated := lastUpdated st;
     loading := loading st; stats := stats st; timeRange := timeRange st |}.

Definition setLastUpdated (s : string) (st : View) : View :=
  {| data := data st; currentCount := currentCount st; lastUpdated := s;
     loading := loading st; stats := stats st; timeRange := timeRange st |}.

Definition setLoading (b : bool) (st : View) : View :=
  {| data := data st; currentCount := currentCount st; lastUpdated := lastUpdated st;
     loading := b; stats := stats st; timeRange := timeRange st |}.

Definition setStats (s : StatsView) (st : View) : View :=
  {| data := data st; currentCount := currentCount st; lastUpdated := lastUpdated st;
     loading := loading st; stats := Some s; timeRange := timeRange st |}.

(** [fetchData]: the pager, then the setters in the order of the source.
    [now] is the clock read after the last page; a fault in the statistics
    lands in [catch], after the earlier setters. [None] only if the pager's
    fuel ran out. The timer that sets the same count again 300 ms later is
    the event [Late] below. *)
Definition fetchData (be : Pager.Backend) (zone : Hourly.Zone) (now : Z) (st : View)
    : option View :=
  match Pager.fetchAllSamples be with
  | None => None
  | Some (allRows, _) =>
      match last allRows with
      | None => Some (setLoading false st)
      | Some latest =>
          let st := setData (Hourly.hourlyData zone allRows) st in
          let st := setCurrentCount (Fin (inject_Z (count latest))) st in
          let st := setLastUpdated (Display.lastUpdatedLabel (timestamp latest) now) st in
          match Stats.computeStats allRows now with
          | Ok (Some s) => Some (setLoading false (setStats s st))
          | Ok None => Some (setLoading false st)
          | Raise _ => Some (setLoading false st)
          end
      end
  end.

(** [useState] initial values. *)
Definition initialView : View :=
  {| data := []; currentCount := Fin 0; lastUpdated := "";
     loading := true; stats := None; timeRange := RangeAll |}.

Definition setTimeRange (r : TimeRange) (st : View) : View :=
  {| data := data st; currentCount := currentCount st; lastUpdated := lastUpdated st;
     loading := loading st; stats := stats st; timeRange := r |}.

(** What happens to the mounted component: a run of [fetchData] (at mount
    and from [setInterval]) against the backend as it is at that time; the
    timer a run leaves behind, [setTimeout(() => setCurrentCount(latest.count), 300)],
    with any count; a realtime message; a click on a range button. *)
Inductive Event :=
| Tick (be : Pager.Backend) (now : Z)
| Late (c : Z)
| Push (payload : Value)
| Pick (r : TimeRange).

(** [fetchData] always returns, so the [default] is never taken. *)
Definition step (zone : Hourly.Zone) (st : View) (e : Event) : View :=
  match e with
  | Tick be now => default st (fetchData be zone now st)
  | Late c => setCurrentCount (Fin (inject_Z c)) st
  | Push payload => onChange payload st
  | Pick r => setTimeRange r st
  end.

Definition session (zone : Hourly.Zone) (events : list Event) : View :=
  foldl (step zone) initialView events.

(** The timer that a run of [fetchData] against [be] leaves behind: none
    when it found no rows. *)
Definition timerOf (be : Pager.Backend) : option Event :=
  match Pager.fetchAllSamples be with
  | Some (allRows, _) => (λ latest, Late (count latest)) <$> last allRows
  | None => None
  end.

Definition isTick (e : Event) : bool :=
  match e with Tick _ _ => true | _ => false end.

(** The range of the last click, ['all'] before the first. *)
Definition lastPick (events : list Event) : TimeRange :=
  default RangeAll (last (omap (λ e, match e with Pick r => Some r | _ => None end) events)).

(** A fetch of [three_rows], and a realtime message with the count 99
    after it. *)
Definition after_fetch : View :=
  step (Hourly.fixedZone 0) initialView
    (Tick (Pager.tableBackend true Pager.three_rows) 1000).

Definition after_message : View :=
  step (Hourly.fixedZone 0) after_fetch (Push (insertOf (VNum (Fin 99)))).

End Fetch.

(** ** Decimal numerals *)

Module Numeral.

(** A decimal digit character. *)
Definition isDec (c : ascii) : Prop := 48 ≤ Live.code c ≤ 57.

End Numeral.

(** * Theorems *)

(** ** Rounding to a double *)

Section DoubleProofs.
Import Live.

Lemma two_pos (z : Z) : (0 < 2 ^ z)%Q.
Proof. by apply Qpower_0_lt. Qed.

Lemma two_succ (z : Z) : (2 ^ (z + 1) == 2 * 2 ^ z)%Q.
Proof. rewrite Qpower_plus by done. rewrite Qpower_1_r. ring. Qed.

Lemma two_le (a b : Z) : a ≤ b → (2 ^ a <= 2 ^ b)%Q.
Proof. intros H. by apply Qpower_le_compat_l. Qed.

Lemma two_lt (a b : Z) : a < b → (2 ^ a < 2 ^ b)%Q.
Proof. intros H. by apply Qpower_lt_compat_l. Qed.

Lemma two_inject (n : Z) : 0 ≤ n → (2 ^ n == inject_Z (2 ^ n))%Q.
Proof. intros H. by rewrite (Zpower_Qpower 2 n H). Qed.

Lemma Qdiv_le_cross (a b c d : Z) :
  0 < b → 0 < d → a * d ≤ c * b → (inject_Z a / inject_Z b <= inject_Z c / inject_Z d)%Q.
Proof.
  intros Hb Hd H. destruct b as [|b|b]; [lia| |lia]. destruct d as [|d|d]; [lia| |lia].
  rewrite <- !Qmake_Qdiv. unfold Qle. cbn [Qnum Qden]. lia.
Qed.

Lemma Qdiv_lt_cross (a b c d : Z) :
  0 < b → 0 < d → a * d < c * b → (inject_Z a / inject_Z b < inject_Z c / inject_Z d)%Q.
Proof.
  intros Hb Hd H. destruct b as [|b|b]; [lia| |lia]. destruct d as [|d|d]; [lia| |lia].
  rewrite <- !Qmake_Qdiv. unfold Qlt. cbn [Qnum Qden]. lia.
Qed.

Lemma two_quot (a b : Z) :
  0 ≤ a → 0 ≤ b → (2 ^ (a - b) == inject_Z (2 ^ a) / inject_Z (2 ^ b))%Q.
Proof. intros Ha Hb. rewrite Qpower_minus by done. by rewrite !two_inject. Qed.

(** [floorLog2 x] is the exponent of the binade of [x]. *)
Lemma floorLog2_spec (x : Q) :
  (0 < x)%Q → (2 ^ floorLog2 x <= x)%Q ∧ (x < 2 ^ (floorLog2 x + 1))%Q.
Proof.
  intros Hx. unfold floorLog2. destruct x as [n d]. cbn [Qnum Qden].
  assert (Hn : 0 < n) by (unfold Qlt in Hx; simpl in Hx; lia).
  set (ln := Z.log2 n). set (ld := Z.log2 (Z.pos d)).
  destruct (Z.log2_spec n Hn) as [Hn1 Hn2]. fold ln in Hn1, Hn2.
  destruct (Z.log2_spec (Z.pos d) ltac:(lia)) as [Hd1 Hd2]. fold ld in Hd1, Hd2.
  assert (Hln : 0 ≤ ln) by apply Z.log2_nonneg.
  assert (Hld : 0 ≤ ld) by apply Z.log2_nonneg.
  assert (Hp1 : 0 < 2 ^ ln) by (apply Z.pow_pos_nonneg; lia).
  assert (Hp2 : 0 < 2 ^ ld) by (apply Z.pow_pos_nonneg; lia).
  assert (Hs1 : 2 ^ (ln + 1) = 2 * 2 ^ ln) by (rewrite Z.pow_add_r by lia; lia).
  assert (Hs2 : 2 ^ (ld + 1) = 2 * 2 ^ ld) by (rewrite Z.pow_add_r by lia; lia).
  unfold Z.succ in *. rewrite Hs1 in Hn2. rewrite Hs2 in Hd2.
  assert (Hq : (n # d == inject_Z n / inject_Z (Z.pos d))%Q) by apply Qmake_Qdiv.
  assert (Hlow : (2 ^ (ln - ld - 1) <= n # d)%Q).
  { rewrite Hq. replace (ln - ld - 1) with (ln - (ld + 1)) by lia.
    rewrite two_quot by lia. apply Qdiv_le_cross; [lia|lia|]. rewrite Hs2. nia. }
  assert (Hupp : (n # d < 2 ^ (ln - ld + 1))%Q).
  { rewrite Hq. replace (ln - ld + 1) with (ln + 1 - ld) by lia.
    rewrite two_quot by lia. apply Qdiv_lt_cross; [lia|lia|]. rewrite Hs1. nia. }
  destruct (Qle_bool (2 ^ (ln - ld)) (n # d)) eqn:E.
  - apply Qle_bool_iff in E. done.
  - split; [done|].
    replace (ln - ld - 1 + 1) with (ln - ld) by lia.
    apply Qnot_le_lt. intros H. apply Qle_bool_iff in H. congruence.
Qed.

Lemma roundHalfEven_comp (m m' : Q) : (m == m')%Q → roundHalfEven m = roundHalfEven m'.
Proof.
  intros H. unfold roundHalfEven. rewrite (Qfloor_comp _ _ H).
  assert ((m - inject_Z (Qfloor m') ?= 1 # 2) = (m' - inject_Z (Qfloor m') ?= 1 # 2))%Q
    as -> by (by rewrite H). done.
Qed.

Lemma roundHalfEven_int (n : Z) : roundHalfEven (inject_Z n) = n.
Proof.
  unfold roundHalfEven. rewrite Qfloor_Z.
  assert ((inject_Z n - inject_Z n ?= 1 # 2)%Q = Lt) as ->; [|done].
  apply Qlt_alt. assert (inject_Z n - inject_Z n == 0)%Q as -> by ring. done.
Qed.

(** The rounded value is within a half of [m], and between its floor and
    the next integer. *)
Lemma roundHalfEven_near (m : Q) :
  Qfloor m ≤ roundHalfEven m ≤ Qfloor m + 1 ∧
  (inject_Z (roundHalfEven m) - m <= 1 # 2)%Q ∧ (m - inject_Z (roundHalfEven m) <= 1 # 2)%Q.
Proof.
  unfold roundHalfEven. pose proof (Qfloor_le m) as Hf. pose proof (Qlt_floor m) as Hc.
  rewrite inject_Z_plus in Hc. change (inject_Z 1) with 1%Q in Hc.
  set (f := Qfloor m) in *.
  destruct (Qcompare_spec (m - inject_Z f) (1 # 2)) as [E|E|E].
  - destruct (Z.even f).
    + split; [lia|]. split.
      * apply Qle_trans with 0%Q; [|done]. apply Qle_minus_iff.
        assert (0 + - (inject_Z f - m) == m - inject_Z f)%Q as -> by ring.
        rewrite E. done.
      * rewrite E. apply Qle_refl.
    + split; [lia|]. rewrite inject_Z_plus. change (inject_Z 1) with 1%Q. split.
      * assert (inject_Z f + 1 - m == 1 - (m - inject_Z f))%Q as -> by ring.
        rewrite E. done.
      * apply Qle_trans with 0%Q; [|done].
        apply Qle_minus_iff.
        assert (0 + - (m - (inject_Z f + 1)) == inject_Z f + 1 - m)%Q as -> by ring.
        apply Qlt_le_weak. apply (Qplus_lt_l _ _ m). ring_simplify. done.
  - split; [lia|]. split.
    + apply Qle_trans with 0%Q; [|done]. apply (Qplus_le_l _ _ m). ring_simplify. done.
    + by apply Qlt_le_weak.
  - split; [lia|]. rewrite inject_Z_plus. change (inject_Z 1) with 1%Q. split.
    + apply (Qplus_le_l _ _ (m - inject_Z f - (1 # 2))). ring_simplify.
      apply Qlt_le_weak.
      assert (-1 * inject_Z f + m == m - inject_Z f)%Q as -> by ring. done.
    + apply Qle_trans with 0%Q; [|done]. apply (Qplus_le_l _ _ (inject_Z f + 1)).
      ring_simplify. by apply Qlt_le_weak.
Qed.

Lemma roundHalfEven_mono (m1 m2 : Q) :
  (m1 <= m2)%Q → roundHalfEven m1 ≤ roundHalfEven m2.
Proof.
  intros Hle. pose proof (Qfloor_resp_le _ _ Hle) as Hf.
  destruct (roundHalfEven_near m1) as [[_ H1] _].
  destruct (roundHalfEven_near m2) as [[H2 _] _].
  destruct (decide (Qfloor m1 < Qfloor m2)) as [Hlt|Hge]; [lia|].
  assert (Heq : Qfloor m1 = Qfloor m2) by lia.
  unfold roundHalfEven. rewrite Heq. set (f := Qfloor m2).
  assert (Hfrac : (m1 - inject_Z f <= m2 - inject_Z f)%Q) by (by apply Qplus_le_l).
  destruct (Qcompare_spec (m1 - inject_Z f) (1 # 2)) as [E1|E1|E1];
    destruct (Qcompare_spec (m2 - inject_Z f) (1 # 2)) as [E2|E2|E2];
    try lia; try (destruct (Z.even f); lia).
  - rewrite E1 in Hfrac. exfalso. by apply (Qlt_not_le _ _ E2).
  - exfalso. apply (Qlt_not_le _ _ E1). by rewrite <- E2.
  - exfalso. apply (Qlt_not_le _ _ E1). eapply Qle_trans; [exact Hfrac|by apply Qlt_le_weak].
Qed.

Lemma two_add (a b : Z) : (2 ^ (a + b) == 2 ^ a * 2 ^ b)%Q.
Proof. by apply Qpower_plus. Qed.

Lemma ulpOf_pos (x : Q) : (0 < ulpOf x)%Q.
Proof. apply two_pos. Qed.

Lemma Qdiv_mult_cancel (x u : Q) : (0 < u)%Q → (x / u * u == x)%Q.
Proof. intros Hu. field. intros H. rewrite H in Hu. by apply Qlt_irrefl in Hu. Qed.

(** The scaled significand of a positive [x] is below [2^53], and from
    [2^52] on in the normal range. *)
Lemma significand_bounds (x : Q) :
  (0 < x)%Q →
  (x / ulpOf x < inject_Z (2 ^ 53))%Q ∧
  (-1022 ≤ floorLog2 x → (inject_Z (2 ^ 52) <= x / ulpOf x)%Q).
Proof.
  intros Hx. destruct (floorLog2_spec x Hx) as [Hlow Hupp].
  pose proof (ulpOf_pos x) as Hu. unfold ulpOf in *.
  set (e := Z.max (floorLog2 x) (-1022)) in *.
  split.
  - apply Qlt_shift_div_r; [done|].
    rewrite <- two_inject by lia. rewrite <- two_add.
    eapply Qlt_le_trans; [exact Hupp|]. apply two_le. lia.
  - intros Hnorm. apply Qle_shift_div_l; [done|].
    rewrite <- two_inject by lia. rewrite <- two_add.
    eapply Qle_trans; [|exact Hlow]. apply two_le. lia.
Qed.

Lemma nearest_bounds (x : Q) :
  (0 < x)%Q →
  (0 <= nearest x)%Q ∧
  (nearest x <= 2 ^ (Z.max (floorLog2 x) (-1022) + 1))%Q ∧
  (-1022 ≤ floorLog2 x → (2 ^ floorLog2 x <= nearest x)%Q) ∧
  (nearest x - x <= ulpOf x * (1 # 2))%Q ∧ (x - nearest x <= ulpOf x * (1 # 2))%Q.
Proof.
  intros Hx. destruct (significand_bounds x Hx) as [Hm1 Hm2].
  pose proof (ulpOf_pos x) as Hu.
  destruct (roundHalfEven_near (x / ulpOf x)) as (_ & Hn1 & Hn2).
  unfold nearest. set (m := (x / ulpOf x)%Q) in *. set (r := roundHalfEven m) in *.
  assert (Hmpos : (0 <= m)%Q).
  { unfold m. apply Qle_shift_div_l; [done|]. rewrite Qmult_0_l. by apply Qlt_le_weak. }
  assert (Hr0 : 0 ≤ r).
  { rewrite <- (roundHalfEven_int 0). by apply roundHalfEven_mono. }
  assert (Hr1 : r ≤ 2 ^ 53).
  { rewrite <- (roundHalfEven_int (2 ^ 53)). apply roundHalfEven_mono. by apply Qlt_le_weak. }
  assert (Hx' : (x == m * ulpOf x)%Q) by (unfold m; by rewrite Qdiv_mult_cancel).
  split_and!.
  - apply Qmult_le_0_compat; [|by apply Qlt_le_weak]. by rewrite <- (Zle_Qle 0).
  - unfold ulpOf in *. set (e := Z.max (floorLog2 x) (-1022)) in *.
    replace (e + 1) with (53 + (e - 52)) by lia. rewrite two_add, (two_inject 53) by lia.
    apply Qmult_le_compat_r; [|by apply Qlt_le_weak]. by rewrite <- Zle_Qle.
  - intros Hnorm. specialize (Hm2 Hnorm).
    assert (Hr2 : 2 ^ 52 ≤ r).
    { rewrite <- (roundHalfEven_int (2 ^ 52)). by apply roundHalfEven_mono. }
    unfold ulpOf in *. rewrite Z.max_l in * by lia.
    replace (floorLog2 x) with (52 + (floorLog2 x - 52)) at 1 by lia.
    rewrite two_add, (two_inject 52) by lia.
    apply Qmult_le_compat_r; [|by apply Qlt_le_weak]. by rewrite <- Zle_Qle.
  - clearbody m. set (u := ulpOf x) in *. clearbody u. rewrite Hx'.
    assert (inject_Z r * u - m * u == u * (inject_Z r - m))%Q as -> by ring.
    apply Qmult_le_l; done.
  - clearbody m. set (u := ulpOf x) in *. clearbody u. rewrite Hx'.
    assert (m * u - inject_Z r * u == u * (m - inject_Z r))%Q as -> by ring.
    apply Qmult_le_l; done.
Qed.

Lemma floorLog2_mono (x y : Q) : (0 < x)%Q → (x <= y)%Q → floorLog2 x ≤ floorLog2 y.
Proof.
  intros Hx Hle. assert (Hy : (0 < y)%Q) by (by eapply Qlt_le_trans).
  destruct (floorLog2_spec x Hx) as [Hx1 _]. destruct (floorLog2_spec y Hy) as [_ Hy2].
  destruct (decide (floorLog2 x ≤ floorLog2 y)) as [|Hgt]; [done|]. exfalso.
  assert (2 ^ (floorLog2 y + 1) <= 2 ^ floorLog2 x)%Q by (apply two_le; lia).
  apply (Qlt_irrefl y). eapply Qlt_le_trans; [exact Hy2|].
  eapply Qle_trans; [eassumption|]. by eapply Qle_trans.
Qed.

Lemma nearest_mono (x y : Q) : (0 < x)%Q → (x <= y)%Q → (nearest x <= nearest y)%Q.
Proof.
  intros Hx Hle. assert (Hy : (0 < y)%Q) by (by eapply Qlt_le_trans).
  pose proof (floorLog2_mono x y Hx Hle) as He.
  destruct (decide (Z.max (floorLog2 x) (-1022) = Z.max (floorLog2 y) (-1022))) as [Heq|Hne].
  - assert (Hu : ulpOf x = ulpOf y) by (unfold ulpOf; by rewrite Heq).
    unfold nearest. rewrite Hu. pose proof (ulpOf_pos y) as Hpos.
    apply Qmult_le_compat_r; [|by apply Qlt_le_weak].
    rewrite <- Zle_Qle. apply roundHalfEven_mono.
    apply Qmult_le_compat_r; [done|]. apply Qinv_le_0_compat. by apply Qlt_le_weak.
  - destruct (nearest_bounds x Hx) as (_ & Hupp & _).
    destruct (nearest_bounds y Hy) as (_ & _ & Hlow & _).
    eapply Qle_trans; [exact Hupp|]. eapply Qle_trans; [|apply Hlow; lia].
    apply two_le. lia.
Qed.

Lemma roundPos_mono (x y : Q) : (0 < x)%Q → (x <= y)%Q → numLe (roundPos x) (roundPos y).
Proof.
  intros Hx Hle. pose proof (nearest_mono x y Hx Hle) as Hn. unfold roundPos.
  destruct (Qle_bool (2 ^ 1024) (nearest x)) eqn:Ex.
  - apply Qle_bool_iff in Ex.
    assert (Qle_bool (2 ^ 1024) (nearest y) = true) as ->; [|done].
    apply Qle_bool_iff. by eapply Qle_trans.
  - destruct (Qle_bool (2 ^ 1024) (nearest y)); [done|]. simpl. by rewrite !Qred_correct.
Qed.

Lemma roundPos_sign (x : Q) :
  (0 < x)%Q → roundPos x = PosInf ∨ ∃ v, roundPos x = Fin v ∧ (0 <= v)%Q.
Proof.
  intros Hx. destruct (nearest_bounds x Hx) as (H0 & _). unfold roundPos.
  destruct (Qle_bool (2 ^ 1024) (nearest x)); [by left|].
  right. eexists. split; [done|]. by rewrite Qred_correct.
Qed.

Lemma round64_mono (x y : Q) : (x <= y)%Q → numLe (round64 x) (round64 y).
Proof.
  intros Hle. unfold round64.
  destruct (Qcompare_spec x 0) as [Ex|Ex|Ex]; destruct (Qcompare_spec y 0) as [Ey|Ey|Ey].
  - simpl. apply Qle_refl.
  - exfalso. rewrite Ex in Hle. by apply (Qlt_not_le _ _ Ey).
  - destruct (roundPos_sign y Ey) as [->|(v & -> & Hv)]; done.
  - assert (Hx : (0 < - x)%Q) by (apply (Qplus_lt_l _ _ x); ring_simplify; done).
    destruct (roundPos_sign (- x) Hx) as [->|(v & -> & Hv)]; [done|].
    simpl. rewrite Qred_correct. apply (Qplus_le_l _ _ v). ring_simplify. done.
  - assert (Hx : (0 < - x)%Q) by (apply (Qplus_lt_l _ _ x); ring_simplify; done).
    assert (Hy : (0 < - y)%Q) by (apply (Qplus_lt_l _ _ y); ring_simplify; done).
    assert (Hle' : (- y <= - x)%Q) by (by apply Qopp_le_compat).
    pose proof (roundPos_mono (- y) (- x) Hy Hle') as Hm.
    destruct (roundPos_sign (- x) Hx) as [E1|(v1 & E1 & Hv1)];
      destruct (roundPos_sign (- y) Hy) as [E2|(v2 & E2 & Hv2)];
      rewrite E1, E2 in *; simpl in *; try done.
    rewrite !Qred_correct. by apply Qopp_le_compat.
  - assert (Hx : (0 < - x)%Q) by (apply (Qplus_lt_l _ _ x); ring_simplify; done).
    destruct (roundPos_sign (- x) Hx) as [E1|(v1 & E1 & Hv1)];
      destruct (roundPos_sign y Ey) as [E2|(v2 & E2 & Hv2)];
      rewrite E1, E2; simpl; try done.
    rewrite Qred_correct. apply Qle_trans with 0%Q; [|done].
    apply (Qplus_le_l _ _ v1). ring_simplify. done.
  - exfalso. rewrite Ey in Hle. by apply (Qlt_not_le _ _ Ex).
  - exfalso. apply (Qlt_not_le _ _ Ex). eapply Qle_trans; [exact Hle|by apply Qlt_le_weak].
  - by apply roundPos_mono.
Qed.

(** A multiple of its own unit in the last place is kept as it is. *)
Lemma nearest_exact (x : Q) (k : Z) :
  (x == inject_Z k * ulpOf x)%Q → (nearest x == x)%Q.
Proof.
  intros Hk. pose proof (ulpOf_pos x) as Hu. unfold nearest.
  assert (Hm : (x / ulpOf x == inject_Z k)%Q).
  { set (u := ulpOf x) in *. clearbody u. rewrite Hk. field.
    intros H. rewrite H in Hu. by apply Qlt_irrefl in Hu. }
  rewrite (roundHalfEven_comp _ _ Hm), roundHalfEven_int. by rewrite <- Hk.
Qed.

Lemma floorLog2_lower (x : Q) (e : Z) : (0 < x)%Q → (2 ^ e <= x)%Q → e ≤ floorLog2 x.
Proof.
  intros Hx He. destruct (floorLog2_spec x Hx) as [_ Hupp].
  destruct (decide (e ≤ floorLog2 x)) as [|Hgt]; [done|]. exfalso.
  apply (Qlt_irrefl x). eapply Qlt_le_trans; [exact Hupp|].
  eapply Qle_trans; [|exact He]. apply two_le. lia.
Qed.

Lemma floorLog2_upper (x : Q) (e : Z) : (0 < x)%Q → (x < 2 ^ e)%Q → floorLog2 x < e.
Proof.
  intros Hx He. destruct (floorLog2_spec x Hx) as [Hlow _].
  destruct (decide (floorLog2 x < e)) as [|Hgt]; [done|]. exfalso.
  apply (Qlt_irrefl x). eapply Qlt_le_trans; [exact He|].
  eapply Qle_trans; [|exact Hlow]. apply two_le. lia.
Qed.

Lemma nearest_int (n : Z) : 0 < n ≤ 2 ^ 53 → (nearest (inject_Z n) == inject_Z n)%Q.
Proof.
  intros Hn. assert (Hx : (0 < inject_Z n)%Q) by (rewrite <- (Zlt_Qlt 0); lia).
  assert (H0 : 0 ≤ floorLog2 (inject_Z n)).
  { apply floorLog2_lower; [done|]. rewrite (two_inject 0), <- Zle_Qle by lia.
    change (2 ^ 0) with 1. lia. }
  destruct (floorLog2_spec _ Hx) as [Hlow Hupp].
  destruct (decide (floorLog2 (inject_Z n) ≤ 52)) as [Hle|Hgt].
  - apply (nearest_exact _ (n * 2 ^ (52 - floorLog2 (inject_Z n)))).
    unfold ulpOf. rewrite Z.max_l by lia.
    rewrite inject_Z_mult, <- two_inject by lia.
    rewrite <- Qmult_assoc, <- two_add.
    replace (52 - floorLog2 (inject_Z n) + (floorLog2 (inject_Z n) - 52)) with 0 by lia.
    change (2 ^ 0)%Q with 1%Q. ring.
  - assert (He : floorLog2 (inject_Z n) = 53).
    { assert (floorLog2 (inject_Z n) < 54); [|lia].
      apply floorLog2_upper; [done|]. rewrite (two_inject 54), <- Zlt_Qlt by lia. lia. }
    rewrite He in *. rewrite (two_inject 53), <- Zle_Qle in Hlow by lia.
    assert (n = 2 ^ 53) as -> by lia. vm_compute. split; reflexivity || done.
Qed.

Lemma Qred_inject (q : Q) (n : Z) : (q == inject_Z n)%Q → Qred q = inject_Z n.
Proof.
  intros H. rewrite (Qred_complete _ _ H). unfold Qred, inject_Z.
  pose proof (Z.ggcd_gcd n 1) as Hg. pose proof (Z.ggcd_correct_divisors n 1) as Hd.
  destruct (Z.ggcd n 1) as [g [a b]]. cbn [fst snd] in *.
  rewrite Z.gcd_1_r in Hg. subst g. destruct Hd as [-> Hb].
  assert (b = 1) as -> by lia. f_equal. lia.
Qed.

Lemma roundPos_int (n : Z) : 0 < n ≤ 2 ^ 53 → roundPos (inject_Z n) = Fin (inject_Z n).
Proof.
  intros Hn. unfold roundPos. pose proof (nearest_int n Hn) as He.
  assert (Qle_bool (2 ^ 1024) (nearest (inject_Z n)) = false) as ->.
  { apply not_true_iff_false. rewrite Qle_bool_iff, He.
    rewrite (two_inject 1024), <- Zle_Qle by lia.
    assert (2 ^ 53 < 2 ^ 1024) by (by apply Z.pow_lt_mono_r). lia. }
  f_equal. by apply Qred_inject.
Qed.

(** Every whole number up to [2^53] in size is a double. *)
Lemma round64_int (n : Z) : - 2 ^ 53 ≤ n ≤ 2 ^ 53 → round64 (inject_Z n) = Fin (inject_Z n).
Proof.
  intros Hn. unfold round64. destruct (Qcompare_spec (inject_Z n) 0) as [E|E|E].
  - f_equal. unfold Qeq in E. cbn [inject_Z Qnum Qden] in E. by replace n with 0 by lia.
  - change 0%Q with (inject_Z 0) in E. rewrite <- (Zlt_Qlt n 0) in E.
    rewrite <- inject_Z_opp, roundPos_int by lia.
    f_equal. apply Qred_inject. rewrite <- inject_Z_opp. by rewrite Z.opp_involutive.
  - change 0%Q with (inject_Z 0) in E. rewrite <- (Zlt_Qlt 0 n) in E.
    apply roundPos_int. lia.
Qed.

(** In the normal range rounding moves a number by at most the fraction
    [2^-53] of itself. *)
Lemma round64_near (x : Q) :
  (2 ^ (-1022) <= x)%Q → (x < 2 ^ 1023)%Q →
  ∃ v, round64 x = Fin v ∧ (x * (1 - 2 ^ (-53)) <= v)%Q ∧ (v <= x * (1 + 2 ^ (-53)))%Q.
Proof.
  intros Hlo Hhi.
  assert (Hx : (0 < x)%Q) by (eapply Qlt_le_trans; [apply (two_pos (-1022))|done]).
  pose proof (floorLog2_lower x _ Hx Hlo) as He1.
  pose proof (floorLog2_upper x _ Hx Hhi) as He2.
  destruct (floorLog2_spec x Hx) as [Hlow _].
  destruct (nearest_bounds x Hx) as (_ & Hupp & _ & Hd1 & Hd2).
  unfold round64.
  destruct (Qcompare_spec x 0) as [E|E|E].
  - exfalso. rewrite E in Hx. by apply Qlt_irrefl in Hx.
  - exfalso. by apply (Qlt_irrefl x), Qlt_trans with 0%Q.
  - unfold roundPos.
    assert (Qle_bool (2 ^ 1024) (nearest x) = false) as ->.
    { apply not_true_iff_false. rewrite Qle_bool_iff. intros Hbig.
      apply (Qlt_irrefl (2 ^ 1024)). eapply Qle_lt_trans; [exact Hbig|].
      eapply Qle_lt_trans; [exact Hupp|]. apply two_lt. lia. }
    eexists. split; [done|]. rewrite Qred_correct.
    assert (Hulp : (ulpOf x * (1 # 2) <= x * 2 ^ (-53))%Q).
    { unfold ulpOf. rewrite Z.max_l by lia.
      replace (floorLog2 x - 52) with (floorLog2 x + (-53) + 1) by lia.
      rewrite two_succ, two_add.
      assert (2 * (2 ^ floorLog2 x * 2 ^ (-53)) * (1 # 2) == 2 ^ floorLog2 x * 2 ^ (-53))%Q
        as -> by ring.
      apply Qmult_le_compat_r; [done|]. apply Qlt_le_weak, two_pos. }
    set (d := (ulpOf x * (1 # 2))%Q) in *. clearbody d.
    set (v := nearest x) in *. clearbody v.
    assert (x * (1 - 2 ^ (-53)) == x - x * 2 ^ (-53))%Q as -> by ring.
    assert (x * (1 + 2 ^ (-53)) == x + x * 2 ^ (-53))%Q as -> by ring.
    set (p := (x * 2 ^ (-53))%Q) in *. clearbody p. split; lra.
Qed.

(** Rounding depends on the value only, not on how the fraction is written. *)
Lemma floorLog2_comp (x y : Q) : (0 < x)%Q → (x == y)%Q → floorLog2 x = floorLog2 y.
Proof.
  intros Hx He. assert (Hy : (0 < y)%Q) by (by rewrite <- He).
  pose proof (floorLog2_mono x y Hx) as H1. pose proof (floorLog2_mono y x Hy) as H2.
  assert (floorLog2 x ≤ floorLog2 y) by (apply H1; rewrite He; apply Qle_refl).
  assert (floorLog2 y ≤ floorLog2 x) by (apply H2; rewrite He; apply Qle_refl).
  lia.
Qed.

Lemma nearest_comp (x y : Q) : (0 < x)%Q → (x == y)%Q → (nearest x == nearest y)%Q.
Proof.
  intros Hx He. unfold nearest, ulpOf. rewrite (floorLog2_comp x y Hx He).
  set (u := (2 ^ (Z.max (floorLog2 y) (-1022) - 52))%Q).
  assert (Hm : (x / u == y / u)%Q) by (by rewrite He).
  by rewrite (roundHalfEven_comp _ _ Hm).
Qed.

Lemma roundPos_comp (x y : Q) : (0 < x)%Q → (x == y)%Q → roundPos x = roundPos y.
Proof.
  intros Hx He. unfold roundPos. pose proof (nearest_comp x y Hx He) as Hn.
  assert (Qle_bool (2 ^ 1024) (nearest x) = Qle_bool (2 ^ 1024) (nearest y)) as ->.
  { apply eq_true_iff_eq. rewrite !Qle_bool_iff. by rewrite Hn. }
  by rewrite (Qred_complete _ _ Hn).
Qed.

Lemma round64_comp (x y : Q) : (x == y)%Q → round64 x = round64 y.
Proof.
  intros He. unfold round64.
  assert ((y ?= 0)%Q = (x ?= 0)%Q) as -> by (by rewrite He).
  destruct (Qcompare_spec x 0) as [E|E|E]; [done| |by apply roundPos_comp].
  assert (Hx : (0 < - x)%Q) by lra.
  assert (He' : (- x == - y)%Q) by (by rewrite He).
  by rewrite (roundPos_comp _ _ Hx He').
Qed.

(** The difference of two whole numbers. *)
Lemma sub_num (a b : Z) :
  sub (Fin (inject_Z a)) (Fin (inject_Z b)) = round64 (inject_Z (a - b)).
Proof.
  unfold sub, negate, add. apply round64_comp.
  rewrite Qred_correct. unfold Z.sub. rewrite inject_Z_plus, inject_Z_opp. reflexivity.
Qed.

Lemma round64_positive (n : Z) : lt (Fin 0) (round64 (inject_Z n)) = true ↔ 0 < n.
Proof.
  split.
  - intros Hlt. destruct (decide (0 < n)) as [|Hn]; [done|]. exfalso.
    assert (Hle : (inject_Z n <= 0)%Q) by (change 0%Q with (inject_Z 0); rewrite <- Zle_Qle; lia).
    pose proof (round64_mono _ _ Hle) as Hm. change (round64 0) with (Fin 0) in Hm.
    destruct (round64 (inject_Z n)) as [|v| |]; simpl in *; try done.
    apply negb_true_iff, not_true_iff_false in Hlt. apply Hlt. by apply Qle_bool_iff.
  - intros Hn. assert (Hle : (1 <= inject_Z n)%Q) by (change 1%Q with (inject_Z 1); rewrite <- Zle_Qle; lia).
    pose proof (round64_mono _ _ Hle) as Hm.
    replace (round64 1) with (Fin 1) in Hm by (vm_compute; reflexivity).
    destruct (round64 (inject_Z n)) as [|v| |]; simpl in *; try done.
    apply negb_true_iff, not_true_iff_false. rewrite Qle_bool_iff. lra.
Qed.



End DoubleProofs.

(** ** The pager *)

Section PagerProofs.
Import Pager.

#[local] Instance keyLe_trans k : Transitive (keyLe k).
Proof. intros a b c. unfold keyLe. lia. Qed.

#[local] Instance keyLe_total k : Total (keyLe k).
Proof. intros a b. unfold keyLe. lia. Qed.

Lemma pageLoop_total be k fuel :
  ∀ allRows lastKey safety log,
    0 ≤ safety → (Z.to_nat (101 - safety) ≤ fuel)%nat → (0 < fuel)%nat →
    is_Some (pageLoop fuel be k allRows lastKey safety log).
Proof.
  induction fuel as [|fuel IH]; intros allRows lastKey safety log Hs Hf Hpos; [lia|].
  simpl. destruct (run be _) as [|[batch|]]; eauto.
  destruct (last batch); eauto.
  destruct (Z.ltb_spec 100 (safety + 1)); eauto.
  apply IH; lia.
Qed.

Lemma ceilDiv_0 p : (0 < p)%nat → ceilDiv 0 p = 0%nat.
Proof. intros Hp. unfold ceilDiv. apply Nat.div_small. lia. Qed.

Lemma ceilDiv_step n p :
  (0 < p)%nat → (0 < n)%nat → ceilDiv n p = S (ceilDiv (n - p) p).
Proof.
  intros Hp Hn. unfold ceilDiv.
  destruct (Nat.le_gt_cases p n) as [Hle|Hlt].
  - replace (n + p - 1)%nat with ((n - p + p - 1) + 1 * p)%nat by lia.
    rewrite Nat.div_add by lia. by rewrite Nat.add_1_r.
  - replace (n - p)%nat with 0%nat by lia.
    rewrite (Nat.div_small (0 + p - 1)) by lia.
    replace (n + p - 1)%nat with ((n - 1) + 1 * p)%nat by lia.
    rewrite Nat.div_add by lia. by rewrite Nat.div_small by lia.
Qed.

Lemma ceilDiv_le n m p : (0 < p)%nat → (n ≤ m * p)%nat → (ceilDiv n p ≤ m)%nat.
Proof.
  intros Hp Hn. unfold ceilDiv.
  apply Nat.lt_succ_r, Nat.Div0.div_lt_upper_bound. nia.
Qed.

Lemma sorted_strict k (l : list Row) :
  StronglySorted (keyLe k) l → NoDup (keyOf k <$> l) → StronglySorted (keyLt k) l.
Proof.
  induction 1 as [|x l Hs IH Hall]; intros Hnd; [constructor|].
  rewrite fmap_cons in Hnd. apply NoDup_cons in Hnd as [Hx Hnd].
  constructor; [by apply IH|].
  rewrite Forall_forall in Hall |- *. intros y Hy.
  specialize (Hall y Hy). unfold keyLe, keyLt in *.
  assert (keyOf k x ≠ keyOf k y); [|lia].
  intros Heq. apply Hx. rewrite Heq. by apply list_elem_of_fmap_2.
Qed.

Lemma last_is_max k (pre : list Row) r x :
  StronglySorted (keyLt k) pre → last pre = Some r → x ∈ pre → keyOf k x ≤ keyOf k r.
Proof.
  intros Hs Hl Hx. apply last_Some in Hl as [pre' ->].
  apply elem_of_app in Hx as [Hx|Hx].
  - pose proof (StronglySorted_app_1_elem_of _ _ _ x r Hs Hx) as H.
    unfold keyLt in H. assert (r ∈ [r]) by set_solver. specialize (H H0). lia.
  - apply list_elem_of_singleton in Hx as ->. lia.
Qed.

Lemma filter_above k (pre suf : list Row) :
  StronglySorted (keyLt k) (pre ++ suf) →
  filter (aboveBound k (keyOf k <$> last pre)) (pre ++ suf) = suf.
Proof.
  intros Hs. rewrite filter_app.
  assert (filter (aboveBound k (keyOf k <$> last pre)) pre = []) as ->.
  { apply elem_of_nil_inv. intros x [Hp Hx]%list_elem_of_filter.
    destruct (last pre) as [r|] eqn:Hl.
    - simpl in Hp.
      pose proof (last_is_max k pre r x (StronglySorted_app_1_l _ _ _ Hs) Hl Hx). lia.
    - apply last_None in Hl. subst. set_solver. }
  simpl. induction suf as [|y suf IH]; [done|].
  rewrite filter_cons_True.
  - f_equal. apply IH.
    apply StronglySorted_app in Hs as (Hc & H1 & H2).
    apply StronglySorted_app; split_and!; [|done|by inversion H2].
    intros a b Ha Hb. apply Hc; set_solver.
  - destruct (last pre) as [r|] eqn:Hl; [|done]. simpl.
    apply last_Some in Hl as [pre' ->].
    eapply (StronglySorted_app_1_elem_of _ _ _ r y Hs); set_solver.
Qed.

Lemma select_suffix table k (pre suf : list Row) :
  merge_sort (keyLe k) table = pre ++ suf →
  StronglySorted (keyLt k) (pre ++ suf) →
  select table {| q_order := k; q_gt := keyOf k <$> last pre; q_limit := PAGE_SIZE |}
    = take PAGE_SIZE suf.
Proof.
  intros Hm Hs. unfold select. cbn [q_order q_gt q_limit].
  by rewrite Hm, filter_above.
Qed.

Lemma pageLoop_table hasId table k fuel :
  ∀ pre suf rows safety log,
    merge_sort (keyLe k) table = pre ++ suf →
    StronglySorted (keyLt k) (pre ++ suf) →
    0 ≤ safety →
    Z.of_nat (length suf) ≤ (100 - safety) * Z.of_nat PAGE_SIZE →
    (ceilDiv (length suf) PAGE_SIZE < fuel)%nat →
    ∃ qs qlast,
      pageLoop fuel (tableBackend hasId table) k rows (keyOf k <$> last pre) safety log
        = Some (rows ++ (toDataPoint <$> suf), log ++ qs ++ [qlast]) ∧
      length qs = ceilDiv (length suf) PAGE_SIZE ∧
      Forall (λ q, select table q ≠ []) qs ∧
      select table qlast = [].
Proof.
  assert (HP : (0 < PAGE_SIZE)%nat) by (unfold PAGE_SIZE; lia).
  assert (HPz : Z.of_nat PAGE_SIZE = 1000) by reflexivity.
  induction fuel as [|fuel IH]; intros pre suf rows safety log Hm Hs H0 Hlen Hfuel; [lia|].
  rewrite HPz in Hlen.
  cbn [pageLoop tableBackend run].
  rewrite (select_suffix _ _ _ _ Hm Hs).
  destruct (decide (suf = [])) as [->|Hne].
  - rewrite take_nil. cbn [last]. exists [], (mkQuery k (keyOf k <$> last pre) PAGE_SIZE).
    rewrite fmap_nil, app_nil_r. split_and!; [done| |constructor|].
    + by rewrite ceilDiv_0.
    + by rewrite (select_suffix _ _ _ _ Hm Hs), take_nil.
  - assert (Hlast : is_Some (last (take PAGE_SIZE suf))).
    { destruct suf as [|x suf']; [done|]. destruct PAGE_SIZE eqn:EP; [lia|].
      rewrite last_is_Some. done. }
    destruct Hlast as [r Hr]. rewrite Hr.
    assert (0 < Z.of_nat (length suf)) by (destruct suf; [done|simpl; lia]).
    destruct (Z.ltb_spec 100 (safety + 1)) as [Hbad|Hok]; [lia|].
    destruct (IH (pre ++ take PAGE_SIZE suf) (drop PAGE_SIZE suf)
                (rows ++ (toDataPoint <$> take PAGE_SIZE suf)) (safety + 1)
                (log ++ [mkQuery k (keyOf k <$> last pre) PAGE_SIZE]))
      as (qs & qlast & Hrun & Hqs & Hall & Hend).
    + by rewrite <- app_assoc, take_drop.
    + by rewrite <- app_assoc, take_drop.
    + lia.
    + rewrite length_drop, HPz. lia.
    + rewrite length_drop. rewrite (ceilDiv_step (length suf) PAGE_SIZE) in Hfuel by lia. lia.
    + assert (last (pre ++ take PAGE_SIZE suf) = Some r) as Hl.
      { apply last_Some in Hr as [b ->]. by rewrite app_assoc, last_snoc. }
      rewrite Hl in Hrun. cbn [fmap option_fmap option_map] in Hrun.
      exists (mkQuery k (keyOf k <$> last pre) PAGE_SIZE :: qs), qlast.
      split_and!.
      * rewrite Hrun. rewrite <- !app_assoc, <- fmap_app, take_drop. done.
      * rewrite (ceilDiv_step (length suf) PAGE_SIZE) by lia.
        rewrite length_drop in Hqs. simpl. by rewrite Hqs.
      * constructor; [|done].
        rewrite (select_suffix _ _ _ _ Hm Hs). intros Heq. by rewrite Heq in Hr.
      * done.
Qed.

Lemma merge_sort_strict k (table : list Row) :
  NoDup (keyOf k <$> table) → StronglySorted (keyLt k) (merge_sort (keyLe k) table).
Proof.
  intros Hnd. apply sorted_strict; [apply StronglySorted_merge_sort; apply _|].
  by rewrite (merge_sort_Permutation (keyLe k) table).
Qed.

(** C1, as amended. A table with distinct keys and at most 100 pages of
    rows is fetched whole: the rows come back in ascending key order, each
    once, after [ceil(N / PAGE_SIZE) + 1] page requests. Every request but
    the last returns rows, also when it returns fewer than a page; only
    the request that returns no row ends the loop. *)
Theorem fetchAllSamples_table (hasId : bool) (table : list Row) :
  NoDup (keyOf (keyFor hasId) <$> table) →
  (length table ≤ 100 * PAGE_SIZE)%nat →
  ∃ sorted qs qlast,
    fetchAllSamples (tableBackend hasId table)
      = Some (toDataPoint <$> sorted, qs ++ [qlast]) ∧
    length (qs ++ [qlast]) = (ceilDiv (length table) PAGE_SIZE + 1)%nat ∧
    Forall (λ q, select table q ≠ []) qs ∧
    select table qlast = [] ∧
    sorted ≡ₚ table ∧
    StronglySorted (keyLt (keyFor hasId)) sorted ∧
    length (toDataPoint <$> sorted) = length table.
Proof.
  intros Hnd Hlen.
  set (k := keyFor hasId) in *.
  pose proof (merge_sort_strict k table Hnd) as Hs.
  pose proof (merge_sort_Permutation (keyLe k) table) as Hperm.
  assert (HPz : Z.of_nat PAGE_SIZE = 1000) by reflexivity.
  destruct (pageLoop_table hasId table k 101 [] (merge_sort (keyLe k) table) [] 0 [])
    as (qs & qlast & Hrun & Hqs & Hall & Hend); try done.
  - rewrite Hperm. lia.
  - rewrite Hperm. apply Nat.le_lt_trans with 100%nat; [|lia].
    apply ceilDiv_le; [unfold PAGE_SIZE|]; lia.
  - exists (merge_sort (keyLe k) table), qs, qlast.
    split_and!; try done.
    + rewrite length_app, Hqs, Hperm. done.
    + by rewrite length_fmap, Hperm.
Qed.

Lemma fetchAllSamples_table_witness :
  ∃ sorted qs qlast,
    fetchAllSamples (tableBackend true three_rows)
      = Some (toDataPoint <$> sorted, qs ++ [qlast]) ∧
    length (qs ++ [qlast]) = (ceilDiv (length three_rows) PAGE_SIZE + 1)%nat ∧
    Forall (λ q, select three_rows q ≠ []) qs ∧
    select three_rows qlast = [] ∧
    sorted ≡ₚ three_rows ∧
    StronglySorted (keyLt (keyFor true)) sorted ∧
    length (toDataPoint <$> sorted) = length three_rows.
Proof.
  apply (fetchAllSamples_table true three_rows).
  - apply (bool_decide_unpack _). vm_compute. reflexivity.
  - unfold PAGE_SIZE, three_rows. cbn [length]. lia.
Defined.

(** C1, as stated, fails on a one-row table: the first page is short, and
    the pager still asks for a second one, so it issues two requests where
    [ceil(1 / 1000)] is one. *)
Lemma fetchAllSamples_one_row_two_requests :
  ∃ rows q1 q2,
    fetchAllSamples (tableBackend true one_row) = Some (rows, [q1; q2]) ∧
    (length (select one_row q1) < PAGE_SIZE)%nat ∧
    length [q1; q2] ≠ ceilDiv (length one_row) PAGE_SIZE.
Proof.
  eexists _, _, _. split_and!.
  - vm_compute. reflexivity.
  - vm_compute. lia.
  - vm_compute. lia.
Qed.

(** Why the keys must be distinct: under the timestamp key, a row whose
    timestamp equals the one that ends a page is never fetched. *)
Lemma fetchAllSamples_tied_timestamps :
  length tied_rows = 1001%nat ∧
  (length ∘ fst <$> fetchAllSamples (tableBackend false tied_rows)) = Some 1000%nat ∧
  (length ∘ snd <$> fetchAllSamples (tableBackend false tied_rows)) = Some 2%nat.
Proof. split_and!; vm_compute; reflexivity. Qed.

(** The safety counter bounds the loop: 101 rounds of fuel are never
    used up, whatever the backend answers. *)
Lemma fetchAllSamples_total (be : Backend) : is_Some (fetchAllSamples be).
Proof. apply pageLoop_total; lia. Qed.

End PagerProofs.

(** ** The interpolator *)

Section InterpolatorProofs.
Import Stats.

Lemma sorted_lookup {A} (R : relation A) (l : list A) (i j : nat) a b :
  StronglySorted R l → l !! i = Some a → l !! j = Some b → (i < j)%nat → R a b.
Proof.
  intros Hs. revert i j. induction Hs as [|x l Hs IH Hall]; intros i j Hi Hj Hlt; [done|].
  destruct j as [|j]; [lia|]. destruct i as [|i]; simpl in *.
  - simplify_eq. rewrite Forall_forall in Hall. apply Hall.
    by eapply list_elem_of_lookup_2.
  - eapply IH; eauto. lia.
Qed.

Lemma ascending_lt points i j a b :
  ascending points → points !! i = Some a → points !! j = Some b →
  (i < j)%nat → timestamp a < timestamp b.
Proof. intros Hs. apply (sorted_lookup (λ a b, timestamp a < timestamp b) _ _ _ _ _ Hs). Qed.

Lemma ascending_index_lt points i j a b :
  ascending points → points !! i = Some a → points !! j = Some b →
  timestamp a < timestamp b → (i < j)%nat.
Proof.
  intros Hs Hi Hj Hlt. destruct (Nat.lt_trichotomy i j) as [|[->|Hgt]]; [done| |].
  - simplify_eq. lia.
  - pose proof (ascending_lt _ _ _ _ _ Hs Hj Hi Hgt). lia.
Qed.

Lemma ascending_index_le points i j a b :
  ascending points → points !! i = Some a → points !! j = Some b →
  timestamp a ≤ timestamp b → (i ≤ j)%nat.
Proof.
  intros Hs Hi Hj Hle. destruct (Nat.le_gt_cases i j) as [|Hgt]; [done|].
  pose proof (ascending_lt _ _ _ _ _ Hs Hj Hi Hgt). lia.
Qed.

Lemma nondecreasing_le points i j a b :
  nondecreasing points → points !! i = Some a → points !! j = Some b →
  (i ≤ j)%nat → count a ≤ count b.
Proof.
  intros Hs Hi Hj Hle. destruct (decide (i = j)) as [->|Hne].
  - simplify_eq. lia.
  - apply (sorted_lookup (λ a b, count a ≤ count b) _ i j _ _ Hs Hi Hj). lia.
Qed.

Lemma nth_point_Ok points (i : nat) p :
  points !! i = Some p → nth_point points (Z.of_nat i) = Ok p.
Proof.
  intros Hi. unfold nth_point. destruct (Z.ltb_spec (Z.of_nat i) 0); [lia|].
  by rewrite Nat2Z.id, Hi.
Qed.

Lemma bsearch_spec points t :
  ascending points →
  ∀ fuel lo hi,
    0 ≤ lo → hi < len points → lo ≤ hi + 1 →
    (Z.to_nat (hi - lo + 1) ≤ fuel)%nat →
    brackets points t lo hi →
    (∃ (i : nat) p, bsearch fuel points t lo hi = Ok (Exact (count p)) ∧
                    points !! i = Some p ∧ timestamp p = t) ∨
    (∃ r, bsearch fuel points t lo hi = Ok (Gap r) ∧
          lo ≤ r ≤ hi + 1 ∧ brackets points t r (r - 1)).
Proof.
  intros Hs. induction fuel as [|fuel IH]; intros lo hi Hlo Hhi Hle Hfuel Hb.
  - right. exists lo. simpl. destruct (Z.leb_spec lo hi); [lia|].
    assert (hi = lo - 1) as -> by lia. split_and!; [done|lia|lia|done].
  - simpl. destruct (Z.leb_spec lo hi) as [Hin|Hout].
    + set (mid := (lo + hi) / 2).
      assert (lo ≤ mid ≤ hi) as Hmid.
      { unfold mid. split; [apply Z.div_le_lower_bound|apply Z.div_le_upper_bound]; lia. }
      assert (is_Some (points !! Z.to_nat mid)) as [p Hp].
      { apply lookup_lt_is_Some. unfold len in Hhi. lia. }
      assert (nth_point points mid = Ok p) as ->.
      { rewrite <- (Z2Nat.id mid) by lia. by apply nth_point_Ok. }
      cbn [bind].
      destruct (Z.eqb_spec (timestamp p) t) as [Heq|Hne].
      { left. exists (Z.to_nat mid), p. done. }
      destruct (Z.ltb_spec (timestamp p) t) as [Hlt|Hge].
      * destruct (IH (mid + 1) hi) as [Hex|(r & Hrun & Hr1 & Hr2)]; try lia; [|by left|].
        { split; [|apply Hb]. intros i q Hq Hi.
          destruct (decide (i = Z.to_nat mid)) as [->|Hne']; [by simplify_eq|].
          assert (i < Z.to_nat mid)%nat by lia.
          pose proof (ascending_lt _ _ _ _ _ Hs Hq Hp). lia. }
        right. exists r. split_and!; [done|lia|lia|done].
      * destruct (IH lo (mid - 1)) as [Hex|(r & Hrun & Hr1 & Hr2)]; try lia; [|by left|].
        { split; [apply Hb|]. intros i q Hq Hi.
          destruct (decide (i = Z.to_nat mid)) as [->|Hne']; [simplify_eq; lia|].
          assert (Z.to_nat mid < i)%nat by lia.
          pose proof (ascending_lt _ _ _ _ _ Hs Hp Hq). lia. }
        right. exists r. split_and!; [done|lia|lia|done].
    + right. exists lo. assert (hi = lo - 1) as -> by lia.
      split_and!; [done|lia|lia|done].
Qed.

Lemma last_lookup_index (points : list DataPoint) pn :
  last points = Some pn → points !! (length points - 1)%nat = Some pn.
Proof.
  rewrite last_lookup. by replace (pred (length points)) with (length points - 1)%nat by lia.
Qed.

(** The search as [interpCount] starts it, for a [t] strictly inside the
    series: an exact hit, or the gap between two neighbours around [t]. *)
Lemma bsearch_top points t p0 pn :
  ascending points →
  points !! 0%nat = Some p0 → last points = Some pn →
  timestamp p0 < t < timestamp pn →
  (∃ (i : nat) p,
      bsearch (length points) points t 0 (len points - 1) = Ok (Exact (count p)) ∧
      points !! i = Some p ∧ timestamp p = t) ∨
  (∃ (i : nat) pL pR,
      bsearch (length points) points t 0 (len points - 1) = Ok (Gap (Z.of_nat (S i))) ∧
      points !! i = Some pL ∧ points !! S i = Some pR ∧
      timestamp pL < t < timestamp pR).
Proof.
  intros Hs H0 Hn Ht. apply last_lookup_index in Hn.
  apply lookup_lt_Some in H0 as Hlen. unfold len.
  destruct (bsearch_spec points t Hs (length points) 0 (Z.of_nat (length points) - 1))
    as [(i & p & Hrun & Hp & Hpt)|(r & Hrun & Hr & Hbl & Hbr)]; try (unfold len; lia).
  { split; intros i p Hp Hi; [lia|]. apply lookup_lt_Some in Hp. lia. }
  { left. by exists i, p. }
  right.
  assert (1 ≤ r).
  { destruct (Z.le_gt_cases 1 r); [done|]. pose proof (Hbr 0%nat p0 H0). lia. }
  assert (r ≤ Z.of_nat (length points - 1)).
  { destruct (Z.le_gt_cases r (Z.of_nat (length points - 1))); [done|].
    pose proof (Hbl _ pn Hn). lia. }
  assert (is_Some (points !! Z.to_nat (r - 1))) as [pL HL] by (apply lookup_lt_is_Some; lia).
  assert (is_Some (points !! S (Z.to_nat (r - 1)))) as [pR HR] by (apply lookup_lt_is_Some; lia).
  pose proof (Hbl _ pL HL). pose proof (Hbr _ pR HR).
  exists (Z.to_nat (r - 1)), pL, pR. split_and!; try done; try lia.
  rewrite Hrun. do 2 f_equal. lia.
Qed.

Lemma interpCount_cases points t :
  points ≠ [] → ascending points →
  ∃ v, interpCount points t = Ok v ∧ valueAt points t v.
Proof.
  intros Hne Hs. unfold interpCount.
  assert (is_Some (points !! 0%nat)) as [p0 H0].
  { apply lookup_lt_is_Some. destruct points; [done|simpl; lia]. }
  assert (nth_point points 0 = Ok p0) as -> by exact (nth_point_Ok points 0 p0 H0).
  cbn [bind].
  destruct (Z.leb_spec t (timestamp p0)) as [Hle|Hgt].
  { eexists. split; [done|]. by eapply ClampFirst. }
  assert (is_Some (last points)) as [pn Hn] by (by rewrite last_is_Some).
  assert (nth_point points (len points - 1) = Ok pn) as ->.
  { rewrite <- (nth_point_Ok _ _ _ (last_lookup_index _ _ Hn)). f_equal.
    apply lookup_lt_Some in H0. unfold len. lia. }
  cbn [bind].
  destruct (Z.leb_spec (timestamp pn) t) as [Hle|Hlt].
  { eexists. split; [done|]. by eapply ClampLast. }
  destruct (bsearch_top points t p0 pn Hs H0 Hn)
    as [(i & p & -> & Hp & Ht)|(i & pL & pR & -> & HL & HR & Ht)]; [lia| |].
  { cbn [bind]. eexists. split; [done|]. by eapply Hit. }
  cbn [bind]. cbv zeta.
  assert (nth_point points (Z.of_nat (S i) - 1) = Ok pL) as ->.
  { rewrite <- (nth_point_Ok _ _ _ HL). f_equal. lia. }
  rewrite (nth_point_Ok _ _ _ HR). cbn [bind].
  destruct (Z.eqb_spec (timestamp pR - timestamp pL) 0); [lia|].
  eexists. split; [done|]. by eapply Between.
Qed.

(** For every two lookups in the context, the order of the timestamps
    gives the order of the indices. *)
Ltac index_facts Hs :=
  repeat match goal with
  | H : last _ = Some _ |- _ => apply last_lookup_index in H
  end;
  repeat match goal with
  | H1 : ?pts !! ?a = Some ?x, H2 : ?pts !! ?b = Some ?y |- _ =>
      lazymatch goal with
      | _ : timestamp x ≤ timestamp y → (a ≤ b)%nat |- _ => fail
      | _ => pose proof (ascending_index_le pts a b x y Hs H1 H2);
             pose proof (ascending_index_lt pts a b x y Hs H1 H2)
      end
  end;
  repeat match goal with
  | H : ?pts !! ?a = Some ?x |- _ =>
      lazymatch goal with
      | _ : (a < length pts)%nat |- _ => fail
      | _ => pose proof (lookup_lt_Some pts a x H)
      end
  end.

Ltac same_index :=
  match goal with
  | H1 : ?pts !! ?a = Some ?x, H2 : ?pts !! ?b = Some ?y |- _ =>
      lazymatch x with y => fail | _ => idtac end;
      assert (x = y)
        by (first [congruence
                  |let E := fresh in assert (a = b) as E by lia; rewrite E in H1; congruence]);
      subst
  end.

(** The value at [t] is determined. *)
Lemma valueAt_fun points t v v' :
  ascending points → valueAt points t v → valueAt points t v' → v = v'.
Proof.
  intros Hs H1 H2.
  destruct H1, H2; index_facts Hs;
    try (exfalso; lia); repeat same_index; done.
Qed.

Lemma interpCount_is points t v :
  points ≠ [] → ascending points → valueAt points t v → interpCount points t = Ok v.
Proof.
  intros Hne Hs Hv. destruct (interpCount_cases points t Hne Hs) as (v' & -> & Hv').
  f_equal. by eapply valueAt_fun.
Qed.

Lemma frac_mono (n1 n2 d : Z) :
  0 < d → n1 ≤ n2 → (inject_Z n1 / inject_Z d <= inject_Z n2 / inject_Z d)%Q.
Proof.
  intros Hd Hn. unfold Qdiv. apply Qmult_le_compat_r; [by rewrite <- Zle_Qle|].
  apply Qinv_le_0_compat. change 0%Q with (inject_Z 0). rewrite <- Zle_Qle. lia.
Qed.

Lemma frac_unit (n d : Z) :
  0 < d → 0 ≤ n ≤ d → (0 <= inject_Z n / inject_Z d <= 1)%Q.
Proof.
  intros Hd [H0 H1]. split.
  - apply Qle_trans with (inject_Z 0 / inject_Z d)%Q; [|by apply frac_mono].
    unfold Qdiv. rewrite Qmult_0_l. apply Qle_refl.
  - apply Qle_trans with (inject_Z d / inject_Z d)%Q; [by apply frac_mono|].
    unfold Qdiv. rewrite Qmult_inv_r; [apply Qle_refl|].
    change 0%Q with (inject_Z 0). rewrite inject_Z_injective. lia.
Qed.

Lemma lerp_mono pL pR t1 t2 :
  timestamp pL < timestamp pR → count pL ≤ count pR → t1 ≤ t2 →
  (lerp pL pR t1 <= lerp pL pR t2)%Q.
Proof.
  intros Ht Hc Hle. unfold lerp.
  apply Qplus_le_r. rewrite !(Qmult_comm (inject_Z (count pR - count pL))).
  apply Qmult_le_compat_r.
  - apply frac_mono; lia.
  - change 0%Q with (inject_Z 0). rewrite <- Zle_Qle. lia.
Qed.

Lemma lerp_left pL pR : (lerp pL pR (timestamp pL) == inject_Z (count pL))%Q.
Proof.
  unfold lerp. replace (timestamp pL - timestamp pL) with 0 by lia.
  unfold Qdiv. change (inject_Z 0) with 0%Q.
  by rewrite Qmult_0_l, Qmult_0_r, Qplus_0_r.
Qed.

Lemma lerp_right pL pR :
  timestamp pL < timestamp pR → (lerp pL pR (timestamp pR) == inject_Z (count pR))%Q.
Proof.
  intros Ht. unfold lerp, Qdiv. rewrite Qmult_inv_r.
  - rewrite Qmult_1_r, <- inject_Z_plus.
    by replace (count pL + (count pR - count pL)) with (count pR) by lia.
  - change 0%Q with (inject_Z 0). rewrite inject_Z_injective. lia.
Qed.

Lemma lerp_bounds pL pR t :
  timestamp pL < timestamp pR → count pL ≤ count pR →
  timestamp pL ≤ t ≤ timestamp pR →
  (inject_Z (count pL) <= lerp pL pR t <= inject_Z (count pR))%Q.
Proof.
  intros Ht Hc [H1 H2]. split.
  - rewrite <- (lerp_left pL pR). by apply lerp_mono.
  - rewrite <- (lerp_right pL pR) by done. by apply lerp_mono.
Qed.

(** Every sample at or before [t] is a lower bound of the value at [t],
    every sample at or after [t] an upper bound. *)
Lemma valueAt_bounds points t v :
  ascending points → nondecreasing points → valueAt points t v →
  (∀ (i : nat) p, points !! i = Some p → timestamp p ≤ t → (inject_Z (count p) <= v)%Q) ∧
  (∀ (i : nat) p, points !! i = Some p → t ≤ timestamp p → (v <= inject_Z (count p))%Q).
Proof.
  intros Hs Hc Hv.
  destruct Hv as [p0 H0 Ht|pn Hn Ht|j q Hq Ht|j pL pR HL HR Ht].
  - split; intros i p Hp Hle; rewrite <- Zle_Qle.
    + assert (i ≤ 0)%nat by (eapply (ascending_index_le points i 0); eauto; lia).
      eapply nondecreasing_le; eauto.
    + eapply nondecreasing_le; eauto. lia.
  - apply last_lookup_index in Hn.
    split; intros i p Hp Hle; rewrite <- Zle_Qle.
    + eapply nondecreasing_le; eauto. apply lookup_lt_Some in Hp. lia.
    + assert (length points - 1 ≤ i)%nat
        by (eapply (ascending_index_le points _ i); eauto; lia).
      eapply nondecreasing_le; eauto.
  - split; intros i p Hp Hle; rewrite <- Zle_Qle.
    + assert (i ≤ j)%nat by (eapply (ascending_index_le points i j); eauto; lia).
      eapply nondecreasing_le; eauto.
    + assert (j ≤ i)%nat by (eapply (ascending_index_le points j i); eauto; lia).
      eapply nondecreasing_le; eauto.
  - assert (count pL ≤ count pR) by (eapply (nondecreasing_le points j (S j)); eauto).
    destruct (lerp_bounds pL pR t) as [Hlo Hhi]; [lia|done|lia|].
    split; intros i p Hp Hle.
    + assert (i < S j)%nat by (eapply (ascending_index_lt points i (S j)); eauto; lia).
      eapply Qle_trans; [|exact Hlo]. rewrite <- Zle_Qle.
      eapply (nondecreasing_le points i j); eauto. lia.
    + assert (j < i)%nat by (eapply (ascending_index_lt points j i); eauto; lia).
      eapply Qle_trans; [exact Hhi|]. rewrite <- Zle_Qle.
      eapply (nondecreasing_le points (S j) i); eauto.
Qed.

(** Strictly between two neighbours the value is the interpolation. *)
Lemma valueAt_between points t v (i : nat) pL pR :
  ascending points → valueAt points t v →
  points !! i = Some pL → points !! S i = Some pR →
  timestamp pL < t < timestamp pR →
  v = lerp pL pR t.
Proof.
  intros Hs Hv HL HR Ht. eapply valueAt_fun; [done..|]. by eapply Between.
Qed.

(** At a sample's own timestamp the value is that sample's count. *)
Lemma interpCount_exact points (i : nat) p :
  ascending points → points !! i = Some p →
  interpCount points (timestamp p) = Ok (inject_Z (count p)).
Proof.
  intros Hs Hp. apply interpCount_is; [by intros ->|done|]. by eapply Hit.
Qed.

(** At or before the first timestamp, and at or after the last, the value
    is the boundary sample's count. *)
Lemma interpCount_clamp points p0 pn t :
  ascending points → head points = Some p0 → last points = Some pn →
  (t ≤ timestamp p0 → interpCount points t = Ok (inject_Z (count p0))) ∧
  (timestamp pn ≤ t → interpCount points t = Ok (inject_Z (count pn))).
Proof.
  intros Hs H0 Hn. rewrite head_lookup in H0.
  split; intros Ht; (apply interpCount_is; [by intros ->|done|]).
  - by eapply ClampFirst.
  - by eapply ClampLast.
Qed.

Lemma bsearch_fuel points t fuel :
  ∀ lo hi s fuel',
    bsearch fuel points t lo hi = Ok s → (fuel ≤ fuel')%nat →
    bsearch fuel' points t lo hi = Ok s.
Proof.
  induction fuel as [|fuel IH]; intros lo hi s fuel' Hrun Hle.
  - simpl in Hrun. destruct fuel'; simpl;
      destruct (lo <=? hi); try done.
  - destruct fuel' as [|fuel']; [lia|]. simpl in *.
    destruct (lo <=? hi); [|done].
    destruct (nth_point points ((lo + hi) / 2)) as [p|]; [|done]. cbn [bind] in *.
    destruct (timestamp p =? t); [done|].
    destruct (timestamp p <? t); apply IH; auto; lia.
Qed.

(** C5. On a series with strictly increasing timestamps and
    non-decreasing counts, [interpCount] is non-decreasing in the query
    time, the clamped regions included. *)
Theorem interpCount_monotone points t1 t2 :
  points ≠ [] → ascending points → nondecreasing points → t1 ≤ t2 →
  ∃ v1 v2,
    interpCount points t1 = Ok v1 ∧ interpCount points t2 = Ok v2 ∧ (v1 <= v2)%Q.
Proof.
  intros Hne Hs Hc Hle.
  destruct (interpCount_cases points t1 Hne Hs) as (v1 & Hrun1 & Hv1).
  destruct (interpCount_cases points t2 Hne Hs) as (v2 & Hrun2 & Hv2).
  exists v1, v2. split_and!; [done..|].
  destruct (valueAt_bounds points t2 v2 Hs Hc Hv2) as [Hlow2 _].
  destruct (valueAt_bounds points t1 v1 Hs Hc Hv1) as [_ Hupp1].
  destruct Hv1 as [p0 H0 Ht|pn Hn Ht|j q Hq Ht|j pL pR HL HR Ht].
  - destruct (Z.le_gt_cases (timestamp p0) t2) as [Hin|Hout].
    + by eapply Hlow2.
    + destruct Hv2 as [p0' H0' _| pn Hn Ht2|i q Hq Ht2|i qL qR HL HR Ht2].
      * simplify_eq. apply Qle_refl.
      * apply last_lookup_index in Hn.
        assert (length points - 1 < 0)%nat
          by (eapply (ascending_index_lt points _ 0); eauto; lia). lia.
      * assert (i < 0)%nat by (eapply (ascending_index_lt points i 0); eauto; lia). lia.
      * assert (i < 0)%nat by (eapply (ascending_index_lt points i 0); eauto; lia). lia.
  - apply last_lookup_index in Hn. eapply Hlow2; eauto. lia.
  - eapply Hlow2; eauto. lia.
  - destruct (Z.le_gt_cases (timestamp pR) t2) as [Hin|Hout].
    + eapply Qle_trans; [eapply (Hupp1 _ pR); eauto; lia|]. by eapply Hlow2.
    + rewrite (valueAt_between points t2 v2 j pL pR) by (done || lia).
      apply lerp_mono; [lia| |done].
      by eapply (nondecreasing_le points j (S j)); eauto.
Qed.

(** C9. On a non-empty series with strictly increasing timestamps the
    search of [interpCount] ends within one round per point, the call
    returns a value, and where the search leaves a gap the neighbours
    [left = right - 1] and [right] are both inside the array and their
    timestamps differ by a positive amount. *)
Theorem interpCount_safe points t :
  points ≠ [] → ascending points →
  (∃ s, ∀ fuel, (length points ≤ fuel)%nat →
        bsearch fuel points t 0 (len points - 1) = Ok s) ∧
  (∃ v, interpCount points t = Ok v) ∧
  (∀ p0 pn right,
      points !! 0%nat = Some p0 → last points = Some pn →
      timestamp p0 < t < timestamp pn →
      bsearch (length points) points t 0 (len points - 1) = Ok (Gap right) →
      let left := right - 1 in
      0 ≤ left ∧ left < right ∧ right ≤ len points - 1 ∧
      ∃ pL pR, nth_point points left = Ok pL ∧ nth_point points right = Ok pR ∧
               0 < timestamp pR - timestamp pL).
Proof.
  intros Hne Hs. split_and!.
  - destruct (bsearch_spec points t Hs (length points) 0 (len points - 1))
      as [(i & p & Hrun & _)|(r & Hrun & _)]; try (unfold len; lia).
    { split; intros i p Hp Hi; [lia|]. apply lookup_lt_Some in Hp. unfold len in Hi. lia. }
    + eexists. intros fuel Hf. by eapply bsearch_fuel.
    + eexists. intros fuel Hf. by eapply bsearch_fuel.
  - destruct (interpCount_cases points t Hne Hs) as (v & Hrun & _). by exists v.
  - intros p0 pn right H0 Hn Ht Hrun left. subst left.
    destruct (bsearch_top points t p0 pn Hs H0 Hn Ht)
      as [(i & p & Hrun' & _)|(i & pL & pR & Hrun' & HL & HR & Hlr)]; [congruence|].
    rewrite Hrun in Hrun'. injection Hrun' as ->.
    apply lookup_lt_Some in HR as Hlen. unfold len.
    split_and!; try lia.
    exists pL, pR. split_and!; [|by apply nth_point_Ok|lia].
    rewrite <- (nth_point_Ok _ _ _ HL). f_equal. lia.
Qed.
End InterpolatorProofs.

(** ** The statistics on the three-sample series, and the estimate *)

Section ScenarioProofs.
Import Stats.

Lemma scenario_ascending t0 : ascending (scenario t0).
Proof. unfold ascending, scenario. repeat constructor; simpl; lia. Qed.

Lemma scenario_nondecreasing t0 : nondecreasing (scenario t0).
Proof. unfold nondecreasing, scenario. repeat constructor; simpl; lia. Qed.

Lemma scenario_before t0 t : t ≤ t0 → interpCount (scenario t0) t = Ok 0%Q.
Proof.
  intros H. apply interpCount_is; [done|apply scenario_ascending|].
  by apply (ClampFirst _ _ (mkPoint t0 0)).
Qed.

Lemma scenario_at_30m t0 t : t = t0 + 30 * 60 * 1000 → interpCount (scenario t0) t = Ok 10%Q.
Proof.
  intros H. apply interpCount_is; [done|apply scenario_ascending|].
  by apply (Hit _ _ 1 (mkPoint (t0 + 30 * 60 * 1000) 10)).
Qed.

Lemma scenario_after t0 t : t0 + 90 * 60 * 1000 ≤ t → interpCount (scenario t0) t = Ok 40%Q.
Proof.
  intros H. apply interpCount_is; [done|apply scenario_ascending|].
  by apply (ClampLast _ _ (mkPoint (t0 + 90 * 60 * 1000) 40)).
Qed.

Lemma scenario_peak t0 : peakHourly (scenario t0) = Ok 30%Q.
Proof.
  unfold peakHourly. change (length (scenario t0) <? 2)%nat with false. cbv iota.
  unfold scenario at 2. cbn [peakScan timestamp].
  rewrite (scenario_before t0 t0), (scenario_before t0 (t0 - oneHourMs)) by (unfold oneHourMs; lia).
  cbn [bind].
  rewrite (scenario_at_30m t0 (t0 + 30 * 60 * 1000)) by lia.
  rewrite (scenario_before t0 (t0 + 30 * 60 * 1000 - oneHourMs)) by (unfold oneHourMs; lia).
  cbn [bind].
  rewrite (scenario_after t0 (t0 + 90 * 60 * 1000)) by lia.
  rewrite (scenario_at_30m t0 (t0 + 90 * 60 * 1000 - oneHourMs)) by (unfold oneHourMs; lia).
  cbn [bind]. vm_compute. reflexivity.
Qed.

(** C2. On the three-sample series the average rate is
    [(40 - 0) / max(1.5, 1e-6) = 40 / 1.5], which is [80/3] and rounds to
    26.67, and the peak over one hour is 30: the window that ends at
    [t0 + 90 min] reads 40 at its right edge and exactly 10 at its left. *)
Theorem scenario_average_and_peak (t0 now : Z) :
  ∃ st,
    computeStats (scenario t0) now = Ok (Some st) ∧
    averagePerHour st
      = avgPerHour (mkPoint t0 0) (mkPoint (t0 + 90 * 60 * 1000) 40) ∧
    (averagePerHour st == inject_Z (40 - 0) / Qmax (3 # 2) (1 # 1000000))%Q ∧
    (averagePerHour st == 40 / (3 # 2))%Q ∧
    (averagePerHour st == 80 # 3)%Q ∧
    (26665 # 1000 <= averagePerHour st < 26675 # 1000)%Q ∧
    interpCount (scenario t0) (t0 + 90 * 60 * 1000) = Ok 40%Q ∧
    interpCount (scenario t0) (t0 + 90 * 60 * 1000 - oneHourMs) = Ok 10%Q ∧
    interpCount (scenario t0) (t0 + 30 * 60 * 1000) = Ok 10%Q ∧
    peakHourly (scenario t0) = Ok 30%Q ∧
    peakSignupsPerHour st = 30%Q.
Proof.
  unfold computeStats. rewrite scenario_peak. cbn [scenario last bind].
  eexists. split; [reflexivity|]. cbn [averagePerHour peakSignupsPerHour].
  assert (Havg : avgPerHour (mkPoint t0 0) (mkPoint (t0 + 90 * 60 * 1000) 40) = (144000000 # 5400000)%Q).
  { unfold avgPerHour. cbn [timestamp count].
    replace (t0 + 90 * 60 * 1000 - t0) with 5400000 by lia. vm_compute. reflexivity. }
  rewrite Havg.
  split; [reflexivity|]. split; [vm_compute; reflexivity|].
  split; [vm_compute; reflexivity|]. split; [vm_compute; reflexivity|].
  split; [split; vm_compute; congruence|].
  split; [by apply scenario_after|].
  split; [apply scenario_at_30m; unfold oneHourMs; lia|].
  split; [by apply scenario_at_30m|].
  split; reflexivity.
Qed.

Lemma dateOf_whole (q : Q) (z : Z) : (q == inject_Z z)%Q → dateOf q = z.
Proof.
  intros Hq. unfold dateOf.
  destruct (Qle_bool 0 q); rewrite Hq; [apply Qfloor_Z|apply Qceiling_Z].
Qed.

Lemma Qltb_lt (a b : Q) : Qltb a b = true ↔ (a < b)%Q.
Proof.
  unfold Qltb. rewrite negb_true_iff, <- not_true_iff_false, Qle_bool_iff.
  split; [apply Qnot_le_lt|apply Qlt_not_le].
Qed.

Lemma interpCount_monotone_witness :
  ∃ v1 v2,
    interpCount (scenario 0) 900000 = Ok v1 ∧
    interpCount (scenario 0) 3600000 = Ok v2 ∧ (v1 <= v2)%Q.
Proof.
  apply (interpCount_monotone (scenario 0) 900000 3600000).
  - discriminate.
  - unfold ascending, scenario. repeat constructor; simpl; lia.
  - unfold nondecreasing, scenario. repeat constructor; simpl; lia.
  - lia.
Defined.

Lemma interpCount_safe_witness :
  (∃ s, ∀ fuel, (length (scenario 0) ≤ fuel)%nat →
        bsearch fuel (scenario 0) 3600000 0 (len (scenario 0) - 1) = Ok s) ∧
  (∃ v, interpCount (scenario 0) 3600000 = Ok v) ∧
  (∀ p0 pn right,
      scenario 0 !! 0%nat = Some p0 → last (scenario 0) = Some pn →
      timestamp p0 < 3600000 < timestamp pn →
      bsearch (length (scenario 0)) (scenario 0) 3600000 0 (len (scenario 0) - 1)
        = Ok (Gap right) →
      let left := right - 1 in
      0 ≤ left ∧ left < right ∧ right ≤ len (scenario 0) - 1 ∧
      ∃ pL pR, nth_point (scenario 0) left = Ok pL ∧
               nth_point (scenario 0) right = Ok pR ∧
               0 < timestamp pR - timestamp pL).
Proof.
  apply (interpCount_safe (scenario 0) 3600000).
  - discriminate.
  - unfold ascending, scenario. repeat constructor; simpl; lia.
Defined.

(** On the scenario the gap branch is the one taken at [t0 + 60 min]:
    the search ends with [lo = 2] and the value is [10 + 30 * (30/60) = 25]. *)
Example scenario_interpolates :
  bsearch 3 (scenario 0) 3600000 0 2 = Ok (Gap 2) ∧
  ∃ v, interpCount (scenario 0) 3600000 = Ok v ∧ (v == 25)%Q.
Proof. split; [reflexivity|]. eexists. split; [vm_compute; reflexivity|reflexivity]. Qed.
End ScenarioProofs.

(** ** The completion estimate *)

Section EstimateProofs.
Import Live Estimate.

Lemma lt_zero (avg : JSNum) :
  lt (num 0) avg = true ↔ avg = PosInf ∨ ∃ a, avg = Fin a ∧ (0 < a)%Q.
Proof.
  destruct avg as [|a| |]; simpl.
  - split; [done|]. by intros [|(a & ? & _)].
  - rewrite negb_true_iff, <- not_true_iff_false, Qle_bool_iff. split.
    + intros H. right. exists a. split; [done|]. by apply Qnot_le_lt.
    + intros [|(a' & [= <-] & H)]; [done|]. by apply Qlt_not_le.
  - split; [by left|done].
  - split; [done|]. by intros [|(a & ? & _)].
Qed.

Lemma remaining_positive (latestCount : Z) :
  lt (num 0) (sub (num Stats.TARGET_SIGNUPS) (num latestCount)) = true
  ↔ 0 < Stats.TARGET_SIGNUPS - latestCount.
Proof. unfold num. rewrite sub_num. apply round64_positive. Qed.

(** A rounded product of a value that is near [x]. *)
Lemma near_round (e1 e3 x v c : Q) :
  near e1 x v → (0 < c)%Q → (0 <= e1)%Q → (e1 <= 1 # 2)%Q →
  ((1 + e1) * (1 + unitRoundoff) <= 1 + e3)%Q →
  (1 - e3 <= (1 - e1) * (1 - unitRoundoff))%Q →
  (2 ^ (-1021) <= x * c)%Q → (x * c <= 2 ^ 1022)%Q →
  ∃ w, round64 (v * c) = Fin w ∧ near e3 (x * c) w.
Proof.
  intros [Hv1 Hv2] Hc He0 He1 Hup Hdown Hlo Hhi.
  assert (H1021 : (2 ^ (-1021) == 2 * 2 ^ (-1022))%Q) by (by rewrite <- two_succ).
  assert (H1023 : (2 ^ 1023 == 2 * 2 ^ 1022)%Q) by (by rewrite <- two_succ).
  pose proof (two_pos (-1022)) as Hp1. pose proof (two_pos 1022) as Hp2.
  assert (Hxc : (0 < x * c)%Q) by lra.
  set (xc := (x * c)%Q) in *.
  assert (Hvc1 : (xc * (1 - e1) <= v * c)%Q).
  { unfold xc. assert (x * c * (1 - e1) == x * (1 - e1) * c)%Q as -> by ring.
    apply Qmult_le_compat_r; [done|lra]. }
  assert (Hvc2 : (v * c <= xc * (1 + e1))%Q).
  { unfold xc. assert (x * c * (1 + e1) == x * (1 + e1) * c)%Q as -> by ring.
    apply Qmult_le_compat_r; [done|lra]. }
  set (vc := (v * c)%Q) in *. clearbody vc xc.
  assert (Hhalf : (xc * (1 # 2) <= xc * (1 - e1))%Q) by (apply Qmult_le_l; lra).
  assert (Htwice : (xc * (1 + e1) <= xc * (3 # 2))%Q) by (apply Qmult_le_l; lra).
  destruct (round64_near vc) as (w & Hw & Hw1 & Hw2); [lra|lra|].
  exists w. split; [done|].
  replace (2 ^ (-53))%Q with unitRoundoff in * by (vm_compute; reflexivity).
  assert (Hu : (0 < unitRoundoff < 1)%Q) by (split; reflexivity).
  split.
  - eapply Qle_trans; [|exact Hw1].
    apply Qle_trans with (xc * ((1 - e1) * (1 - unitRoundoff)))%Q.
    + apply Qmult_le_l; done.
    + rewrite Qmult_assoc. apply Qmult_le_compat_r; [done|lra].
  - eapply Qle_trans; [exact Hw2|].
    apply Qle_trans with (xc * ((1 + e1) * (1 + unitRoundoff)))%Q.
    + rewrite Qmult_assoc. apply Qmult_le_compat_r; [done|lra].
    + apply Qmult_le_l; done.
Qed.

Lemma in_range (x c : Q) :
  (2 ^ (-1000) <= x)%Q → (x <= 2 ^ 1000)%Q → (0 < c)%Q →
  (2 ^ (-1021) <= 2 ^ (-1000) * c)%Q → (2 ^ 1000 * c <= 2 ^ 1022)%Q →
  (2 ^ (-1021) <= x * c)%Q ∧ (x * c <= 2 ^ 1022)%Q.
Proof.
  intros Hlo Hhi Hc H1 H2. split.
  - eapply Qle_trans; [exact H1|]. apply Qmult_le_compat_r; [done|lra].
  - eapply Qle_trans; [|exact H2]. apply Qmult_le_compat_r; [done|lra].
Qed.

Lemma near_eq (e x x' v : Q) : (x == x')%Q → near e x v → near e x' v.
Proof. intros He [H1 H2]. unfold near. by rewrite <- He. Qed.

(** The estimate when the hours remaining are in the range of the
    doubles: every step is the exact one up to a fraction [2^-53]. *)
Lemma estimate_near (a : Q) (latestCount now : Z) :
  let remaining := Stats.TARGET_SIGNUPS - latestCount in
  let x := (inject_Z remaining / a)%Q in
  0 < remaining ≤ 2 ^ 53 → 0 ≤ now ≤ 8640000000000000 →
  (2 ^ (-1000) <= x)%Q → (x <= 2 ^ 1000)%Q →
  ∃ h d p s : Q,
    div (sub (num Stats.TARGET_SIGNUPS) (num latestCount)) (Fin a) = Fin h ∧
    near unitRoundoff x h ∧
    near (3 * unitRoundoff) (x / 24) d ∧
    near (5 * unitRoundoff) (x * 3600000) p ∧
    near unitRoundoff (inject_Z now + p) s ∧
    estimate (Fin a) latestCount now
      = (Some (if Qle_bool s 8640000000000000 then At (Qfloor s) else InvalidDate),
         Fin (inject_Z (Qceiling d))).
Proof.
  intros remaining x Hrem Hnow Hlo Hhi.
  pose proof (two_pos (-1000)) as Hp.
  assert (Hx : (0 < x)%Q) by lra.
  assert (Ha : (0 < a)%Q).
  { assert (Hr : (0 < inject_Z remaining)%Q).
    { change 0%Q with (inject_Z 0). rewrite <- Zlt_Qlt. lia. }
    destruct (Qlt_le_dec 0 a) as [|Hle]; [done|]. exfalso.
    destruct (Qeq_dec a 0) as [Hz|Hnz].
    - apply (Qlt_irrefl 0). eapply Qlt_le_trans; [exact Hx|]. unfold x.
      rewrite Hz. unfold Qdiv. change (/ 0)%Q with 0%Q. lra.
    - assert (Hxa : (x * a == inject_Z remaining)%Q) by (unfold x; by field).
      assert (Hneg : (a < 0)%Q) by (apply Qle_lt_or_eq in Hle as [|]; done).
      assert (x * a <= 0)%Q; [|lra].
      assert (0 <= x * (- a))%Q by (apply Qmult_le_0_compat; lra). lra. }
  assert (Hsub : sub (num Stats.TARGET_SIGNUPS) (num latestCount) = Fin (inject_Z remaining)).
  { unfold num. rewrite sub_num. apply round64_int. unfold remaining in *. lia. }
  assert (Hu : (2 ^ (-53))%Q = unitRoundoff) by (vm_compute; reflexivity).
  (* the hours *)
  destruct (round64_near x) as (h & Hh & Hh1 & Hh2).
  { eapply Qle_trans; [|exact Hlo]. by vm_compute. }
  { eapply Qle_lt_trans; [exact Hhi|]. by vm_compute. }
  rewrite Hu in Hh1, Hh2.
  assert (Hnh : near unitRoundoff x h) by done.
  assert (Hdiv : div (Fin (inject_Z remaining)) (Fin a) = Fin h).
  { unfold div. assert (Qeq_bool a 0 = false) as ->; [|done].
    apply not_true_iff_false. intros H%Qeq_bool_iff. lra. }
  (* the days *)
  destruct (in_range x (/ 24) Hlo Hhi) as [Hd1 Hd2]; [done|by vm_compute|by vm_compute|].
  destruct (near_round unitRoundoff (3 * unitRoundoff) x h (/ 24) Hnh)
    as (d & Hd & Hnd); [done|by vm_compute|by vm_compute|by vm_compute|by vm_compute|done|done|].
  (* the milliseconds *)
  destruct (in_range x 60 Hlo Hhi) as [Ha1 Ha2]; [done|by vm_compute|by vm_compute|].
  destruct (near_round unitRoundoff ((9 # 4) * unitRoundoff) x h 60 Hnh)
    as (p1 & Hp1 & Hn1); [done|by vm_compute|by vm_compute|by vm_compute|by vm_compute|done|done|].
  destruct (in_range x 3600 Hlo Hhi) as [Hb1 Hb2]; [done|by vm_compute|by vm_compute|].
  destruct (near_round ((9 # 4) * unitRoundoff) ((7 # 2) * unitRoundoff) (x * 60) p1 60 Hn1)
    as (p2 & Hp2 & Hn2); [done|by vm_compute|by vm_compute|by vm_compute|by vm_compute| | |].
  { by assert (x * 60 * 60 == x * 3600)%Q as -> by ring. }
  { by assert (x * 60 * 60 == x * 3600)%Q as -> by ring. }
  destruct (in_range x 3600000 Hlo Hhi) as [Hc1 Hc2]; [done|by vm_compute|by vm_compute|].
  destruct (near_round ((7 # 2) * unitRoundoff) (5 * unitRoundoff) (x * 60 * 60) p2 1000 Hn2)
    as (p & Hp3 & Hn3); [done|by vm_compute|by vm_compute|by vm_compute|by vm_compute| | |].
  { by assert (x * 60 * 60 * 1000 == x * 3600000)%Q as -> by ring. }
  { by assert (x * 60 * 60 * 1000 == x * 3600000)%Q as -> by ring. }
  apply (near_eq _ _ (x * 3600000)) in Hn3; [|ring].
  (* the sum *)
  assert (Hnow' : (0 <= inject_Z now)%Q) by (change 0%Q with (inject_Z 0); rewrite <- Zle_Qle; lia).
  assert (Hnow'' : (inject_Z now <= 8640000000000000)%Q).
  { change 8640000000000000%Q with (inject_Z 8640000000000000). rewrite <- Zle_Qle. lia. }
  destruct Hn3 as [Hn3a Hn3b].
  assert (Hplo : (2 ^ (-1022) <= p)%Q).
  { eapply Qle_trans; [|exact Hn3a].
    apply Qle_trans with (2 ^ (-1021) * (1 - 5 * unitRoundoff))%Q; [by vm_compute|].
    apply Qmult_le_compat_r; [done|by vm_compute]. }
  assert (Hphi : (p <= 2 ^ 1022 * (1 + 5 * unitRoundoff))%Q).
  { eapply Qle_trans; [exact Hn3b|]. apply Qmult_le_compat_r; [done|by vm_compute]. }
  destruct (round64_near (inject_Z now + p)) as (s & Hs & Hs1 & Hs2).
  { lra. }
  { apply Qle_lt_trans with (8640000000000000 + 2 ^ 1022 * (1 + 5 * unitRoundoff))%Q; [lra|].
    by vm_compute. }
  rewrite Hu in Hs1, Hs2.
  exists h, d, p, s. rewrite Hsub, Hdiv.
  split; [done|]. split; [done|].
  split; [by apply (near_eq _ (x * / 24))|].
  split; [done|]. split; [done|].
  unfold estimate. rewrite Hsub, Hdiv.
  assert (lt (num 0) (Fin a) = true) as -> by (apply lt_zero; eauto).
  assert (lt (num 0) (Fin (inject_Z remaining)) = true) as ->.
  { rewrite <- Hsub. apply remaining_positive. unfold remaining in *. lia. }
  cbn [andb].
  assert (mul (Fin h) (num 60) = Fin p1) as -> by done.
  assert (mul (Fin p1) (num 60) = Fin p2) as -> by done.
  assert (mul (Fin p2) (num 1000) = Fin p) as -> by done.
  assert (add (num now) (Fin p) = Fin s) as -> by done.
  assert (div (Fin h) (num 24) = Fin d) as ->.
  { unfold div, num. change (Qeq_bool (inject_Z 24) 0) with false. cbv iota. exact Hd. }
  cbn [ceil]. f_equal. f_equal. unfold newDate.
  assert (Hs0 : (0 <= s)%Q).
  { eapply Qle_trans; [|exact Hs1]. apply Qmult_le_0_compat; [lra|by vm_compute]. }
  assert (Qle_bool (Qabs s) 8640000000000000 = Qle_bool s 8640000000000000) as ->.
  { apply eq_true_iff_eq. rewrite !Qle_bool_iff. by rewrite (Qabs_pos s Hs0). }
  unfold Stats.dateOf. by apply Qle_bool_iff in Hs0 as ->.
Qed.

(** The exact block and the block in doubles make an estimate for the
    same rates and counts. *)
Lemma estimate_guard (a : Q) (latestCount now : Z) :
  is_Some (Stats.estimate a latestCount now).1
  ↔ is_Some (estimate (Fin a) latestCount now).1.
Proof.
  unfold Stats.estimate, estimate.
  assert (lt (num 0) (Fin a) = Stats.Qltb 0 a) as -> by done.
  assert (lt (num 0) (sub (num Stats.TARGET_SIGNUPS) (num latestCount))
          = (0 <? Stats.TARGET_SIGNUPS - latestCount)) as ->.
  { apply eq_true_iff_eq. by rewrite remaining_positive, Z.ltb_lt. }
  destruct (Stats.Qltb 0 a && (0 <? Stats.TARGET_SIGNUPS - latestCount)); cbn [fst].
  - split; eauto.
  - split; by intros [? ?].
Qed.

(** C7. The estimate is made exactly when the average rate and the
    remaining count are both positive. The hours remaining are then the
    quotient [remaining / averagePerHour], the days remaining its 24th
    part rounded up, and the date is [now] plus the hours remaining (in
    milliseconds) as a [Date]; otherwise there is no date and the days
    are 0. The quotients, products and the sum are those of doubles: each
    is the exact one up to a fraction [2^-53], so that the days are the
    ceiling of a number within [3 * 2^-53] of the exact 24th part and the
    date is a whole millisecond under a sum within [2^-53] of the exact
    one. With 4500 of 5000 signups at 10 per hour: 3 days, and the date
    is 50 hours on. *)
Theorem estimate_spec (avg : JSNum) (latestCount now : Z) :
  let remaining := Stats.TARGET_SIGNUPS - latestCount in
  let hoursRemaining := div (sub (num Stats.TARGET_SIGNUPS) (num latestCount)) avg in
  (lt (num 0) avg = true ↔ avg = PosInf ∨ ∃ a, avg = Fin a ∧ (0 < a)%Q) ∧
  (lt (num 0) (sub (num Stats.TARGET_SIGNUPS) (num latestCount)) = true ↔ 0 < remaining) ∧
  ((lt (num 0) avg = true ∧ 0 < remaining) ↔ is_Some (estimate avg latestCount now).1) ∧
  ((lt (num 0) avg = true ∧ 0 < remaining) →
     estimate avg latestCount now
       = (Some (newDate (add (num now)
                  (mul (mul (mul hoursRemaining (num 60)) (num 60)) (num 1000)))),
          ceil (div hoursRemaining (num 24)))) ∧
  (¬ (lt (num 0) avg = true ∧ 0 < remaining) →
     estimate avg latestCount now = (None, num 0)) ∧
  (∀ a : Q,
     avg = Fin a → 0 < remaining ≤ 2 ^ 53 → 0 ≤ now ≤ 8640000000000000 →
     let x := (inject_Z remaining / a)%Q in
     (2 ^ (-1000) <= x)%Q → (x <= 2 ^ 1000)%Q →
     ∃ h d p s : Q,
       hoursRemaining = Fin h ∧
       near unitRoundoff x h ∧
       near (3 * unitRoundoff) (x / 24) d ∧
       near (5 * unitRoundoff) (x * 3600000) p ∧
       near unitRoundoff (inject_Z now + p) s ∧
       estimate avg latestCount now
         = (Some (if Qle_bool s 8640000000000000 then At (Qfloor s) else InvalidDate),
            Fin (inject_Z (Qceiling d)))) ∧
  (- 8640000000000000 ≤ now ≤ 8640000000000000 - 50 * (60 * 60 * 1000) →
     estimate (num 10) 4500 now = (Some (At (now + 50 * (60 * 60 * 1000))), num 3)).
Proof.
  intros remaining hoursRemaining.
  assert (Hcond : lt (num 0) avg
                  && lt (num 0) (sub (num Stats.TARGET_SIGNUPS) (num latestCount)) = true
                  ↔ lt (num 0) avg = true ∧ 0 < remaining).
  { by rewrite andb_true_iff, remaining_positive. }
  split; [apply lt_zero|]. split; [apply remaining_positive|].
  split; [|split; [|split; [|split]]].
  - rewrite <- Hcond. unfold estimate.
    destruct (lt (num 0) avg && lt (num 0) _); simpl.
    + split; [eauto|done].
    + split; [done|]. by intros [x Hx].
  - intros Hpos. apply Hcond in Hpos. unfold estimate. by rewrite Hpos.
  - intros Hneg. unfold estimate.
    destruct (lt (num 0) avg && lt (num 0) _) eqn:E; [|done].
    exfalso. by apply Hneg, Hcond.
  - intros a -> Hrem Hnow x Hlo Hhi. by apply estimate_near.
  - intros Hnow. unfold estimate.
    replace (sub (num Stats.TARGET_SIGNUPS) (num 4500)) with (Fin 500)
      by (vm_compute; reflexivity).
    change (lt (num 0) (num 10) && lt (num 0) (Fin 500)) with true. cbv iota.
    replace (div (Fin 500) (num 10)) with (Fin 50) by (vm_compute; reflexivity).
    replace (mul (mul (mul (Fin 50) (num 60)) (num 60)) (num 1000))
      with (num 180000000) by (vm_compute; reflexivity).
    replace (ceil (div (Fin 50) (num 24))) with (num 3) by (vm_compute; reflexivity).
    f_equal. f_equal. unfold add, num.
    rewrite (round64_comp _ (inject_Z (now + 180000000))) by (by rewrite inject_Z_plus).
    rewrite round64_int by lia. unfold newDate.
    assert (Qle_bool (Qabs (inject_Z (now + 180000000))) 8640000000000000 = true) as ->.
    { apply Qle_bool_iff. change (Qabs (inject_Z (now + 180000000)))
        with (inject_Z (Z.abs (now + 180000000))).
      change 8640000000000000%Q with (inject_Z 8640000000000000).
      rewrite <- Zle_Qle. lia. }
    f_equal. rewrite (dateOf_whole _ (now + 180000000)) by done. lia.
Qed.

(** Where the doubles show. At 300 per hour with 4995 to go the product
    is [59939999.99999999] and the date one millisecond short of [now]
    plus 16.65 hours; with 997 signups at 0 and 1000 after 81 minutes the
    rate is [2.222222222222222], just under 20/9, and the days come to
    76, not 75; at the double nearest to 0.3 per hour with 72 to go the
    quotient is rounded to 240 and the days to 10, where the exact
    quotient of the same two numbers is above 240. *)
Example estimate_rounding :
  estimate (num 300) 5 60000 = (Some (At 59999999), num 1) ∧
  60000 + 4995 * (60 * 60 * 1000) / 300 = 60000000 ∧
  avgPerHour (mkPoint 0 997) (mkPoint 4860000 1000)
    = Fin (5003999585967217 # 2251799813685248) ∧
  estimate (avgPerHour (mkPoint 0 997) (mkPoint 4860000 1000)) 1000 0
    = (Some (At 6480000000), num 76) ∧
  Qceiling (inject_Z (5000 - 1000) / (20 # 9) / 24) = 75 ∧
  round64 (3 # 10) = Fin (5404319552844595 # 18014398509481984) ∧
  estimate (round64 (3 # 10)) 4928 0 = (Some (At 864000000), num 10) ∧
  Qceiling (inject_Z (5000 - 4928) / (5404319552844595 # 18014398509481984) / 24) = 11.
Proof. split_and!; vm_compute; reflexivity. Qed.

End EstimateProofs.

(** ** The bucket width *)

Section WidthProofs.
Import Resampler.

Lemma Qfloor_div (a b : Z) : 0 < b → Qfloor (inject_Z a / inject_Z b) = a / b.
Proof.
  intros Hb. destruct b as [|p|p]; try lia.
  by rewrite <- Qmake_Qdiv.
Qed.

Lemma Qceiling_div (a b : Z) :
  0 < b → Qceiling (inject_Z a / inject_Z b) = (a + b - 1) / b.
Proof.
  intros Hb. destruct b as [|p|p]; try lia.
  rewrite <- Qmake_Qdiv. unfold Qceiling, Qfloor, Qopp. cbn [Qnum Qden].
  Z.div_mod_to_equations. nia.
Qed.

Lemma mathRound_div (a b : Z) :
  0 < b → mathRound (inject_Z a / inject_Z b) = (2 * a + b) / (2 * b).
Proof.
  intros Hb. destruct b as [|p|p]; try lia.
  unfold mathRound. rewrite <- Qmake_Qdiv. unfold Qfloor, Qplus. cbn [Qnum Qden].
  f_equal; lia.
Qed.

(** [h] is the multiple count nearest to [a / b], a half going up. *)
Lemma nearest_div (a b : Z) :
  0 < b →
  let h := (2 * a + b) / (2 * b) in (2 * h - 1) * b ≤ 2 * a < (2 * h + 1) * b.
Proof. intros Hb h. subst h. Z.div_mod_to_equations. nia. Qed.

Lemma bucketWidth_long (span : Z) :
  7 * day < span →
  bucketWidth span =
    let w := Z.max ((span + 239) / 240) hour in
    let h := (2 * w + hour) / (2 * hour) in
    if h <=? 24 then h * hour else Z.max 1 ((2 * h + 24) / 48) * day.
Proof.
  intros Hlong. unfold bucketWidth.
  destruct (Z.leb_spec span hour); [unfold day, hour, minute in *; lia|].
  destruct (Z.leb_spec span day); [unfold day, hour, minute in *; lia|].
  destruct (Z.leb_spec span (7 * day)); [lia|].
  cbv zeta. rewrite Qceiling_div by lia.
  replace (span + 240 - 1) with (span + 239) by lia.
  rewrite mathRound_div by (unfold hour, minute; lia).
  change (24%Q) with (inject_Z 24). rewrite mathRound_div by lia.
  done.
Qed.

(** C4, as amended. The bucket width depends on the span alone: one minute
    up to an hour, ten minutes up to a day, one hour up to seven days.
    Beyond that [w = max(ceil(span / 240), 1 hour)] is rounded to the
    nearest whole number [h] of hours, a half going up; the width is [h]
    hours when [h ≤ 24], and otherwise the whole number of days nearest to
    those [h] hours (not to [w]), a half going up. A span of ten days gives
    one-hour buckets, 241 of them. *)
Theorem bucketWidth_spec (span : Z) :
  (span ≤ hour → bucketWidth span = minute) ∧
  (hour < span ≤ day → bucketWidth span = 10 * minute) ∧
  (day < span ≤ 7 * day → bucketWidth span = hour) ∧
  (7 * day < span →
     let w := Z.max ((span + 239) / 240) hour in
     ∃ h, (2 * h - 1) * hour ≤ 2 * w < (2 * h + 1) * hour ∧
          (h ≤ 24 → bucketWidth span = h * hour) ∧
          (24 < h →
             ∃ d, (2 * d - 1) * 24 ≤ 2 * h < (2 * d + 1) * 24 ∧
                  bucketWidth span = d * day)) ∧
  bucketWidth (10 * day) = hour ∧
  10 * day / bucketWidth (10 * day) + 1 = 241.
Proof.
  split_and!; try reflexivity.
  - intros H. unfold bucketWidth. by destruct (Z.leb_spec span hour); [|lia].
  - intros H. unfold bucketWidth.
    destruct (Z.leb_spec span hour); [lia|]. by destruct (Z.leb_spec span day); [|lia].
  - intros H. unfold bucketWidth.
    destruct (Z.leb_spec span hour); [unfold day, hour, minute in *; lia|].
    destruct (Z.leb_spec span day); [lia|].
    by destruct (Z.leb_spec span (7 * day)); [|lia].
  - intros Hlong w. rewrite (bucketWidth_long span Hlong). cbv zeta. fold w.
    set (h := (2 * w + hour) / (2 * hour)).
    exists h. split; [apply nearest_div; unfold hour, minute; lia|].
    destruct (Z.leb_spec h 24) as [Hle|Hgt]; (split; [intros; try lia; done|]; intros; try lia).
    exists ((2 * h + 24) / 48). split.
    + pose proof (nearest_div h 24). cbv zeta in *.
      replace (2 * 24) with 48 in * by lia. lia.
    + f_equal. apply Z.max_r. Z.div_mod_to_equations. lia.
Qed.

(** C4, as stated, fails at a span of 356 days: [ceil(span / 240)] is 35.6
    hours, whose nearest whole day is one day (it is 11.6 hours from 24 and
    12.4 hours from 48); the code first rounds to 36 hours and then takes
    36/24 = 1.5 up to two days. *)
Lemma bucketWidth_356_days :
  Z.max ((356 * day + 239) / 240) hour = 128160000 ∧
  128160000 - 1 * day < 2 * day - 128160000 ∧
  specBucketWidth (356 * day) = 1 * day ∧
  bucketWidth (356 * day) = 2 * day.
Proof. split_and!; vm_compute; congruence. Qed.
End WidthProofs.

(** ** The resampling walk *)

Section ResamplerProofs.
Import Resampler.

Lemma skipBefore_ge rest bucketStart j : (j ≤ skipBefore rest bucketStart j)%nat.
Proof.
  revert j. induction rest as [|p rest IH]; intros j; simpl; [lia|].
  destruct (timestamp p <? bucketStart); [|lia]. specialize (IH (S j)). lia.
Qed.

Lemma advance_ge points bucketStart j : (j ≤ advance points bucketStart j)%nat.
Proof. apply skipBefore_ge. Qed.

Lemma rounds_step lastTs w t :
  0 < w → t ≤ lastTs → rounds lastTs w t = S (rounds lastTs w (t + w)).
Proof.
  intros Hw Ht. unfold rounds.
  destruct (Z.leb_spec t lastTs); [|lia].
  destruct (Z.leb_spec (t + w) lastTs).
  - replace (lastTs - t) with ((lastTs - (t + w)) + 1 * w) by lia.
    rewrite Z.div_add by lia.
    assert (0 ≤ (lastTs - (t + w)) / w) by (apply Z.div_pos; lia). lia.
  - rewrite Z.div_small by lia. reflexivity.
Qed.

Lemma increasingFrom_weaken j j' taken :
  (j ≤ j')%nat → increasingFrom j' taken → increasingFrom j taken.
Proof.
  revert j j'. induction taken as [|[i|] rest IH]; intros j j' Hle; simpl; [done| |].
  - intros [? ?]. split; [lia|done].
  - by apply IH.
Qed.

Lemma increasingFrom_lookup taken :
  ∀ j (k : nat) i, increasingFrom j taken → taken !! k = Some (Some i) → (j ≤ i)%nat.
Proof.
  induction taken as [|[i'|] rest IH]; intros j k i Hinc Hk; [done| |].
  - destruct k as [|k]; simpl in *.
    + simplify_eq. lia.
    + destruct Hinc as [? Hinc]. specialize (IH _ _ _ Hinc Hk). lia.
  - destruct k as [|k]; simpl in *; [done|]. by eapply IH.
Qed.

Lemma increasingFrom_strict taken :
  ∀ j (k1 k2 : nat) i1 i2,
    increasingFrom j taken →
    taken !! k1 = Some (Some i1) → taken !! k2 = Some (Some i2) →
    (k1 < k2)%nat → (i1 < i2)%nat.
Proof.
  induction taken as [|[i'|] rest IH]; intros j k1 k2 i1 i2 Hinc H1 H2 Hlt; [done| |].
  - destruct k2 as [|k2]; [lia|]. destruct Hinc as [? Hinc]. simpl in H2.
    destruct k1 as [|k1]; simpl in H1.
    + simplify_eq. pose proof (increasingFrom_lookup _ _ _ _ Hinc H2). lia.
    + eapply IH; eauto. lia.
  - destruct k2 as [|k2]; [lia|]. destruct k1 as [|k1]; [done|]. simpl in *.
    eapply IH; eauto. lia.
Qed.

(** The walk from [t] with the pointer at [j]: enough fuel for the rounds
    left gives both results, bucket by bucket in step. *)
Lemma fill_spec points lastTs w fuel :
  0 < w →
  ∀ t j resampled taken,
    (rounds lastTs w t ≤ fuel)%nat →
    ∃ bs js,
      fill fuel points lastTs w t j resampled = Some (resampled ++ bs) ∧
      fillIdx fuel points lastTs w t j taken = Some (taken ++ js) ∧
      length bs = rounds lastTs w t ∧
      Forall2 (agrees points w) bs js ∧
      increasingFrom j js ∧
      (∀ (k : nat) b, bs !! k = Some b → b_timestamp b = t + Z.of_nat k * w).
Proof.
  intros Hw. induction fuel as [|fuel IH]; intros t j resampled taken Hfuel.
  - exists [], []. unfold rounds in *. simpl.
    destruct (Z.leb_spec t lastTs); [lia|].
    rewrite !app_nil_r. split_and!; done || constructor.
  - simpl. destruct (Z.leb_spec t lastTs) as [Hin|Hout].
    + rewrite (rounds_step _ _ _ Hw Hin) in Hfuel |- *.
      pose proof (advance_ge points t j) as Hadv.
      set (j' := advance points t j) in *.
      destruct (points !! j') as [p|] eqn:Hp;
        [destruct ((t <=? timestamp p) && (timestamp p <? t + w)) eqn:Hin'|].
      * apply andb_true_iff in Hin' as [H1%Z.leb_le H2%Z.ltb_lt].
        destruct (IH (t + w) (S j') (resampled ++ [mkBucket t (Some (count p))])
                    (taken ++ [Some j'])) as (bs & js & Hf & Hi & Hlen & Hag & Hinc & Hts);
          [lia|].
        exists (mkBucket t (Some (count p)) :: bs), (Some j' :: js).
        rewrite Hf, Hi, <- !app_assoc. split_and!; try done.
        -- simpl. by rewrite Hlen.
        -- constructor; [|done]. exists p. simpl. split_and!; try done; lia.
        -- intros [|k] b Hb; simpl in *; [simplify_eq; simpl; lia|].
           rewrite (Hts _ _ Hb). lia.
      * destruct (IH (t + w) j' (resampled ++ [mkBucket t None]) (taken ++ [None]))
          as (bs & js & Hf & Hi & Hlen & Hag & Hinc & Hts); [lia|].
        exists (mkBucket t None :: bs), (None :: js).
        rewrite Hf, Hi, <- !app_assoc. split_and!; try done.
        -- simpl. by rewrite Hlen.
        -- by constructor.
        -- simpl. by eapply increasingFrom_weaken.
        -- intros [|k] b Hb; simpl in *; [simplify_eq; simpl; lia|].
           rewrite (Hts _ _ Hb). lia.
      * destruct (IH (t + w) j' (resampled ++ [mkBucket t None]) (taken ++ [None]))
          as (bs & js & Hf & Hi & Hlen & Hag & Hinc & Hts); [lia|].
        exists (mkBucket t None :: bs), (None :: js).
        rewrite Hf, Hi, <- !app_assoc. split_and!; try done.
        -- simpl. by rewrite Hlen.
        -- by constructor.
        -- simpl. by eapply increasingFrom_weaken.
        -- intros [|k] b Hb; simpl in *; [simplify_eq; simpl; lia|].
           rewrite (Hts _ _ Hb). lia.
    + exists [], []. unfold rounds. destruct (Z.leb_spec t lastTs); [lia|].
      rewrite !app_nil_r. split_and!; done || constructor.
Qed.

Lemma fill_fuel points lastTs w fuel :
  ∀ fuel' t j resampled r,
    fill fuel points lastTs w t j resampled = Some r → (fuel ≤ fuel')%nat →
    fill fuel' points lastTs w t j resampled = Some r.
Proof.
  induction fuel as [|fuel IH]; intros fuel' t j resampled r Hrun Hle.
  - simpl in Hrun. destruct fuel'; simpl; destruct (t <=? lastTs); done.
  - destruct fuel' as [|fuel']; [lia|]. simpl in *.
    destruct (t <=? lastTs); [|done].
    destruct (points !! advance points t j) as [p|];
      [destruct ((t <=? timestamp p) && (timestamp p <? t + w))|];
      apply IH; auto; lia.
Qed.

Lemma fillIdx_fuel points lastTs w fuel :
  ∀ fuel' t j taken r,
    fillIdx fuel points lastTs w t j taken = Some r → (fuel ≤ fuel')%nat →
    fillIdx fuel' points lastTs w t j taken = Some r.
Proof.
  induction fuel as [|fuel IH]; intros fuel' t j taken r Hrun Hle.
  - simpl in Hrun. destruct fuel'; simpl; destruct (t <=? lastTs); done.
  - destruct fuel' as [|fuel']; [lia|]. simpl in *.
    destruct (t <=? lastTs); [|done].
    destruct (points !! advance points t j) as [p|];
      [destruct ((t <=? timestamp p) && (timestamp p <? t + w))|];
      apply IH; auto; lia.
Qed.

Lemma bucketWidth_pos (span : Z) : 0 < bucketWidth span.
Proof.
  destruct (Z.le_gt_cases span (7 * day)) as [Hshort|Hlong].
  - unfold bucketWidth.
    destruct (span <=? hour); [done|]. destruct (span <=? day); [done|].
    destruct (Z.leb_spec span (7 * day)); [done|lia].
  - rewrite (bucketWidth_long span Hlong). cbv zeta.
    set (w := Z.max ((span + 239) / 240) hour).
    assert (hour ≤ w) by (unfold w; lia).
    assert (1 ≤ (2 * w + hour) / (2 * hour)).
    { apply Z.div_le_lower_bound; unfold hour, minute in *; lia. }
    destruct (_ <=? 24); unfold day, hour, minute in *; lia.
Qed.

(** C3. A non-empty series in chronological order is resampled into
    [floor(span / width) + 1] buckets, one per step from the first
    timestamp; each bucket shows the count of the point it consumed, which
    lies inside its interval, or nothing; the consumed indices strictly
    increase, so no point is shown twice; and a bucket whose interval holds
    no point of the series shows nothing. *)
Theorem resampleTimeSeries_spec (points : list DataPoint) :
  points ≠ [] → chronological points →
  ∃ p0 pn buckets taken,
    head points = Some p0 ∧ last points = Some pn ∧
    let span := timestamp pn - timestamp p0 in
    let width := bucketWidth span in
    let n := (Z.to_nat (span / width) + 1)%nat in
    (∀ fuel, (n ≤ fuel)%nat →
       resampleTimeSeries fuel points = Some buckets ∧
       consumed fuel points = Some taken) ∧
    length buckets = n ∧
    (∀ (k : nat) b, buckets !! k = Some b →
       b_timestamp b = timestamp p0 + Z.of_nat k * width) ∧
    Forall2 (agrees points width) buckets taken ∧
    (∀ (k1 k2 : nat) j1 j2,
       taken !! k1 = Some (Some j1) → taken !! k2 = Some (Some j2) →
       (k1 < k2)%nat → (j1 < j2)%nat) ∧
    (∀ b, b ∈ buckets →
       (∀ p, p ∈ points → ¬ (b_timestamp b ≤ timestamp p < b_timestamp b + width)) →
       b_count b = None).
Proof.
  intros Hne Hs.
  destruct points as [|p0 rest] eqn:Epts; [done|]. rewrite <- Epts in *.
  assert (is_Some (last points)) as [pn Hn] by (by rewrite last_is_Some).
  assert (Hspan : timestamp p0 ≤ timestamp pn).
  { rewrite Epts in Hn, Hs. destruct rest as [|q rest'] using rev_ind.
    - simpl in Hn. simplify_eq. lia.
    - rewrite app_comm_cons, last_snoc in Hn. simplify_eq.
      apply StronglySorted_cons in Hs as [Hall _].
      rewrite Forall_forall in Hall. apply Hall. set_solver. }
  set (span := timestamp pn - timestamp p0).
  pose proof (bucketWidth_pos span) as Hw.
  set (n := (Z.to_nat (span / bucketWidth span) + 1)%nat).
  assert (Hn' : rounds (timestamp pn) (bucketWidth span) (timestamp p0) = n).
  { unfold rounds. by destruct (Z.leb_spec (timestamp p0) (timestamp pn)); [|lia]. }
  destruct (fill_spec points (timestamp pn) (bucketWidth span) n Hw (timestamp p0) 0%nat [] [])
    as (bs & js & Hf & Hi & Hlen & Hag & Hinc & Hts); [lia|].
  exists p0, pn, bs, js. cbv zeta. fold span. fold n.
  split; [by rewrite Epts|]. split; [done|].
  split_and!.
  - intros fuel Hfuel. unfold resampleTimeSeries, consumed.
    rewrite app_nil_l in Hf, Hi. rewrite Epts in Hn, Hf, Hi |- *.
    cbv beta iota. rewrite Hn. fold span.
    split; [by eapply fill_fuel|by eapply fillIdx_fuel].
  - by rewrite Hlen.
  - done.
  - done.
  - intros k1 k2 j1 j2. by apply (increasingFrom_strict js 0%nat).
  - intros b Hb Hnone.
    apply list_elem_of_lookup in Hb as [k Hk].
    destruct (Forall2_lookup_l _ _ _ _ _ Hag Hk) as (oj & _ & Hoj).
    destruct oj as [j|]; [|done].
    destruct Hoj as (p & Hp & _ & Hin).
    exfalso. apply (Hnone p); [|done]. by eapply list_elem_of_lookup_2.
Qed.

Lemma resampleTimeSeries_spec_witness :
  ∃ p0 pn buckets taken,
    head four_points = Some p0 ∧ last four_points = Some pn ∧
    let span := timestamp pn - timestamp p0 in
    let width := bucketWidth span in
    let n := (Z.to_nat (span / width) + 1)%nat in
    (∀ fuel, (n ≤ fuel)%nat →
       resampleTimeSeries fuel four_points = Some buckets ∧
       consumed fuel four_points = Some taken) ∧
    length buckets = n ∧
    (∀ (k : nat) b, buckets !! k = Some b →
       b_timestamp b = timestamp p0 + Z.of_nat k * width) ∧
    Forall2 (agrees four_points width) buckets taken ∧
    (∀ (k1 k2 : nat) j1 j2,
       taken !! k1 = Some (Some j1) → taken !! k2 = Some (Some j2) →
       (k1 < k2)%nat → (j1 < j2)%nat) ∧
    (∀ b, b ∈ buckets →
       (∀ p, p ∈ four_points →
          ¬ (b_timestamp b ≤ timestamp p < b_timestamp b + width)) →
       b_count b = None).
Proof.
  apply (resampleTimeSeries_spec four_points).
  - discriminate.
  - unfold chronological, four_points. repeat constructor; simpl; lia.
Defined.

(** Of two points in the same minute the second is passed over, and the
    empty third minute stays empty. *)
Example resample_four_points :
  resampleTimeSeries 4 four_points
    = Some [mkBucket 0 (Some 1); mkBucket 60000 (Some 2);
            mkBucket 120000 None; mkBucket 180000 (Some 4)] ∧
  consumed 4 four_points = Some [Some 0%nat; Some 1%nat; None; Some 3%nat].
Proof. split; vm_compute; reflexivity. Qed.

(** Ten days of daily samples: 241 one-hour buckets, 11 of them filled. *)
Example resample_daily :
  bucketWidth (10 * day) = hour ∧
  (length <$> resampleTimeSeries 241 daily) = Some 241%nat ∧
  (length ∘ filter (λ b, is_Some (b_count b)) <$> resampleTimeSeries 241 daily)
    = Some 11%nat.
Proof. split_and!; vm_compute; reflexivity. Qed.
End ResamplerProofs.

(** ** Hourly downsampling *)

Section HourlyProofs.
Import Hourly.
Variable zone : Zone.

#[local] Instance entryLe_trans : Transitive entryLe.
Proof. intros a b c. unfold entryLe. lia. Qed.

#[local] Instance entryLe_total : Total entryLe.
Proof. intros a b. unfold entryLe. lia. Qed.

Lemma hourlyMap_snoc allRows row :
  hourlyMap zone (allRows ++ [row])
    = <[truncateToHour zone (timestamp row) := count row]> (hourlyMap zone allRows).
Proof. unfold hourlyMap. by rewrite foldl_app. Qed.

Lemma lastInHour_snoc allRows row h :
  lastInHour zone (allRows ++ [row]) h
    = if decide (truncateToHour zone (timestamp row) = h) then Some (count row)
      else lastInHour zone allRows h.
Proof.
  unfold lastInHour. rewrite filter_app, filter_cons, filter_nil.
  case_decide; [by rewrite last_snoc|by rewrite app_nil_r].
Qed.

(** What the map holds for an hour is the count written last for it. *)
Lemma hourlyMap_lookup allRows h :
  hourlyMap zone allRows !! h = lastInHour zone allRows h.
Proof.
  induction allRows as [|row allRows IH] using rev_ind; [done|].
  rewrite hourlyMap_snoc, lastInHour_snoc, lookup_insert. by case_decide.
Qed.

Lemma lastInHour_Some allRows h :
  is_Some (lastInHour zone allRows h)
  ↔ ∃ row, row ∈ allRows ∧ truncateToHour zone (timestamp row) = h.
Proof.
  unfold lastInHour. rewrite fmap_is_Some, last_is_Some. split.
  - intros Hne. destruct (filter _ allRows) as [|row l] eqn:E; [done|].
    assert (Hin : row ∈ filter (λ row, truncateToHour zone (timestamp row) = h) allRows)
      by (rewrite E; set_solver).
    apply list_elem_of_filter in Hin as [Hh Hin]. by exists row.
  - intros (row & Hin & Hh) Hnil.
    eapply (filter_nil_not_elem_of _ _ row Hnil); done.
Qed.

(** Where the clock reads the same distance from UTC at [t] and at the
    top of the local hour of [t], the result is the top of the hour that
    holds [t]. *)
Lemma truncateToHour_top (offset t : Z) :
  offsetAt zone t = offset →
  offsetOfLocal zone (t + offset - (t + offset) mod hourMs) = offset →
  (truncateToHour zone t + offset) mod hourMs = 0 ∧
  truncateToHour zone t ≤ t < truncateToHour zone t + hourMs.
Proof.
  intros H1 H2. unfold truncateToHour. cbv zeta. rewrite H1, H2.
  assert (0 < hourMs) by (by unfold hourMs).
  pose proof (Z.mod_pos_bound (t + offset) hourMs). split; [|lia].
  replace (t + offset - (t + offset) mod hourMs - offset + offset)
    with ((t + offset) - (t + offset) mod hourMs) by lia.
  rewrite Zminus_mod, Zmod_mod, Z.sub_diag. done.
Qed.

Lemma last_filter_split {A} (P : A → Prop) `{∀ x, Decision (P x)} (l : list A) x :
  last (filter P l) = Some x →
  ∃ l1 l2, l = l1 ++ x :: l2 ∧ P x ∧ Forall (λ y, ¬ P y) l2.
Proof.
  induction l as [|y l IH] using rev_ind; [done|].
  rewrite filter_app, filter_cons, filter_nil. case_decide as Hy.
  - rewrite last_snoc. intros [= ->]. exists l, []. by split_and!.
  - rewrite app_nil_r. intros (l1 & l2 & -> & Hx & Hall)%IH.
    exists l1, (l2 ++ [y]). split_and!; [by rewrite <- app_assoc|done|].
    apply Forall_app. split; [done|]. by constructor.
Qed.

Lemma entries_strict (m : gmap Z Z) :
  StronglySorted (λ a b : Z * Z, a.1 < b.1) (merge_sort entryLe (map_to_list m)).
Proof.
  pose proof (StronglySorted_merge_sort entryLe (map_to_list m)) as Hs.
  pose proof (NoDup_fst_map_to_list m) as Hnd.
  rewrite <- (merge_sort_Permutation entryLe (map_to_list m)) in Hnd.
  induction Hs as [|e l Hs IH Hall]; [constructor|].
  rewrite fmap_cons in Hnd. apply NoDup_cons in Hnd as [He Hnd].
  constructor; [by apply IH|].
  rewrite Forall_forall in Hall |- *. intros e' He'. specialize (Hall e' He').
  unfold entryLe in Hall. assert (e.1 ≠ e'.1); [|lia].
  intros Heq. apply He. rewrite Heq. by apply list_elem_of_fmap_2.
Qed.

Lemma elem_of_hourlyData allRows p :
  p ∈ hourlyData zone allRows
  ↔ lastInHour zone allRows (timestamp p) = Some (count p).
Proof.
  unfold hourlyData. rewrite list_elem_of_fmap.
  setoid_rewrite (merge_sort_Permutation entryLe).
  rewrite <- hourlyMap_lookup. split.
  - intros ([h c] & -> & Hin). by apply elem_of_map_to_list in Hin.
  - intros Hin. exists (timestamp p, count p). split; [by destruct p|].
    by apply elem_of_map_to_list.
Qed.

Lemma steady_fixedZone (offset : Z) (allRows : list DataPoint) :
  steady (fixedZone offset) offset allRows.
Proof. apply Forall_forall. by intros row _. Qed.

Lemma steady_top (offset : Z) (allRows : list DataPoint) (row : DataPoint) :
  steady zone offset allRows → row ∈ allRows →
  (truncateToHour zone (timestamp row) + offset) mod hourMs = 0 ∧
  truncateToHour zone (timestamp row) ≤ timestamp row
    < truncateToHour zone (timestamp row) + hourMs.
Proof.
  intros Hs Hin. unfold steady in Hs. rewrite Forall_forall in Hs.
  destruct (Hs row Hin) as [H1 H2]. by apply truncateToHour_top.
Qed.



(** Where the clock is set back an hour, the rows of two hours are mapped
    to one instant: in Helsinki the rows of 00:30Z and of 01:30Z of
    2025-10-26 both show 03:30 and both land on 00:00Z, which is 90
    minutes before the second of them. Three rows in three hours leave two
    samples. *)
Example hourlyData_autumn_rows :
  truncateToHour helsinki 1761438600000 = 1761436800000 ∧
  truncateToHour helsinki 1761442200000 = 1761436800000 ∧
  1761442200000 - 1761436800000 = 90 * 60 * 1000 ∧
  hourlyData helsinki autumn_rows
    = [mkPoint 1761436800000 200; mkPoint 1761444000000 300] ∧
  hourlyData (fixedZone (2 * hourMs)) autumn_rows
    = [mkPoint 1761436800000 100; mkPoint 1761440400000 200; mkPoint 1761444000000 300].
Proof. split_and!; vm_compute; reflexivity. Qed.
End HourlyProofs.

(** ** The realtime handler *)

Section LiveProofs.
Import Live.

Lemma carries_fun payload n n' : carries payload n → carries payload n' → n = n'.
Proof.
  intros [row raw Hn Hnull Ht Hc|absent row raw Hn Hnull Ho Ht Hc]
         [row' raw' Hn' Hnull' Ht' Hc'|absent' row' raw' Hn' Hnull' Ho' Ht' Hc'];
    congruence.
Qed.

Lemma tryBody_carries payload st n :
  carries payload n →
  tryBody payload st = Ok (if isNaN n then st else setCount n st).
Proof.
  intros [row raw Hn Hnull Ht Hc|absent row raw Hn Hnull Ho Ht Hc];
    unfold tryBody, record; rewrite Hn; cbn [bind]; rewrite Hnull.
  - cbn [bind]. rewrite Ht, Hc. cbn [negb bind]. by destruct (isNaN (toNumber raw)).
  - rewrite Ho. cbn [bind]. rewrite Ht, Hc. cbn [negb bind].
    by destruct (isNaN (toNumber raw)).
Qed.

Lemma tryBody_cases payload st :
  (∃ n, carries payload n) ∨ tryBody payload st = Ok st ∨ ∃ f, tryBody payload st = Raise f.
Proof.
  unfold tryBody, record.
  destruct (get payload "new") as [row|f] eqn:Hn; cbn [bind]; [|eauto].
  destruct (nullish row) eqn:Hnull.
  - destruct (get payload "old") as [old|f] eqn:Ho; cbn [bind]; [|eauto].
    destruct (truthy old) eqn:Ht; cbn [negb]; [|eauto].
    destruct (get old "count") as [raw|f] eqn:Hc; cbn [bind]; [|eauto].
    left. eexists. by eapply carries_old.
  - cbn [bind]. destruct (truthy row) eqn:Ht; cbn [negb]; [|eauto].
    destruct (get row "count") as [raw|f] eqn:Hc; cbn [bind]; [|eauto].
    left. eexists. by eapply carries_new.
Qed.

(** C8. A payload that carries a count which is a number sets the
    displayed count to it and the label to "< 1 min ago", and nothing else
    of the state; any other payload, also one on which the body raises,
    leaves the state as it is. The handler is a total function of the
    payload: nothing escapes it. *)
Theorem onChange_spec (payload : Value) (st : View) :
  (∀ n, carries payload n → isNaN n = false → onChange payload st = setCount n st) ∧
  ((∀ n, carries payload n → isNaN n = true) → onChange payload st = st) ∧
  (onChange payload st = st ∨
   ∃ n, carries payload n ∧ isNaN n = false ∧ onChange payload st = setCount n st) ∧
  (∀ n, currentCount (setCount n st) = n ∧
        lastUpdated (setCount n st) = "< 1 min ago"%string ∧
        data (setCount n st) = data st ∧
        loading (setCount n st) = loading st ∧
        stats (setCount n st) = stats st ∧
        timeRange (setCount n st) = timeRange st) ∧
  onChange (insertOf (VStr "123")) st = setCount (Fin 123) st ∧
  onChange (insertOf (VStr "abc")) st = st ∧
  onChange (deleteOf (VNum (Fin 7))) st = setCount (Fin 7) st ∧
  (tryBody VNull st = Raise TypeError ∧ onChange VNull st = st).
Proof.
  assert (Hyes : ∀ n, carries payload n → isNaN n = false →
                      onChange payload st = setCount n st).
  { intros n Hn Hnan. unfold onChange. by rewrite (tryBody_carries _ _ _ Hn), Hnan. }
  assert (Hno : (∀ n, carries payload n → isNaN n = true) → onChange payload st = st).
  { intros Hall. unfold onChange.
    destruct (tryBody_cases payload st) as [[n Hn]|[Hok|[f Hf]]].
    - by rewrite (tryBody_carries _ _ _ Hn), (Hall n Hn).
    - by rewrite Hok.
    - by rewrite Hf. }
  split_and!; try done.
  destruct (tryBody_cases payload st) as [[n Hn]|[Hok|[f Hf]]].
  - destruct (isNaN n) eqn:Hnan.
    + left. apply Hno. intros n' Hn'. by rewrite (carries_fun _ _ _ Hn' Hn).
    + right. exists n. auto.
  - left. unfold onChange. by rewrite Hok.
  - left. unfold onChange. by rewrite Hf.
Qed.

(** C10. The one test on the count is [isNaN(Number(count))]: whichever
    row the handler picks, a count that [Number] turns into anything but
    [NaN] is accepted and becomes the displayed count. The empty string is
    such a count, [Number("")] being 0. *)
Theorem onChange_accepts (st : View) :
  (∀ payload row raw,
     record payload = Ok row → truthy row = true → get row "count" = Ok raw →
     isNaN (toNumber raw) = false →
     onChange payload st = setCount (toNumber raw) st) ∧
  toNumber (VStr "") = Fin 0 ∧
  onChange (insertOf (VStr "")) st = setCount (Fin 0) st ∧
  currentCount (onChange (insertOf (VStr "")) st) = Fin 0.
Proof.
  assert (Hgen : ∀ payload row raw,
             record payload = Ok row → truthy row = true → get row "count" = Ok raw →
             isNaN (toNumber raw) = false →
             onChange payload st = setCount (toNumber raw) st).
  { intros payload row raw Hrec Ht Hc Hnan. unfold onChange, tryBody.
    rewrite Hrec. cbn [bind]. rewrite Ht, Hc. cbn [negb bind]. by rewrite Hnan. }
  split; [exact Hgen|]. split; [reflexivity|].
  assert (Hempty : onChange (insertOf (VStr "")) st = setCount (Fin 0) st).
  { by apply (Hgen (insertOf (VStr "")) (VObj [("count", VStr "")]) (VStr "")). }
  split; [exact Hempty|]. by rewrite Hempty.
Qed.

(** Other counts that pass the test: [null], [true], a padded numeral, a
    hexadecimal one, [Infinity]; and some that do not. *)
Example toNumber_samples :
  toNumber VNull = Fin 0 ∧ toNumber (VBool true) = Fin 1 ∧
  toNumber (VStr " 42 ") = Fin 42 ∧ toNumber (VStr "0x1F") = Fin 31 ∧
  toNumber (VStr "1e3") = Fin 1000 ∧ toNumber (VStr "Infinity") = PosInf ∧
  toNumber (VArr []) = Fin 0 ∧
  toNumber VUndefined = NaN ∧ toNumber (VStr "abc") = NaN ∧
  toNumber (VStr "12px") = NaN ∧ toNumber (VObj []) = NaN.
Proof. repeat split; vm_compute; reflexivity. Qed.
End LiveProofs.

(** ** The pager's log and its page cap *)

Section PagesProofs.
Import Pager Pages.

(** The log of a run from any state: how it starts, how each query follows
    from the answer to the one before, what the rows are, where it stops. *)
Lemma pageLoop_log be k fuel :
  ∀ allRows lastKey safety log,
    0 ≤ safety ≤ 100 → (Z.to_nat (101 - safety) ≤ fuel)%nat →
    ∃ qs,
      pageLoop fuel be k allRows lastKey safety log
        = Some (allRows ++ concat (contribution be <$> qs), log ++ qs) ∧
      (1 ≤ length qs ≤ Z.to_nat (101 - safety))%nat ∧
      head qs = Some (mkQuery k lastKey PAGE_SIZE) ∧
      (∀ (i : nat) q q', qs !! i = Some q → qs !! S i = Some q' →
         contribution be q ≠ [] ∧
         ∃ bound, nextBound be k q = Some bound ∧ q' = mkQuery k (Some bound) PAGE_SIZE) ∧
      (∀ q, last qs = Some q →
         contribution be q = [] ∨ length qs = Z.to_nat (101 - safety)).
Proof.
  induction fuel as [|fuel IH]; intros allRows lastKey safety log Hs Hfuel; [lia|].
  cbn [pageLoop].
  set (q := mkQuery k lastKey PAGE_SIZE).
  assert (Hstop : ∀ rows, contribution be q = [] → rows = allRows →
            ∃ qs, Some (rows, log ++ [q])
                  = Some (allRows ++ concat (contribution be <$> qs), log ++ qs) ∧
              (1 ≤ length qs ≤ Z.to_nat (101 - safety))%nat ∧
              head qs = Some q ∧
              (∀ (i : nat) q0 q', qs !! i = Some q0 → qs !! S i = Some q' →
                 contribution be q0 ≠ [] ∧
                 ∃ bound, nextBound be k q0 = Some bound ∧
                          q' = mkQuery k (Some bound) PAGE_SIZE) ∧
              (∀ q0, last qs = Some q0 →
                 contribution be q0 = [] ∨ length qs = Z.to_nat (101 - safety))).
  { intros rows Hc ->. exists [q]. simpl. rewrite Hc, !app_nil_r.
    split_and!; try done; try lia.
    intros q0 Hq. left. congruence. }
  destruct (run be q) as [|[batch|]] eqn:Hrun;
    [apply Hstop; [unfold contribution; by rewrite Hrun|done]| |
     apply Hstop; [unfold contribution; by rewrite Hrun|done]].
  destruct (last batch) as [r|] eqn:Hlast;
    [|apply Hstop; [|done]; unfold contribution; rewrite Hrun;
      apply last_None in Hlast; by subst].
  assert (Hc : contribution be q = toDataPoint <$> batch)
    by (unfold contribution; by rewrite Hrun).
  assert (Hne : contribution be q ≠ []).
  { rewrite Hc. destruct batch; [done|]. done. }
  assert (Hnb : nextBound be k q = Some (keyOf k r))
    by (unfold nextBound; by rewrite Hrun, Hlast).
  destruct (Z.ltb_spec 100 (safety + 1)) as [Hcap|Hgo].
  - exists [q]. simpl. rewrite Hc, !app_nil_r.
    split_and!; try done; try lia.
  - destruct (IH (allRows ++ (toDataPoint <$> batch)) (Some (keyOf k r)) (safety + 1)
                (log ++ [q])) as (qs & Hrun' & Hlen & Hhd & Hchain & Hend); [lia|lia|].
    exists (q :: qs). rewrite Hrun'. cbn [fmap list_fmap concat]. rewrite Hc, <- !app_assoc.
    split; [done|]. split; [simpl; lia|]. split; [done|]. split.
    + intros [|i] q0 q' H1 H2; simpl in *.
      * simplify_eq. split; [done|]. exists (keyOf k r). split; [done|].
        destruct qs; simplify_eq/=. done.
      * by eapply Hchain.
    + intros q0 Hl. destruct qs as [|q1 qs']; [simpl in Hlen; lia|].
      change (last (q :: q1 :: qs')) with (last (q1 :: qs')) in Hl.
      destruct (Hend q0 Hl) as [?|Hfull]; [by left|right]. simpl in *. lia.
Qed.

(** X1. Whatever the backend answers, a run of the pager issues between 1
    and 101 page queries; the first carries no bound and each later one the
    key of the last row of the page before it; the rows returned are the
    pages answered, in request order, nothing added or dropped; and the run
    stops at the first query that brings no row, or else at the 101st. *)
Theorem fetchAllSamples_log (be : Backend) :
  ∃ rows log,
    fetchAllSamples be = Some (rows, log) ∧
    (1 ≤ length log ≤ 101)%nat ∧
    head log = Some (mkQuery (keyFor (probeOk be)) None PAGE_SIZE) ∧
    rows = concat (contribution be <$> log) ∧
    (∀ (i : nat) q q', log !! i = Some q → log !! S i = Some q' →
       contribution be q ≠ [] ∧
       ∃ bound, nextBound be (keyFor (probeOk be)) q = Some bound ∧
                q' = mkQuery (keyFor (probeOk be)) (Some bound) PAGE_SIZE) ∧
    (∀ q, last log = Some q → contribution be q = [] ∨ length log = 101%nat).
Proof.
  destruct (pageLoop_log be (keyFor (probeOk be)) 101 [] None 0 [])
    as (qs & Hrun & Hlen & Hhd & Hchain & Hend); [lia|lia|].
  exists (concat (contribution be <$> qs)), qs.
  split; [exact Hrun|]. split; [lia|]. split; [done|]. split; [done|].
  split; [done|]. intros q Hq. destruct (Hend q Hq); [by left|right; lia].
Qed.

(** X2. The safety counter lets 101 pages through, not 100: against a
    backend that never answers with an error or an empty page the pager
    stops after exactly 101 queries, with all 101 pages in its result. *)
Theorem fetchAllSamples_cap (be : Backend) :
  (∀ q, contribution be q ≠ []) →
  ∃ rows log,
    fetchAllSamples be = Some (rows, log) ∧
    length log = 101%nat ∧
    rows = concat (contribution be <$> log) ∧
    (101 ≤ length rows)%nat.
Proof.
  intros Hfull.
  destruct (pageLoop_log be (keyFor (probeOk be)) 101 [] None 0 [])
    as (qs & Hrun & Hlen & Hhd & Hchain & Hend); [lia|lia|].
  exists (concat (contribution be <$> qs)), qs.
  assert (Hn : length qs = 101%nat).
  { destruct (last qs) as [q|] eqn:Hl.
    - destruct (Hend q eq_refl) as [Hc|Hc]; [by destruct (Hfull q)|lia].
    - apply last_None in Hl. subst. simpl in Hlen. lia. }
  split; [exact Hrun|]. split; [done|]. split; [done|].
  rewrite <- Hn. clear -Hfull. induction qs as [|q qs IH]; [done|].
  rewrite fmap_cons. cbn [concat]. rewrite length_app. specialize (Hfull q).
  destruct (contribution be q); [done|]. cbn [length]. lia.
Qed.

Lemma fetchAllSamples_cap_witness :
  ∃ rows log,
    fetchAllSamples (stuckBackend true one_row) = Some (rows, log) ∧
    length log = 101%nat ∧
    rows = concat (contribution (stuckBackend true one_row) <$> log) ∧
    (101 ≤ length rows)%nat.
Proof.
  apply (fetchAllSamples_cap (stuckBackend true one_row)).
  intros q. vm_compute. discriminate.
Defined.

Lemma pageLoop_capped hasId table k fuel :
  ∀ pre suf rows safety log,
    merge_sort (keyLe k) table = pre ++ suf →
    StronglySorted (keyLt k) (pre ++ suf) →
    0 ≤ safety ≤ 100 →
    (100 - safety) * Z.of_nat PAGE_SIZE < Z.of_nat (length suf) →
    (Z.to_nat (101 - safety) ≤ fuel)%nat →
    ∃ qs,
      pageLoop fuel (tableBackend hasId table) k rows (keyOf k <$> last pre) safety log
        = Some (rows ++ (toDataPoint <$> take (Z.to_nat (101 - safety) * PAGE_SIZE) suf),
                log ++ qs) ∧
      length qs = Z.to_nat (101 - safety).
Proof.
  assert (HP : (0 < PAGE_SIZE)%nat) by (unfold PAGE_SIZE; lia).
  assert (HPz : Z.of_nat PAGE_SIZE = 1000) by reflexivity.
  induction fuel as [|fuel IH]; intros pre suf rows safety log Hm Hs H0 Hlen Hfuel; [lia|].
  rewrite HPz in Hlen.
  cbn [pageLoop tableBackend run].
  rewrite (select_suffix _ _ _ _ Hm Hs).
  assert (Hlast : is_Some (last (take PAGE_SIZE suf))).
  { destruct suf as [|x suf']; [simpl in Hlen; lia|]. destruct PAGE_SIZE eqn:EP; [lia|].
    rewrite last_is_Some. done. }
  destruct Hlast as [r Hr]. rewrite Hr.
  destruct (Z.ltb_spec 100 (safety + 1)) as [Hcap|Hgo].
  - exists [mkQuery k (keyOf k <$> last pre) PAGE_SIZE].
    replace (Z.to_nat (101 - safety)) with 1%nat by lia.
    by rewrite Nat.mul_1_l.
  - destruct (IH (pre ++ take PAGE_SIZE suf) (drop PAGE_SIZE suf)
                (rows ++ (toDataPoint <$> take PAGE_SIZE suf)) (safety + 1)
                (log ++ [mkQuery k (keyOf k <$> last pre) PAGE_SIZE]))
      as (qs & Hrun & Hqs).
    + by rewrite <- app_assoc, take_drop.
    + by rewrite <- app_assoc, take_drop.
    + lia.
    + rewrite length_drop, HPz. lia.
    + lia.
    + assert (last (pre ++ take PAGE_SIZE suf) = Some r) as Hl.
      { apply last_Some in Hr as [b ->]. by rewrite app_assoc, last_snoc. }
      rewrite Hl in Hrun. cbn [fmap option_fmap option_map] in Hrun.
      exists (mkQuery k (keyOf k <$> last pre) PAGE_SIZE :: qs). split.
      * rewrite Hrun, <- !app_assoc, <- fmap_app, take_take_drop.
        replace (Z.to_nat (101 - safety)) with (S (Z.to_nat (101 - (safety + 1)))) by lia.
        by rewrite Nat.mul_succ_l, Nat.add_comm.
      * simpl. rewrite Hqs. lia.
Qed.

(** X3. A table of more than 100 pages is cut off: with distinct keys the
    pager returns its first 101000 rows in key order, after exactly 101
    queries, and no more. *)
Theorem fetchAllSamples_truncates (hasId : bool) (table : list Row) :
  NoDup (keyOf (keyFor hasId) <$> table) →
  (100 * PAGE_SIZE < length table)%nat →
  ∃ log,
    fetchAllSamples (tableBackend hasId table)
      = Some (toDataPoint <$> take (101 * PAGE_SIZE)
                                (merge_sort (keyLe (keyFor hasId)) table), log) ∧
    length log = 101%nat.
Proof.
  intros Hnd Hlen.
  pose proof (merge_sort_strict (keyFor hasId) table Hnd) as Hs.
  assert (HPz : Z.of_nat PAGE_SIZE = 1000) by reflexivity.
  destruct (pageLoop_capped hasId table (keyFor hasId) 101 []
              (merge_sort (keyLe (keyFor hasId)) table) [] 0 [])
    as (qs & Hrun & Hqs); try done; try lia.
  - rewrite (merge_sort_Permutation (keyLe (keyFor hasId)) table). lia.
  - exists qs. split; [exact Hrun|]. rewrite Hqs. lia.
Qed.

Lemma long_table_keys (hasId : bool) : NoDup (keyOf (keyFor hasId) <$> long_table).
Proof.
  unfold long_table. rewrite <- list_fmap_compose.
  apply NoDup_fmap_2; [|apply NoDup_seq].
  intros i j. destruct hasId; simpl; lia.
Qed.

Lemma fetchAllSamples_truncates_witness :
  ∃ log,
    fetchAllSamples (tableBackend true long_table)
      = Some (toDataPoint <$> take (101 * PAGE_SIZE)
                                (merge_sort (keyLe (keyFor true)) long_table), log) ∧
    length log = 101%nat.
Proof.
  apply (fetchAllSamples_truncates true long_table).
  - apply long_table_keys.
  - unfold long_table. rewrite length_fmap, length_seq.
    change PAGE_SIZE with 1000%nat. lia.
Defined.
End PagesProofs.

(** ** The statistics on any rows *)

Section RobustProofs.
Import Stats.

(** The search on any series, ordered or not: [lo] moves only past a probed
    point before [t], [hi] only below a probed point after [t]. *)
Lemma bsearch_probed points t lo0 hi0 fuel :
  ∀ lo hi,
    0 ≤ lo → hi < len points → lo ≤ hi + 1 →
    (Z.to_nat (hi - lo + 1) ≤ fuel)%nat →
    (lo = lo0 ∨ ∃ p, points !! Z.to_nat (lo - 1) = Some p ∧ timestamp p < t) →
    (hi = hi0 ∨ ∃ p, points !! Z.to_nat (hi + 1) = Some p ∧ t < timestamp p) →
    (∃ (i : nat) p, bsearch fuel points t lo hi = Ok (Exact (count p)) ∧
                    points !! i = Some p ∧ timestamp p = t) ∨
    (∃ r, bsearch fuel points t lo hi = Ok (Gap r) ∧ 0 ≤ r ∧ r - 1 < len points ∧
          (r = lo0 ∨ ∃ p, points !! Z.to_nat (r - 1) = Some p ∧ timestamp p < t) ∧
          (r - 1 = hi0 ∨ ∃ p, points !! Z.to_nat r = Some p ∧ t < timestamp p)).
Proof.
  induction fuel as [|fuel IH]; intros lo hi Hlo Hhi Hle Hfuel HL HR.
  - right. exists lo. simpl. destruct (Z.leb_spec lo hi); [lia|].
    assert (hi = lo - 1) as -> by lia.
    replace (lo - 1 + 1) with lo in HR by lia. split_and!; try done; lia.
  - simpl. destruct (Z.leb_spec lo hi) as [Hin|Hout].
    + set (mid := (lo + hi) / 2).
      assert (lo ≤ mid ≤ hi) as Hmid.
      { unfold mid. split; [apply Z.div_le_lower_bound|apply Z.div_le_upper_bound]; lia. }
      assert (is_Some (points !! Z.to_nat mid)) as [p Hp].
      { apply lookup_lt_is_Some. unfold len in Hhi. lia. }
      assert (nth_point points mid = Ok p) as ->.
      { rewrite <- (Z2Nat.id mid) by lia. by apply nth_point_Ok. }
      cbn [bind].
      destruct (Z.eqb_spec (timestamp p) t) as [Heq|Hne].
      { left. exists (Z.to_nat mid), p. done. }
      destruct (Z.ltb_spec (timestamp p) t) as [Hlt|Hge].
      * apply IH; try lia; [|done].
        right. exists p. replace (mid + 1 - 1) with mid by lia. done.
      * apply IH; try lia; [done|].
        right. exists p. replace (mid - 1 + 1) with mid by lia. split; [done|lia].
    + right. exists lo. assert (hi = lo - 1) as -> by lia.
      replace (lo - 1 + 1) with lo in HR by lia. split_and!; try done; lia.
Qed.

(** [interpCount] answers on every non-empty series, ordered or not, with
    the count of a sample or with the interpolation between two neighbours
    that lie strictly on either side of [t]. *)
Lemma interpCount_any (points : list DataPoint) (t : Z) :
  points ≠ [] →
  ∃ v, interpCount points t = Ok v ∧
       ((∃ p, p ∈ points ∧ v = inject_Z (count p)) ∨
        (∃ (i : nat) pL pR,
            points !! i = Some pL ∧ points !! S i = Some pR ∧
            timestamp pL < t < timestamp pR ∧ v = lerp pL pR t)).
Proof.
  intros Hne. unfold interpCount.
  assert (is_Some (points !! 0%nat)) as [p0 H0].
  { apply lookup_lt_is_Some. destruct points; [done|simpl; lia]. }
  assert (nth_point points 0 = Ok p0) as -> by exact (nth_point_Ok points 0 p0 H0).
  cbn [bind].
  destruct (Z.leb_spec t (timestamp p0)) as [Hle|Hgt].
  { eexists. split; [done|]. left. exists p0. split; [|done]. by eapply list_elem_of_lookup_2. }
  assert (is_Some (last points)) as [pn Hn] by (by rewrite last_is_Some).
  pose proof (last_lookup_index _ _ Hn) as Hn'.
  apply lookup_lt_Some in H0 as Hlen.
  assert (nth_point points (len points - 1) = Ok pn) as ->.
  { rewrite <- (nth_point_Ok _ _ _ Hn'). f_equal. unfold len. lia. }
  cbn [bind].
  destruct (Z.leb_spec (timestamp pn) t) as [Hle|Hlt].
  { eexists. split; [done|]. left. exists pn. split; [|done]. by eapply list_elem_of_lookup_2. }
  destruct (bsearch_probed points t 0 (len points - 1) (length points) 0 (len points - 1))
    as [(i & p & -> & Hp & Ht)|(r & -> & Hr0 & Hrn & HL & HR)];
    try (unfold len; lia).
  { cbn [bind]. eexists. split; [done|]. left. exists p. split; [|done].
    by eapply list_elem_of_lookup_2. }
  cbn [bind]. cbv zeta.
  destruct HL as [->|(pL & HL & HtL)].
  { exfalso. destruct HR as [HR|(pR & HR & HtR)]; [unfold len in HR; lia|].
    change (Z.to_nat 0) with 0%nat in HR. simplify_eq. lia. }
  destruct HR as [HR|(pR & HR & HtR)].
  { exfalso. replace (Z.to_nat (r - 1)) with (length points - 1)%nat in HL
      by (unfold len in HR; lia). simplify_eq. lia. }
  assert (0 ≤ r - 1).
  { destruct (Z.le_gt_cases 0 (r - 1)); [done|].
    replace (Z.to_nat (r - 1)) with 0%nat in HL by lia.
    replace (Z.to_nat r) with 0%nat in HR by lia. simplify_eq. lia. }
  assert (nth_point points (r - 1) = Ok pL) as ->.
  { rewrite <- (nth_point_Ok _ _ _ HL). f_equal. lia. }
  assert (nth_point points r = Ok pR) as ->.
  { rewrite <- (nth_point_Ok _ _ _ HR). f_equal. lia. }
  cbn [bind].
  destruct (Z.eqb_spec (timestamp pR - timestamp pL) 0); [lia|].
  eexists. split; [done|]. right. exists (Z.to_nat (r - 1)), pL, pR.
  split_and!; try done; try lia.
  rewrite <- HR. f_equal. lia.
Qed.

Lemma Qmax_spec (a b : Q) : (a <= Qmax a b)%Q ∧ (b <= Qmax a b)%Q ∧
  (Qmax a b = a ∨ Qmax a b = b).
Proof.
  unfold Qmax. destruct (Qle_bool a b) eqn:E.
  - apply Qle_bool_iff in E. split_and!; [done|apply Qle_refl|by right].
  - split_and!; [apply Qle_refl| |by left].
    apply Qlt_le_weak, Qnot_le_lt. intros H. apply Qle_bool_iff in H. congruence.
Qed.

(** The scan over [rest] ends with the largest of [m] and the deltas of the
    windows that end at the points of [rest]. *)
Lemma peakScan_max points :
  points ≠ [] →
  ∀ rest m,
    ∃ v, peakScan points rest m = Ok v ∧ (m <= v)%Q ∧
         (∀ p cT cT0, p ∈ rest →
            interpCount points (timestamp p) = Ok cT →
            interpCount points (timestamp p - oneHourMs) = Ok cT0 →
            (cT - cT0 <= v)%Q) ∧
         (∀ b, (m <= b)%Q →
            (∀ p cT cT0, p ∈ rest →
               interpCount points (timestamp p) = Ok cT →
               interpCount points (timestamp p - oneHourMs) = Ok cT0 →
               (cT - cT0 <= b)%Q) →
            (v <= b)%Q).
Proof.
  intros Hne. induction rest as [|p rest IH]; intros m.
  - exists m. simpl. split_and!; [done|apply Qle_refl| |by intros].
    intros p cT cT0 Hp. by apply elem_of_nil in Hp.
  - cbn [peakScan].
    destruct (interpCount_any points (timestamp p) Hne) as (cT & HT & _).
    destruct (interpCount_any points (timestamp p - oneHourMs) Hne) as (cT0 & HT0 & _).
    rewrite HT, HT0. cbn [bind].
    remember (if Qltb m (cT - cT0) then (cT - cT0)%Q else m) as m' eqn:Em'.
    assert (Hm' : (m <= m')%Q ∧ (cT - cT0 <= m')%Q ∧ (m' = m ∨ m' = (cT - cT0)%Q)).
    { rewrite Em'. destruct (Qltb m (cT - cT0)) eqn:E.
      - apply Qltb_lt in E. split_and!; [by apply Qlt_le_weak|apply Qle_refl|by right].
      - split_and!; [apply Qle_refl| |by left].
        apply Qnot_lt_le. intros H. apply Qltb_lt in H. congruence. }
    destruct Hm' as (Hm1 & Hm2 & Hm3).
    destruct (IH m') as (v & Hrun & Hv1 & Hv2 & Hv3).
    exists v. split; [done|]. split; [by eapply Qle_trans|]. split.
    + intros q qT qT0 Hq HqT HqT0. apply elem_of_cons in Hq as [->|Hq].
      * assert (qT = cT) as -> by congruence. assert (qT0 = cT0) as -> by congruence.
        by eapply Qle_trans.
      * by eapply Hv2.
    + intros b Hb Hall. apply Hv3.
      * assert (p ∈ p :: rest) by (apply elem_of_cons; by left).
        destruct Hm3 as [E|E]; [by rewrite E|rewrite E; by eapply Hall].
      * intros q qT qT0 Hq. apply Hall. apply elem_of_cons. by right.
Qed.

Lemma peakHourly_max points :
  ∃ v, peakHourly points = Ok v ∧ (0 <= v)%Q ∧
       (∀ p cT cT0, (2 ≤ length points)%nat → p ∈ points →
          interpCount points (timestamp p) = Ok cT →
          interpCount points (timestamp p - oneHourMs) = Ok cT0 →
          (cT - cT0 <= v)%Q) ∧
       (∀ b, (0 <= b)%Q →
          (∀ p cT cT0, p ∈ points →
             interpCount points (timestamp p) = Ok cT →
             interpCount points (timestamp p - oneHourMs) = Ok cT0 →
             (cT - cT0 <= b)%Q) →
          (v <= b)%Q).
Proof.
  unfold peakHourly. destruct (Nat.ltb_spec (length points) 2) as [Hshort|Hlong].
  - exists 0%Q. split_and!; [done|apply Qle_refl|intros; lia|by intros].
  - assert (Hne : points ≠ []) by (intros ->; simpl in Hlong; lia).
    destruct (peakScan_max points Hne points 0%Q) as (m & -> & Hm1 & Hm2 & Hm3).
    cbn [bind]. destruct (Qmax_spec 0 m) as (H0 & H1 & H2).
    exists (Qmax 0 m). split_and!; [done|done| |].
    + intros p cT cT0 _ Hp HT HT0. eapply Qle_trans; [by eapply Hm2|done].
    + intros b Hb Hall. destruct H2 as [E|E]; rewrite E; [done|]. by apply Hm3.
Qed.




Lemma Qmax_floor_pos (x : Q) : (0 < Qmax x (1 # 1000000))%Q.
Proof.
  destruct (Qmax_spec x (1 # 1000000)) as (_ & H & _).
  eapply Qlt_le_trans; [|exact H]. reflexivity.
Qed.

Lemma avgPerHour_sign (first latest : DataPoint) :
  (0 < avgPerHour first latest)%Q ↔ 0 < count latest - count first.
Proof.
  unfold avgPerHour.
  set (d := Qmax (inject_Z (timestamp latest - timestamp first) / inject_Z (1000 * 60 * 60))
              (1 # 1000000)).
  pose proof (Qmax_floor_pos
    (inject_Z (timestamp latest - timestamp first) / inject_Z (1000 * 60 * 60))) as Hpos.
  fold d in Hpos. split.
  - intros H. apply Qmult_lt_r with (z := d) in H; [|done].
    rewrite Qmult_0_l in H. unfold Qdiv in H.
    rewrite <- Qmult_assoc, (Qmult_comm (/ _)), Qmult_inv_r, Qmult_1_r in H
      by (intros E; rewrite E in Hpos; by apply Qlt_irrefl in Hpos).
    change 0%Q with (inject_Z 0) in H. by rewrite <- Zlt_Qlt in H.
  - intros H. apply Qlt_shift_div_l; [done|]. rewrite Qmult_0_l.
    change 0%Q with (inject_Z 0). by rewrite <- Zlt_Qlt.
Qed.

(** X4. The floor of [1e-6] hours under the average rate is in force up to
    a time difference of 3 ms, a zero or negative one included: the rate is
    then the count difference times a million. From 4 ms on it is the count
    difference per elapsed hour. Either way it has the sign of the count
    difference. *)
Theorem avgPerHour_floor (first latest : DataPoint) :
  let dt := timestamp latest - timestamp first in
  let dc := count latest - count first in
  (dt ≤ 3 → avgPerHour first latest == inject_Z (dc * 1000000))%Q ∧
  (4 ≤ dt → avgPerHour first latest == inject_Z (dc * 3600000) / inject_Z dt)%Q ∧
  ((0 < avgPerHour first latest)%Q ↔ 0 < dc) ∧
  ((avgPerHour first latest == 0)%Q ↔ dc = 0).
Proof.
  intros dt dc. split_and!; [| |apply avgPerHour_sign|].
  1,2: unfold avgPerHour; fold dt; fold dc;
       change (inject_Z (1000 * 60 * 60)) with (3600000%Q).
  1,2: assert (Hcmp : (inject_Z dt / 3600000 <= 1 # 1000000)%Q ↔ dt ≤ 3)
         by (rewrite <- (Qmult_le_r _ _ 3600000) by done;
             assert (E1 : (inject_Z dt / 3600000 * 3600000 == inject_Z dt)%Q) by field;
             assert (E2 : ((1 # 1000000) * 3600000 == 18 # 5)%Q) by reflexivity;
             rewrite E1, E2; unfold Qle; simpl; lia).
  - intros Hdt. unfold Qmax. apply Hcmp in Hdt. apply Qle_bool_iff in Hdt. rewrite Hdt.
    rewrite inject_Z_mult. field.
  - intros Hdt. unfold Qmax.
    destruct (Qle_bool (inject_Z dt / 3600000) (1 # 1000000)) eqn:E.
    { apply Qle_bool_iff, Hcmp in E. lia. }
    rewrite inject_Z_mult. field.
    change 0%Q with (inject_Z 0). rewrite inject_Z_injective. lia.
  - unfold avgPerHour. fold dc.
    pose proof (Qmax_floor_pos
      (inject_Z (timestamp latest - timestamp first) / inject_Z (1000 * 60 * 60))) as Hpos.
    set (d := Qmax _ _) in *.
    assert (Hd : ¬ (d == 0)%Q) by (intros E; rewrite E in Hpos; by apply Qlt_irrefl in Hpos).
    split.
    + intros H. assert (inject_Z dc == 0)%Q as H'.
      { rewrite <- (Qmult_div_r (inject_Z dc) d Hd), H. apply Qmult_0_r. }
      change 0%Q with (inject_Z 0) in H'. by rewrite inject_Z_injective in H'.
    + intros ->. unfold Qdiv. by rewrite Qmult_0_l.
Qed.

(** On an ordered series with counts that never decrease the value stays
    between the first and the last count. *)
Lemma interpCount_within points p0 pn t :
  ascending points → nondecreasing points →
  head points = Some p0 → last points = Some pn →
  ∃ v, interpCount points t = Ok v ∧
       (inject_Z (count p0) <= v)%Q ∧ (v <= inject_Z (count pn))%Q.
Proof.
  intros Hs Hc H0 Hn. rewrite head_lookup in H0.
  assert (Hne : points ≠ []) by (intros ->; done).
  destruct (interpCount_cases points t Hne Hs) as (v & Hrun & Hv).
  destruct (valueAt_bounds points t v Hs Hc Hv) as [Hlow Hupp].
  exists v. split; [done|]. split.
  - destruct (Z.le_gt_cases (timestamp p0) t) as [Hin|Hout]; [by eapply Hlow|].
    rewrite (valueAt_fun points t v (inject_Z (count p0)) Hs Hv); [apply Qle_refl|].
    apply ClampFirst; [done|lia].
  - destruct (Z.le_gt_cases t (timestamp pn)) as [Hin|Hout].
    + apply last_lookup_index in Hn. by eapply Hupp.
    + rewrite (valueAt_fun points t v (inject_Z (count pn)) Hs Hv); [apply Qle_refl|].
      apply ClampLast; [done|lia].
Qed.

(** X5. The statistics never fault, whatever the rows: on a non-empty
    series, ordered or not, [interpCount] answers with a sample's count or
    with the interpolation between two neighbours strictly around [t]; the
    peak is computed and is not negative; and the statistics block returns,
    with a snapshot exactly when there are at least two rows. *)
Theorem statistics_never_fault (allRows : list DataPoint) (now t : Z) :
  (allRows ≠ [] →
   ∃ v, interpCount allRows t = Ok v ∧
        ((∃ p, p ∈ allRows ∧ v = inject_Z (count p)) ∨
         (∃ (i : nat) pL pR,
             allRows !! i = Some pL ∧ allRows !! S i = Some pR ∧
             timestamp pL < t < timestamp pR ∧ v = lerp pL pR t))) ∧
  (∃ v, peakHourly allRows = Ok v ∧ (0 <= v)%Q) ∧
  (∃ r, computeStats allRows now = Ok r ∧
        (r = None ↔ (length allRows < 2)%nat) ∧
        (∀ s, r = Some s →
           (count <$> last allRows) = Some (totalSignups s) ∧
           (0 <= peakSignupsPerHour s)%Q)).
Proof.
  split; [apply interpCount_any|].
  destruct (peakHourly_max allRows) as (v & Hpk & Hv & _).
  split; [by exists v|].
  unfold computeStats.
  destruct allRows as [|first [|second rest]].
  - exists None. simpl. split_and!; [done|split; [lia|done]|done].
  - exists None. simpl. split_and!; [done|split; [lia|done]|done].
  - assert (is_Some (last (first :: second :: rest))) as [latest Hl] by (by rewrite last_is_Some).
    rewrite Hl, Hpk. cbn [bind]. eexists. split; [reflexivity|]. split.
    + split; [done|]. simpl. lia.
    + intros s [= <-]. cbn [totalSignups peakSignupsPerHour]. split; [done|].
      by destruct (Qmax_spec 0 v) as (? & _).
Qed.

(** X6. On an ordered series of at least two samples whose counts never
    decrease, the peak is computed; it lies between 0 and the growth from
    the first to the last sample, is at least the growth between any two
    samples that are at most an hour apart, and equals the whole growth when
    the series spans at most an hour. *)
Theorem peakHourly_bounds (points : list DataPoint) (p0 pn : DataPoint) :
  ascending points → nondecreasing points → (2 ≤ length points)%nat →
  head points = Some p0 → last points = Some pn →
  ∃ v, peakHourly points = Ok v ∧
       (0 <= v)%Q ∧ (v <= inject_Z (count pn - count p0))%Q ∧
       (∀ (i j : nat) pi pj,
          points !! i = Some pi → points !! j = Some pj →
          timestamp pj - timestamp pi ≤ oneHourMs →
          (inject_Z (count pj - count pi) <= v)%Q) ∧
       (timestamp pn - timestamp p0 ≤ oneHourMs → (v == inject_Z (count pn - count p0))%Q).
Proof.
  intros Hs Hc Hlen H0 Hn.
  destruct (peakHourly_max points) as (v & Hpk & Hv0 & Hlow & Hupp).
  assert (Hne : points ≠ []) by (intros ->; done).
  assert (Hgrow : count p0 ≤ count pn).
  { rewrite head_lookup in H0. apply last_lookup_index in Hn as Hn'.
    eapply (nondecreasing_le points 0 (length points - 1)); eauto. lia. }
  assert (Hle : (v <= inject_Z (count pn - count p0))%Q).
  { apply Hupp.
    - change 0%Q with (inject_Z 0). rewrite <- Zle_Qle. lia.
    - intros p cT cT0 Hp HT HT0.
      destruct (interpCount_within points p0 pn (timestamp p) Hs Hc H0 Hn) as (a & Ha & _ & Ha2).
      destruct (interpCount_within points p0 pn (timestamp p - oneHourMs) Hs Hc H0 Hn)
        as (b & Hb & Hb1 & _).
      assert (cT = a) as -> by congruence. assert (cT0 = b) as -> by congruence.
      unfold Z.sub. rewrite inject_Z_plus, inject_Z_opp.
      apply Qplus_le_compat; [done|]. by apply Qopp_le_compat. }
  assert (Hpair : ∀ (i j : nat) pi pj,
            points !! i = Some pi → points !! j = Some pj →
            timestamp pj - timestamp pi ≤ oneHourMs →
            (inject_Z (count pj - count pi) <= v)%Q).
  { intros i j pi pj Hi Hj Hnear.
    destruct (interpCount_cases points (timestamp pj - oneHourMs) Hne Hs) as (b & Hb & Hvb).
    destruct (valueAt_bounds points _ b Hs Hc Hvb) as [_ Hub].
    eapply Qle_trans; [|eapply (Hlow pj _ b Hlen)]; [|by eapply list_elem_of_lookup_2| |done].
    - unfold Z.sub. rewrite inject_Z_plus, inject_Z_opp.
      apply Qplus_le_r. apply Qopp_le_compat. eapply Hub; [done|lia].
    - by eapply interpCount_exact. }
  exists v. split_and!; try done.
  intros Hspan. apply Qle_antisym; [done|].
  rewrite head_lookup in H0. apply last_lookup_index in Hn.
  by eapply Hpair.
Qed.

Lemma peakHourly_bounds_witness :
  ∃ v, peakHourly (scenario 0) = Ok v ∧
       (0 <= v)%Q ∧
       (v <= inject_Z (count (mkPoint 5400000 40) - count (mkPoint 0 0)))%Q ∧
       (∀ (i j : nat) pi pj,
          scenario 0 !! i = Some pi → scenario 0 !! j = Some pj →
          timestamp pj - timestamp pi ≤ oneHourMs →
          (inject_Z (count pj - count pi) <= v)%Q) ∧
       (timestamp (mkPoint 5400000 40) - timestamp (mkPoint 0 0) ≤ oneHourMs →
        (v == inject_Z (count (mkPoint 5400000 40) - count (mkPoint 0 0)))%Q).
Proof.
  apply (peakHourly_bounds (scenario 0) (mkPoint 0 0) (mkPoint 5400000 40)).
  - unfold ascending, scenario. repeat constructor; simpl; lia.
  - unfold nondecreasing, scenario. repeat constructor; simpl; lia.
  - simpl. lia.
  - reflexivity.
  - reflexivity.
Defined.

(** X7. On an ordered series the value at a sample's own timestamp is that
    sample's count; at or before the first timestamp it is the first count
    and at or after the last the last count; and with counts that never
    decrease it stays between the first and the last count at every time. *)
Theorem interpCount_exact_clamped (points : list DataPoint) (p0 pn : DataPoint) :
  ascending points → head points = Some p0 → last points = Some pn →
  (∀ (i : nat) p, points !! i = Some p →
     interpCount points (timestamp p) = Ok (inject_Z (count p))) ∧
  (∀ t, t ≤ timestamp p0 → interpCount points t = Ok (inject_Z (count p0))) ∧
  (∀ t, timestamp pn ≤ t → interpCount points t = Ok (inject_Z (count pn))) ∧
  (nondecreasing points →
   ∀ t, ∃ v, interpCount points t = Ok v ∧
             (inject_Z (count p0) <= v)%Q ∧ (v <= inject_Z (count pn))%Q).
Proof.
  intros Hs H0 Hn. split_and!.
  - intros i p Hp. by eapply interpCount_exact.
  - intros t Ht. by destruct (interpCount_clamp points p0 pn t Hs H0 Hn) as [H _]; apply H.
  - intros t Ht. by destruct (interpCount_clamp points p0 pn t Hs H0 Hn) as [_ H]; apply H.
  - intros Hc t. by apply interpCount_within.
Qed.

Lemma interpCount_exact_clamped_witness :
  (∀ (i : nat) p, scenario 0 !! i = Some p →
     interpCount (scenario 0) (timestamp p) = Ok (inject_Z (count p))) ∧
  (∀ t, t ≤ timestamp (mkPoint 0 0) →
     interpCount (scenario 0) t = Ok (inject_Z (count (mkPoint 0 0)))) ∧
  (∀ t, timestamp (mkPoint 5400000 40) ≤ t →
     interpCount (scenario 0) t = Ok (inject_Z (count (mkPoint 5400000 40)))) ∧
  (nondecreasing (scenario 0) →
   ∀ t, ∃ v, interpCount (scenario 0) t = Ok v ∧
             (inject_Z (count (mkPoint 0 0)) <= v)%Q ∧
             (v <= inject_Z (count (mkPoint 5400000 40)))%Q).
Proof.
  apply (interpCount_exact_clamped (scenario 0) (mkPoint 0 0) (mkPoint 5400000 40)).
  - unfold ascending, scenario. repeat constructor; simpl; lia.
  - reflexivity.
  - reflexivity.
Defined.


(** X9. What the peak is, on any rows: with fewer than two points 0, and
    otherwise the least number that is not negative and not below the
    growth over any one-hour window ending at a sample, the count at either
    end of the window being the interpolated one. *)
Theorem peakHourly_least_bound (points : list DataPoint) :
  ((length points < 2)%nat → peakHourly points = Ok 0%Q) ∧
  ∃ v, peakHourly points = Ok v ∧ (0 <= v)%Q ∧
       ((2 ≤ length points)%nat →
        ∀ p, p ∈ points →
          ∃ cT cT0,
            interpCount points (timestamp p) = Ok cT ∧
            interpCount points (timestamp p - oneHourMs) = Ok cT0 ∧
            (cT - cT0 <= v)%Q) ∧
       (∀ b, (0 <= b)%Q →
          (∀ p cT cT0, p ∈ points →
             interpCount points (timestamp p) = Ok cT →
             interpCount points (timestamp p - oneHourMs) = Ok cT0 →
             (cT - cT0 <= b)%Q) →
          (v <= b)%Q).
Proof.
  split.
  - intros Hshort. unfold peakHourly.
    by destruct (Nat.ltb_spec (length points) 2); [|lia].
  - destruct (peakHourly_max points) as (v & Hrun & Hv0 & Hupper & Hleast).
    exists v. split_and!; [done|done| |done].
    intros Hlen p Hp.
    assert (Hne : points ≠ []) by (intros ->; by apply elem_of_nil in Hp).
    destruct (interpCount_any points (timestamp p) Hne) as (cT & HT & _).
    destruct (interpCount_any points (timestamp p - oneHourMs) Hne) as (cT0 & HT0 & _).
    exists cT, cT0. split_and!; [done|done|]. by eapply Hupper.
Qed.

End RobustProofs.

(** ** The chart: range filter, bucket grid, lossless resampling *)

Section ChartProofs.
Import Stats Resampler Chart.

Lemma filter_all {A} (P : A → Prop) `{∀ x, Decision (P x)} (l : list A) :
  Forall P l → filter P l = l.
Proof.
  induction 1 as [|x l Hx Hl IH]; [done|].
  rewrite filter_cons. destruct (decide (P x)); [|done]. by rewrite IH.
Qed.

Lemma sorted_filter {A} (R : relation A) (P : A → Prop) `{∀ x, Decision (P x)}
    (l : list A) :
  StronglySorted R l → StronglySorted R (filter P l).
Proof.
  induction 1 as [|x l Hl IH Hx]; [constructor|].
  rewrite filter_cons. destruct (decide (P x)); [|done].
  constructor; [done|]. rewrite Forall_forall in *.
  intros y Hy. apply Hx. by apply list_elem_of_filter in Hy as [_ Hy].
Qed.

(** On chronological data the points at or after a cutoff form a suffix. *)
Lemma filter_cutoff_suffix (c : Z) (l : list DataPoint) :
  chronological l → filter (λ d, c ≤ timestamp d) l `suffix_of` l.
Proof.
  induction 1 as [|a l Hl IH Ha]; [done|].
  rewrite filter_cons. destruct (decide (c ≤ timestamp a)) as [Hc|Hc].
  - rewrite (filter_all _ l); [done|].
    eapply Forall_impl; [exact Ha|]. intros x Hx. simpl in Hx. lia.
  - by apply suffix_cons_r.
Qed.

Lemma filter_cutoff_nested (c1 c2 : Z) (l : list DataPoint) :
  chronological l → c1 ≤ c2 →
  filter (λ d, c2 ≤ timestamp d) l `suffix_of` filter (λ d, c1 ≤ timestamp d) l.
Proof.
  intros Hl Hc.
  assert (filter (λ d, c2 ≤ timestamp d) l
          = filter (λ d, c2 ≤ timestamp d) (filter (λ d, c1 ≤ timestamp d) l)) as ->.
  { rewrite list_filter_filter. apply list_filter_iff. intros x. lia. }
  apply filter_cutoff_suffix. by apply sorted_filter.
Qed.

(** X10. The range filter on chronological data: the whole series for
    'all', and for the other ranges the points from the first one at or
    after the cutoff on, so that each shorter range shows a final stretch
    of the next longer one; a point is kept exactly when it is not older
    than the range. *)
Theorem getFilteredData_nested (now : Z) (data : list DataPoint) :
  chronological data →
  getFilteredData Live.RangeAll now data = data ∧
  getFilteredData Live.Range7d now data `suffix_of` data ∧
  getFilteredData Live.Range24h now data `suffix_of` getFilteredData Live.Range7d now data ∧
  getFilteredData Live.Range1h now data `suffix_of` getFilteredData Live.Range24h now data ∧
  (∀ p, p ∈ getFilteredData Live.Range7d now data
        ↔ p ∈ data ∧ now - timestamp p ≤ 7 * day) ∧
  (∀ p, p ∈ getFilteredData Live.Range24h now data
        ↔ p ∈ data ∧ now - timestamp p ≤ day) ∧
  (∀ p, p ∈ getFilteredData Live.Range1h now data
        ↔ p ∈ data ∧ now - timestamp p ≤ hour) ∧
  (∀ r, chronological (getFilteredData r now data)).
Proof.
  intros Hd. unfold getFilteredData. cbv zeta. split_and!.
  - done.
  - by apply filter_cutoff_suffix.
  - apply filter_cutoff_nested; [done|lia].
  - apply filter_cutoff_nested; [done|lia].
  - intros p. rewrite list_elem_of_filter. unfold day, hour, minute. split; intros [? ?]; split; (done || lia).
  - intros p. rewrite list_elem_of_filter. unfold day, hour, minute. split; intros [? ?]; split; (done || lia).
  - intros p. rewrite list_elem_of_filter. unfold day, hour, minute. split; intros [? ?]; split; (done || lia).
  - intros []; [done|by apply sorted_filter..].
Qed.

Lemma getFilteredData_nested_witness :
  getFilteredData Live.RangeAll (10 * day) daily = daily ∧
  getFilteredData Live.Range7d (10 * day) daily `suffix_of` daily ∧
  getFilteredData Live.Range24h (10 * day) daily
    `suffix_of` getFilteredData Live.Range7d (10 * day) daily ∧
  getFilteredData Live.Range1h (10 * day) daily
    `suffix_of` getFilteredData Live.Range24h (10 * day) daily ∧
  (∀ p, p ∈ getFilteredData Live.Range7d (10 * day) daily
        ↔ p ∈ daily ∧ 10 * day - timestamp p ≤ 7 * day) ∧
  (∀ p, p ∈ getFilteredData Live.Range24h (10 * day) daily
        ↔ p ∈ daily ∧ 10 * day - timestamp p ≤ day) ∧
  (∀ p, p ∈ getFilteredData Live.Range1h (10 * day) daily
        ↔ p ∈ daily ∧ 10 * day - timestamp p ≤ hour) ∧
  (∀ r, chronological (getFilteredData r (10 * day) daily)).
Proof.
  apply (getFilteredData_nested (10 * day) daily).
  unfold chronological, daily. cbn [fmap list_fmap seq].
  repeat constructor; vm_compute; congruence.
Defined.

(** However long the span, the grid has at most 360 buckets. *)
Lemma bucket_count (span : Z) : span / bucketWidth span < 360.
Proof.
  pose proof (bucketWidth_pos span) as Hpos.
  apply Z.div_lt_upper_bound; [done|].
  destruct (Z.le_gt_cases span (7 * day)) as [Hshort|Hlong].
  - unfold bucketWidth in *.
    destruct (Z.leb_spec span hour); [unfold day, hour, minute in *; lia|].
    destruct (Z.leb_spec span day); [unfold day, hour, minute in *; lia|].
    destruct (Z.leb_spec span (7 * day)); [unfold day, hour, minute in *; lia|lia].
  - rewrite (bucketWidth_long span) in * by lia. cbv zeta in *.
    remember (Z.max ((span + 239) / 240) hour) as w eqn:Hw.
    assert (Hw1 : span ≤ 240 * w) by (subst w; Z.div_mod_to_equations; lia).
    assert (Hw2 : hour ≤ w) by lia.
    pose proof (nearest_div w hour ltac:(unfold hour, minute; lia)) as Hh. cbv zeta in Hh.
    remember ((2 * w + hour) / (2 * hour)) as h eqn:Hhdef.
    assert (Hh1 : 1 ≤ h).
    { subst h. apply Z.div_le_lower_bound; unfold hour, minute in *; lia. }
    assert (Hhour : 0 < hour) by (unfold hour, minute; lia).
    destruct (Z.leb_spec h 24) as [Hle|Hgt].
    + nia.
    + pose proof (nearest_div h 24 ltac:(lia)) as Hd. cbv zeta in Hd.
      replace (2 * 24) with 48 in Hd by lia.
      remember ((2 * h + 24) / 48) as d eqn:Hddef.
      assert (Hd1 : 1 ≤ d) by (subst d; apply Z.div_le_lower_bound; lia).
      rewrite Z.max_r by lia. unfold day. nia.
Qed.

(** X11. The chart has at most 360 buckets, whatever the series: 360
    rounds are enough for the resampler to return, on any input, and the
    result is not longer than that. A series spanning just under fifteen
    days fills all 360. *)
Theorem resampleTimeSeries_size (points : list DataPoint) :
  (∃ buckets,
     (∀ fuel, (360 ≤ fuel)%nat → resampleTimeSeries fuel points = Some buckets) ∧
     (length buckets ≤ 360)%nat ∧
     (points ≠ [] → chronological points → (1 ≤ length buckets)%nat)) ∧
  (length <$> resampleTimeSeries 360 [mkPoint 0 0; mkPoint (240 * 5399999) 1])
    = Some 360%nat.
Proof.
  split; [|vm_compute; reflexivity].
  unfold resampleTimeSeries.
  destruct points as [|p0 rest]; [exists []; split_and!; [done|simpl; lia|done]|].
  assert (is_Some (last (p0 :: rest))) as [pn Hn] by (by rewrite last_is_Some).
  rewrite Hn.
  remember (bucketWidth (timestamp pn - timestamp p0)) as w eqn:Hw.
  assert (Hpos : 0 < w) by (subst w; apply bucketWidth_pos).
  pose proof (bucket_count (timestamp pn - timestamp p0)) as Hcount. rewrite <- Hw in Hcount.
  assert (Hrounds : (rounds (timestamp pn) w (timestamp p0) ≤ 360)%nat).
  { unfold rounds. destruct (Z.leb_spec (timestamp p0) (timestamp pn)); lia. }
  destruct (fill_spec (p0 :: rest) (timestamp pn) w _ Hpos (timestamp p0) 0%nat [] []
              (Nat.le_refl _)) as (bs & js & Hfill & _ & Hlen & _).
  exists bs. split_and!.
  - intros fuel Hfuel. eapply fill_fuel; [exact Hfill|lia].
  - lia.
  - intros _ Hchron. rewrite Hlen. unfold rounds.
    assert (timestamp p0 ≤ timestamp pn).
    { apply StronglySorted_inv in Hchron as [_ Hall]. rewrite Forall_forall in Hall.
      destruct rest as [|p1 rest']; [simpl in Hn; by simplify_eq|].
      apply (Hall pn). change (last (p0 :: p1 :: rest')) with (last (p1 :: rest')) in Hn.
      by apply last_Some_elem_of. }
    destruct (Z.leb_spec (timestamp p0) (timestamp pn)); lia.
Qed.

Lemma skipBefore_stay rest bucketStart j :
  (∀ p, head rest = Some p → bucketStart ≤ timestamp p) →
  skipBefore rest bucketStart j = j.
Proof.
  destruct rest as [|p rest]; [done|]. intros Hp. simpl.
  specialize (Hp p eq_refl). destruct (Z.ltb_spec (timestamp p) bucketStart); [lia|done].
Qed.

(** The walk over points that all sit on the grid: every point from index
    [j] on gets a bucket of its own. *)
Lemma fill_aligned points lastTs w fuel :
  0 < w → ascending points →
  (∀ p, p ∈ points → timestamp p ≤ lastTs) →
  ∀ t j resampled,
    (rounds lastTs w t ≤ fuel)%nat →
    (∀ (i : nat) p, points !! i = Some p → (j ≤ i)%nat →
       t ≤ timestamp p ∧ (w | timestamp p - t)) →
    ∃ bs, fill fuel points lastTs w t j resampled = Some (resampled ++ bs) ∧
          omap b_count bs = count <$> drop j points ∧
          length bs = rounds lastTs w t.
Proof.
  intros Hw Hs Hlast.
  induction fuel as [|fuel IH]; intros t j resampled Hfuel Hgrid.
  - unfold rounds in Hfuel. destruct (Z.leb_spec t lastTs) as [Hle|Hgt]; [lia|].
    simpl. destruct (Z.leb_spec t lastTs); [lia|].
    exists []. split; [by rewrite app_nil_r|].
    split; [|unfold rounds; by destruct (Z.leb_spec t lastTs); [lia|]].
    destruct (drop j points) as [|p rest] eqn:Hdrop; [done|].
    assert (points !! j = Some p) as Hj.
    { rewrite <- (Nat.add_0_r j), <- lookup_drop, Hdrop. done. }
    destruct (Hgrid j p Hj (Nat.le_refl _)) as [Ht _].
    assert (timestamp p ≤ lastTs) by (apply Hlast; by eapply list_elem_of_lookup_2). lia.
  - cbn [fill]. destruct (Z.leb_spec t lastTs) as [Hle|Hgt].
    2:{ exists []. split; [by rewrite app_nil_r|].
        split; [|unfold rounds; by destruct (Z.leb_spec t lastTs); [lia|]].
        destruct (drop j points) as [|p rest] eqn:Hdrop; [done|].
        assert (points !! j = Some p) as Hj.
        { rewrite <- (Nat.add_0_r j), <- lookup_drop, Hdrop. done. }
        destruct (Hgrid j p Hj (Nat.le_refl _)) as [Ht _].
        assert (timestamp p ≤ lastTs) by (apply Hlast; by eapply list_elem_of_lookup_2). lia. }
    rewrite (rounds_step lastTs w t Hw Hle) in Hfuel |- *.
    assert (advance points t j = j) as ->.
    { unfold advance. apply skipBefore_stay. intros p Hp.
      rewrite head_lookup, lookup_drop, Nat.add_0_r in Hp.
      by destruct (Hgrid j p Hp (Nat.le_refl _)). }
    destruct (points !! j) as [p|] eqn:Hj.
    + destruct (Hgrid j p Hj (Nat.le_refl _)) as [Ht Hdiv].
      destruct (Z.leb_spec t (timestamp p)); [|lia]. cbn [andb].
      destruct (Z.ltb_spec (timestamp p) (t + w)) as [Hin|Hout].
      * assert (timestamp p = t) as Hp.
        { destruct (decide (0 < timestamp p - t)) as [Hgap|]; [|lia].
          pose proof (Z.divide_pos_le _ _ Hgap Hdiv). lia. }
        destruct (IH (t + w) (S j) (resampled ++ [mkBucket t (Some (count p))]))
          as (bs & Hrun & Hbs & Hlen); [lia| |].
        { intros i q Hq Hi.
          destruct (Hgrid i q Hq ltac:(lia)) as [_ Hdiv'].
          assert (timestamp p < timestamp q) by (eapply (ascending_lt points j i); eauto; lia).
          assert (0 < timestamp q - t) as Hgap by lia.
          pose proof (Z.divide_pos_le _ _ Hgap Hdiv').
          split; [lia|]. destruct Hdiv' as [m' Hm']. exists (m' - 1). lia. }
        exists (mkBucket t (Some (count p)) :: bs). split.
        { rewrite Hrun, <- app_assoc. done. }
        split; [|cbn [length]; by rewrite Hlen].
        cbn [omap list_omap b_count]. rewrite Hbs.
        by rewrite (drop_S _ _ _ Hj).
      * destruct (IH (t + w) j (resampled ++ [mkBucket t None]))
          as (bs & Hrun & Hbs & Hlen); [lia| |].
        { intros i q Hq Hi.
          destruct (Hgrid i q Hq Hi) as [_ [m' Hm']].
          assert (timestamp p ≤ timestamp q).
          { destruct (decide (i = j)) as [->|]; [by simplify_eq|].
            assert (timestamp p < timestamp q); [|lia].
            eapply (ascending_lt points j i); eauto; lia. }
          split; [lia|]. exists (m' - 1). lia. }
        exists (mkBucket t None :: bs). split.
        { rewrite Hrun, <- app_assoc. done. }
        split; [done|cbn [length]; by rewrite Hlen].
    + destruct (IH (t + w) j (resampled ++ [mkBucket t None]))
        as (bs & Hrun & Hbs & Hlen); [lia| |].
      { intros i q Hq Hi. apply lookup_ge_None in Hj. apply lookup_lt_Some in Hq. lia. }
      exists (mkBucket t None :: bs). split.
      { rewrite Hrun, <- app_assoc. done. }
      split; [|cbn [length]; by rewrite Hlen].
      apply lookup_ge_None in Hj. rewrite drop_ge in Hbs |- * by lia. done.
Qed.

Lemma length_omap_le {A B} (f : A → option B) (l : list A) :
  (length (omap f l) ≤ length l)%nat.
Proof.
  induction l as [|x l IH]; [done|]. cbn [omap list_omap length].
  fold (omap f l). destruct (f x); cbn [length]; lia.
Qed.

Lemma bucket_count_week (span : Z) : span ≤ 7 * day → span / bucketWidth span ≤ 168.
Proof.
  intros Hspan. pose proof (bucketWidth_pos span) as Hpos.
  assert (span / bucketWidth span < 169); [|lia].
  apply Z.div_lt_upper_bound; [done|].
  unfold bucketWidth in *.
  destruct (Z.leb_spec span hour); [unfold day, hour, minute in *; lia|].
  destruct (Z.leb_spec span day); [unfold day, hour, minute in *; lia|].
  destruct (Z.leb_spec span (7 * day)); [unfold day, hour, minute in *; lia|lia].
Qed.

Lemma bucketWidth_divides_hour (span : Z) : span ≤ 7 * day → (bucketWidth span | hour).
Proof.
  intros Hspan. unfold bucketWidth.
  destruct (Z.leb_spec span hour); [by exists 60|].
  destruct (Z.leb_spec span day); [by exists 6|].
  destruct (Z.leb_spec span (7 * day)); [by exists 1|lia].
Qed.

Lemma hourlyData_ascending zone allRows :
  ascending (Hourly.hourlyData zone allRows).
Proof.
  unfold ascending, Hourly.hourlyData.
  eapply StronglySorted_fmap; [|apply entries_strict]. by intros a b.
Qed.

Lemma hourlyData_on_the_hour zone offset allRows p :
  Hourly.steady zone offset allRows →
  p ∈ Hourly.hourlyData zone allRows → (timestamp p + offset) mod Hourly.hourMs = 0.
Proof.
  intros Hsteady Hp%elem_of_hourlyData.
  assert (is_Some (Hourly.lastInHour zone allRows (timestamp p))) as Hsome by (by rewrite Hp).
  apply lastInHour_Some in Hsome as (row & Hin & <-).
  by apply (steady_top zone offset allRows).
Qed.

Lemma ascending_last_max points pn p :
  ascending points → last points = Some pn → p ∈ points → timestamp p ≤ timestamp pn.
Proof.
  intros Hs Hn Hp. apply last_lookup_index in Hn.
  apply list_elem_of_lookup in Hp as [i Hi].
  apply lookup_lt_Some in Hi as Hlt.
  destruct (decide (i = length points - 1)%nat) as [->|]; [by simplify_eq|].
  assert (timestamp p < timestamp pn); [|lia].
  eapply (ascending_lt points i (length points - 1)); eauto. lia.
Qed.

(** On an ordered series whose points all sit on the bucket grid the
    resampler gives every point a bucket of its own. *)
Lemma resample_aligned points p0 pn :
  ascending points → head points = Some p0 → last points = Some pn →
  (∀ p, p ∈ points →
     (bucketWidth (timestamp pn - timestamp p0) | timestamp p - timestamp p0)) →
  ∃ buckets,
    (∀ fuel, (360 ≤ fuel)%nat → resampleTimeSeries fuel points = Some buckets) ∧
    omap b_count buckets = count <$> points ∧
    Z.of_nat (length buckets)
      = (timestamp pn - timestamp p0) / bucketWidth (timestamp pn - timestamp p0) + 1.
Proof.
  intros Hs H0 Hn Hgrid. unfold resampleTimeSeries.
  destruct points as [|p0' rest]; [done|]. injection H0 as ->. rewrite Hn.
  remember (bucketWidth (timestamp pn - timestamp p0)) as w eqn:Hw.
  assert (Hpos : 0 < w) by (subst w; apply bucketWidth_pos).
  pose proof (bucket_count (timestamp pn - timestamp p0)) as Hcount. rewrite <- Hw in Hcount.
  assert (Hrounds : (rounds (timestamp pn) w (timestamp p0) ≤ 360)%nat).
  { unfold rounds. destruct (Z.leb_spec (timestamp p0) (timestamp pn)); lia. }
  destruct (fill_aligned (p0 :: rest) (timestamp pn) w _ Hpos Hs
              (λ p, ascending_last_max _ pn p Hs Hn) (timestamp p0) 0%nat []
              (Nat.le_refl _)) as (bs & Hfill & Hbs & Hlen).
  { intros i p Hp _. split; [|apply Hgrid; by eapply list_elem_of_lookup_2].
    destruct i as [|i]; [simpl in Hp; simplify_eq; lia|].
    assert (timestamp p0 < timestamp p); [|lia].
    eapply (ascending_lt (p0 :: rest) 0 (S i)); eauto. lia. }
  exists bs. split; [|split; [done|]].
  - intros fuel Hfuel. eapply fill_fuel; [exact Hfill|lia].
  - rewrite Hlen. unfold rounds.
    assert (timestamp p0 ≤ timestamp pn).
    { eapply ascending_last_max; [done..|by left]. }
    destruct (Z.leb_spec (timestamp p0) (timestamp pn)); [|lia].
    rewrite Nat2Z.inj_add, Z2Nat.id; [lia|]. apply Z.div_pos; lia.
Qed.

(** X12. From rows to chart, where the visitor's clock keeps one distance
    from UTC over the rows (no clock change among them): the hourly
    series, cut to any range, is resampled without loss whenever what is
    left spans at most seven days. The buckets that show a count show the
    counts of the hourly samples in the range, all of them, each once and
    in order. *)
Theorem chart_keeps_every_hour (zone : Hourly.Zone) (offset now : Z)
    (timeRange : Live.TimeRange) (allRows : list DataPoint) (p0 pn : DataPoint) :
  let filtered := getFilteredData timeRange now (Hourly.hourlyData zone allRows) in
  Hourly.steady zone offset allRows →
  head filtered = Some p0 → last filtered = Some pn →
  timestamp pn - timestamp p0 ≤ 7 * day →
  ∃ buckets,
    (∀ fuel, (360 ≤ fuel)%nat → resampleTimeSeries fuel filtered = Some buckets) ∧
    omap b_count buckets = count <$> filtered ∧
    (length filtered ≤ length buckets ≤ 169)%nat.
Proof.
  intros filtered Hsteady H0 Hn Hspan.
  assert (Hs : ascending filtered).
  { subst filtered. unfold getFilteredData.
    destruct timeRange; [apply hourlyData_ascending|apply sorted_filter, hourlyData_ascending..]. }
  assert (Hsub : ∀ p, p ∈ filtered → p ∈ Hourly.hourlyData zone allRows).
  { subst filtered. unfold getFilteredData. intros p.
    destruct timeRange; [done|rewrite list_elem_of_filter; tauto..]. }
  assert (Hgrid : ∀ p, p ∈ filtered → (hour | timestamp p - timestamp p0)).
  { intros p Hp.
    pose proof (hourlyData_on_the_hour zone offset allRows p Hsteady (Hsub p Hp)) as Ha.
    assert (p0 ∈ filtered) as H0' by (destruct filtered; simplify_eq/=; by left).
    pose proof (hourlyData_on_the_hour zone offset allRows p0 Hsteady (Hsub p0 H0')) as Hb.
    change Hourly.hourMs with hour in *.
    apply Z.mod_divide in Ha, Hb; try (unfold hour, minute; lia).
    replace (timestamp p - timestamp p0)
      with ((timestamp p + offset) - (timestamp p0 + offset)) by lia.
    by apply Z.divide_sub_r. }
  destruct (resample_aligned filtered p0 pn Hs H0 Hn) as (buckets & Hrun & Hcounts & Hlen).
  { intros p Hp. eapply Z.divide_trans; [by apply bucketWidth_divides_hour|by apply Hgrid]. }
  exists buckets. split; [done|]. split; [done|].
  split.
  - rewrite <- (length_fmap count filtered), <- Hcounts. apply length_omap_le.
  - pose proof (bucket_count_week _ Hspan). lia.
Qed.

Lemma chart_keeps_every_hour_witness :
  ∃ buckets,
    (∀ fuel, (360 ≤ fuel)%nat →
       resampleTimeSeries fuel
         (getFilteredData Live.Range24h 5400000
            (Hourly.hourlyData (Hourly.fixedZone 0) (scenario 0)))
       = Some buckets) ∧
    omap b_count buckets
      = count <$> getFilteredData Live.Range24h 5400000
                    (Hourly.hourlyData (Hourly.fixedZone 0) (scenario 0)) ∧
    (length (getFilteredData Live.Range24h 5400000
               (Hourly.hourlyData (Hourly.fixedZone 0) (scenario 0)))
       ≤ length buckets ≤ 169)%nat.
Proof.
  apply (chart_keeps_every_hour (Hourly.fixedZone 0) 0 5400000 Live.Range24h (scenario 0)
           (mkPoint 0 10) (mkPoint 3600000 40)).
  - unfold Hourly.steady, scenario. repeat constructor.
  - vm_compute. reflexivity.
  - vm_compute. reflexivity.
  - vm_compute. congruence.
Defined.

(** Across a clock change of half an hour the hourly samples leave the
    grid of whole hours: on Lord Howe Island the samples of 15:30Z and of
    16:00Z of 2025-10-04 fall into one bucket of the chart, which shows
    the first of them only. *)
Example chart_drops_an_hour :
  Hourly.hourlyData Hourly.lordHowe Hourly.spring_rows
    = [mkPoint 1759501800000 1; mkPoint 1759591800000 2; mkPoint 1759593600000 3] ∧
  fmap (M := option) (omap b_count)
    (resampleTimeSeries 360 (Hourly.hourlyData Hourly.lordHowe Hourly.spring_rows))
    = Some [1; 2].
Proof. split; vm_compute; reflexivity. Qed.

Lemma skipBefore_spec rest t :
  ∀ j,
    (∀ (k : nat) p, rest !! k = Some p → (j + k < skipBefore rest t j)%nat →
       timestamp p < t) ∧
    (∀ p, rest !! (skipBefore rest t j - j)%nat = Some p → t ≤ timestamp p).
Proof.
  induction rest as [|q rest IH]; intros j; [done|].
  cbn [skipBefore]. destruct (Z.ltb_spec (timestamp q) t) as [Hlt|Hge].
  - destruct (IH (S j)) as [Hskip Hstop].
    pose proof (skipBefore_ge rest t (S j)) as Hge.
    split.
    + intros [|k] p Hp Hk; [by simplify_eq/=|].
      apply (Hskip k p); [done|lia].
    + intros p Hp. apply Hstop.
      replace (skipBefore rest t (S j) - j)%nat
        with (S (skipBefore rest t (S j) - S j)) in Hp by lia. done.
  - split; [intros; lia|]. intros p. rewrite Nat.sub_diag. intros [= <-]. done.
Qed.

Lemma advance_spec points t j :
  (∀ (i : nat) p, points !! i = Some p → (j ≤ i < advance points t j)%nat →
     timestamp p < t) ∧
  (∀ p, points !! advance points t j = Some p → t ≤ timestamp p).
Proof.
  unfold advance. destruct (skipBefore_spec (drop j points) t j) as [Hskip Hstop].
  pose proof (skipBefore_ge (drop j points) t j) as Hge.
  split.
  - intros i p Hp Hi. apply (Hskip (i - j)%nat p); [|lia].
    rewrite lookup_drop. by replace (j + (i - j))%nat with i by lia.
  - intros p Hp. apply Hstop. rewrite lookup_drop.
    by replace (j + (skipBefore (drop j points) t j - j))%nat
      with (skipBefore (drop j points) t j) by lia.
Qed.

(** On chronological points a bucket is left empty only when no point
    falls into it. *)
Lemma fill_complete points lastTs w fuel :
  0 < w → chronological points →
  ∀ t j resampled,
    (rounds lastTs w t ≤ fuel)%nat →
    (∀ (i : nat) p, points !! i = Some p → (i < j)%nat → timestamp p < t) →
    ∃ bs, fill fuel points lastTs w t j resampled = Some (resampled ++ bs) ∧
          ∀ b, b ∈ bs → b_count b = None →
               ∀ p, p ∈ points → ¬ (b_timestamp b ≤ timestamp p < b_timestamp b + w).
Proof.
  intros Hw Hs.
  induction fuel as [|fuel IH]; intros t j resampled Hfuel Hpast.
  - unfold rounds in Hfuel. destruct (Z.leb_spec t lastTs) as [Hle|Hgt]; [lia|].
    simpl. destruct (Z.leb_spec t lastTs); [lia|].
    exists []. split; [by rewrite app_nil_r|]. by intros b Hb%elem_of_nil.
  - cbn [fill]. destruct (Z.leb_spec t lastTs) as [Hle|Hgt].
    2:{ exists []. split; [by rewrite app_nil_r|]. by intros b Hb%elem_of_nil. }
    rewrite (rounds_step lastTs w t Hw Hle) in Hfuel.
    destruct (advance_spec points t j) as [Hskip Hstop].
    pose proof (advance_ge points t j) as Hadv.
    remember (advance points t j) as j' eqn:Hj'.
    assert (Hbefore : ∀ (i : nat) p, points !! i = Some p → (i < j')%nat → timestamp p < t).
    { intros i p Hp Hi. destruct (decide (i < j)%nat); [by eapply Hpast|].
      eapply Hskip; [done|lia]. }
    assert (Hempty : ∀ resampled',
              (∀ p, points !! j' = Some p → t + w ≤ timestamp p) →
              ∃ bs, fill fuel points lastTs w (t + w) j' resampled'
                    = Some (resampled' ++ bs) ∧
                    ∀ b, b ∈ mkBucket t None :: bs → b_count b = None →
                         ∀ p, p ∈ points →
                              ¬ (b_timestamp b ≤ timestamp p < b_timestamp b + w)).
    { intros resampled' Hnext.
      destruct (IH (t + w) j' resampled') as (bs & Hrun & Hbs); [lia| |].
      { intros i p Hp Hi. specialize (Hbefore i p Hp Hi). lia. }
      exists bs. split; [done|].
      intros b [->|Hb]%elem_of_cons Hnone p Hp; [|by eapply Hbs].
      cbn [b_timestamp]. apply list_elem_of_lookup in Hp as [i Hi].
      destruct (decide (i < j')%nat) as [Hlt|Hge].
      - specialize (Hbefore i p Hi Hlt). lia.
      - destruct (lookup_lt_is_Some_2 points j') as [pj Hpj].
        { apply lookup_lt_Some in Hi. lia. }
        specialize (Hnext pj Hpj).
        assert (timestamp pj ≤ timestamp p); [|lia].
        destruct (decide (i = j')) as [->|]; [by simplify_eq|].
        apply (sorted_lookup (λ a b, timestamp a ≤ timestamp b) points j' i); auto. lia. }
    destruct (points !! j') as [p|] eqn:Hp.
    + specialize (Hstop p eq_refl).
      destruct (Z.leb_spec t (timestamp p)); [|lia]. cbn [andb].
      destruct (Z.ltb_spec (timestamp p) (t + w)) as [Hin|Hout].
      * destruct (IH (t + w) (S j') (resampled ++ [mkBucket t (Some (count p))]))
          as (bs & Hrun & Hbs); [lia| |].
        { intros i q Hq Hi. destruct (decide (i = j')) as [->|]; [by simplify_eq|].
          assert (timestamp q < t); [|lia]. eapply Hbefore; [done|lia]. }
        exists (mkBucket t (Some (count p)) :: bs). split.
        { rewrite Hrun, <- app_assoc. done. }
        intros b [->|Hb]%elem_of_cons Hnone; [done|by apply Hbs].
      * destruct (Hempty (resampled ++ [mkBucket t None])) as (bs & Hrun & Hbs).
        { intros p' [= <-]. done. }
        exists (mkBucket t None :: bs). split; [|done].
        rewrite Hrun, <- app_assoc. done.
    + destruct (Hempty (resampled ++ [mkBucket t None])) as (bs & Hrun & Hbs); [done|].
      exists (mkBucket t None :: bs). split; [|done].
      rewrite Hrun, <- app_assoc. done.
Qed.

(** The resampler on chronological points, with what the walk leaves
    empty: the grid, the buckets that show a count, and the first bucket. *)
Lemma resample_complete points p0 pn :
  chronological points → head points = Some p0 → last points = Some pn →
  let width := bucketWidth (timestamp pn - timestamp p0) in
  ∃ buckets,
    (∀ fuel, (360 ≤ fuel)%nat → resampleTimeSeries fuel points = Some buckets) ∧
    Z.of_nat (length buckets) = (timestamp pn - timestamp p0) / width + 1 ∧
    (∀ (k : nat) b, buckets !! k = Some b →
       b_timestamp b = timestamp p0 + Z.of_nat k * width) ∧
    (∀ b, b ∈ buckets →
       (b_count b = None
        ↔ ∀ p, p ∈ points → ¬ (b_timestamp b ≤ timestamp p < b_timestamp b + width))).
Proof.
  intros Hs H0 Hn width. unfold resampleTimeSeries.
  destruct points as [|p0' rest]; [done|]. injection H0 as ->. rewrite Hn.
  fold width.
  assert (Hpos : 0 < width) by apply bucketWidth_pos.
  pose proof (bucket_count (timestamp pn - timestamp p0)) as Hcount. fold width in Hcount.
  assert (Hle : timestamp p0 ≤ timestamp pn).
  { apply last_lookup_index in Hn. cbn [length] in Hn.
    destruct rest as [|p1 rest']; [simpl in Hn; simplify_eq; lia|].
    apply (sorted_lookup (λ a b, timestamp a ≤ timestamp b) (p0 :: p1 :: rest')
             0 (S (length rest')) p0 pn Hs); [done| |lia].
    by replace (S (length rest')) with (S (S (length rest')) - 1)%nat by lia. }
  assert (Hrounds : (rounds (timestamp pn) width (timestamp p0) ≤ 360)%nat).
  { unfold rounds. destruct (Z.leb_spec (timestamp p0) (timestamp pn)); lia. }
  destruct (fill_spec (p0 :: rest) (timestamp pn) width _ Hpos (timestamp p0) 0%nat [] []
              Hrounds) as (bs & js & Hfill & _ & Hlen & Hagree & _ & Hgrid).
  destruct (fill_complete (p0 :: rest) (timestamp pn) width _ Hpos Hs (timestamp p0) 0%nat []
              Hrounds) as (bs' & Hfill' & Hfull); [intros; lia|].
  rewrite app_nil_l in Hfill, Hfill'.
  assert (bs' = bs) as -> by congruence.
  exists bs. split_and!.
  - intros fuel Hfuel. by eapply fill_fuel.
  - rewrite Hlen. unfold rounds.
    destruct (Z.leb_spec (timestamp p0) (timestamp pn)); [|lia].
    rewrite Nat2Z.inj_add, Z2Nat.id; [lia|]. apply Z.div_pos; lia.
  - done.
  - intros b Hb. split; [by apply Hfull|].
    intros Hnone. apply list_elem_of_lookup in Hb as [k Hk].
    destruct (Forall2_lookup_l _ _ _ _ _ Hagree Hk) as (taken & _ & Htaken).
    destruct taken as [j|]; [|done].
    destruct Htaken as (p & Hp & _ & Hin). destruct (Hnone p); [|done].
    by eapply list_elem_of_lookup_2.
Qed.

(** The first bucket starts at the first timestamp and the last bucket
    holds the last one: both show a count. *)
Lemma resample_ends points p0 pn buckets :
  chronological points → head points = Some p0 → last points = Some pn →
  resampleTimeSeries 360 points = Some buckets →
  let width := bucketWidth (timestamp pn - timestamp p0) in
  (∃ b, head buckets = Some b ∧ b_timestamp b = timestamp p0 ∧ is_Some (b_count b)) ∧
  (∃ b, last buckets = Some b ∧
        b_timestamp b ≤ timestamp pn < b_timestamp b + width ∧ is_Some (b_count b)).
Proof.
  intros Hs H0 Hn Hrun360 width.
  destruct (resample_complete points p0 pn Hs H0 Hn)
    as (buckets' & Hrun & Hlen & Hgrid & Hfull).
  rewrite (Hrun 360%nat) in Hrun360 by lia. injection Hrun360 as ->.
  fold width in Hlen, Hgrid, Hfull.
  assert (Hpos : 0 < width) by apply bucketWidth_pos.
  assert (H0in : p0 ∈ points) by (destruct points; simplify_eq/=; by left).
  assert (Hnin : pn ∈ points) by (by apply last_Some_elem_of).
  assert (Hle : timestamp p0 ≤ timestamp pn).
  { apply last_lookup_index in Hn. rewrite head_lookup in H0.
    destruct (decide (length points - 1 = 0)%nat) as [Heq|Hne].
    - rewrite Heq in Hn. simplify_eq. lia.
    - apply (sorted_lookup (λ a b, timestamp a ≤ timestamp b) points
               0 (length points - 1) p0 pn Hs); [done|done|lia]. }
  assert (Hdiv : 0 ≤ (timestamp pn - timestamp p0) / width) by (apply Z.div_pos; lia).
  split.
  - destruct (lookup_lt_is_Some_2 buckets 0) as [b Hb]; [lia|].
    exists b. rewrite head_lookup. split; [done|].
    pose proof (Hgrid _ _ Hb) as Hts. split; [lia|].
    destruct (b_count b) eqn:Hc; [done|]. exfalso.
    apply (proj1 (Hfull b ltac:(by eapply list_elem_of_lookup_2)) Hc p0 H0in). lia.
  - destruct (lookup_lt_is_Some_2 buckets (length buckets - 1)) as [b Hb]; [lia|].
    exists b. rewrite last_lookup.
    replace (Nat.pred (length buckets)) with (length buckets - 1)%nat by lia.
    split; [done|].
    pose proof (Hgrid _ _ Hb) as Hts.
    assert (Hwin : b_timestamp b ≤ timestamp pn < b_timestamp b + width).
    { rewrite Hts.
      replace (Z.of_nat (length buckets - 1)) with ((timestamp pn - timestamp p0) / width) by lia.
      pose proof (Z.mul_div_le (timestamp pn - timestamp p0) width Hpos).
      pose proof (Z.mul_succ_div_gt (timestamp pn - timestamp p0) width Hpos). lia. }
    split; [done|].
    destruct (b_count b) eqn:Hc; [done|]. exfalso.
    by apply (proj1 (Hfull b ltac:(by eapply list_elem_of_lookup_2)) Hc pn Hnin).
Qed.

(** X13. On chronological points the resampler leaves a bucket empty
    exactly when no point falls into its interval. The first bucket starts
    at the first timestamp and the last one holds the last timestamp, so
    both show a count. *)
Theorem resampleTimeSeries_complete (points : list DataPoint) (p0 pn : DataPoint) :
  chronological points → head points = Some p0 → last points = Some pn →
  let width := bucketWidth (timestamp pn - timestamp p0) in
  ∃ buckets,
    (∀ fuel, (360 ≤ fuel)%nat → resampleTimeSeries fuel points = Some buckets) ∧
    (∀ b, b ∈ buckets →
       (b_count b = None
        ↔ ∀ p, p ∈ points → ¬ (b_timestamp b ≤ timestamp p < b_timestamp b + width))) ∧
    (∃ b, head buckets = Some b ∧ b_timestamp b = timestamp p0 ∧ is_Some (b_count b)) ∧
    (∃ b, last buckets = Some b ∧
          b_timestamp b ≤ timestamp pn < b_timestamp b + width ∧ is_Some (b_count b)).
Proof.
  intros Hs H0 Hn width.
  destruct (resample_complete points p0 pn Hs H0 Hn)
    as (buckets & Hrun & Hlen & Hgrid & Hfull).
  exists buckets. split; [done|]. split; [done|].
  apply (resample_ends points p0 pn buckets Hs H0 Hn). apply Hrun. lia.
Qed.

Lemma resampleTimeSeries_complete_witness :
  ∃ buckets,
    (∀ fuel, (360 ≤ fuel)%nat → resampleTimeSeries fuel four_points = Some buckets) ∧
    (∀ b, b ∈ buckets →
       (b_count b = None
        ↔ ∀ p, p ∈ four_points →
               ¬ (b_timestamp b ≤ timestamp p
                  < b_timestamp b
                    + bucketWidth (timestamp (mkPoint 200000 4) - timestamp (mkPoint 0 1))))) ∧
    (∃ b, head buckets = Some b ∧ b_timestamp b = timestamp (mkPoint 0 1) ∧
          is_Some (b_count b)) ∧
    (∃ b, last buckets = Some b ∧
          b_timestamp b ≤ timestamp (mkPoint 200000 4)
            < b_timestamp b
              + bucketWidth (timestamp (mkPoint 200000 4) - timestamp (mkPoint 0 1)) ∧
          is_Some (b_count b)).
Proof.
  apply (resampleTimeSeries_complete four_points (mkPoint 0 1) (mkPoint 200000 4)).
  - unfold chronological, four_points. repeat constructor; simpl; lia.
  - reflexivity.
  - reflexivity.
Defined.

(** The counts a walk shows are counts of points further and further
    along the series. *)
Lemma shown_sorted points w :
  nondecreasing points →
  ∀ bs js j,
    Forall2 (agrees points w) bs js → increasingFrom j js →
    StronglySorted Z.le (omap b_count bs) ∧
    Forall (λ c, ∃ (i : nat) p, (j ≤ i)%nat ∧ points !! i = Some p ∧ c = count p)
           (omap b_count bs).
Proof.
  intros Hc bs js j Hagree. revert j.
  induction Hagree as [|b taken bs js Hb Hrest IH]; intros j Hinc.
  - split; constructor.
  - cbn [omap list_omap]. fold (omap b_count bs).
    destruct taken as [j'|]; cbn [agrees increasingFrom] in Hb, Hinc.
    + destruct Hb as (p & Hp & -> & _). destruct Hinc as [Hj Hinc].
      destruct (IH (S j') Hinc) as [Hsorted Hall].
      split.
      * constructor; [done|]. eapply Forall_impl; [exact Hall|].
        intros c (i & q & Hi & Hq & ->).
        eapply (nondecreasing_le points j' i); eauto. lia.
      * constructor; [by exists j', p|].
        eapply Forall_impl; [exact Hall|].
        intros c (i & q & Hi & Hq & ->). exists i, q. split; [lia|done].
    + rewrite Hb. by apply IH.
Qed.

(** X14. With counts that never decrease along the series, the chart
    never dips: the counts of the buckets that show one never decrease from
    left to right, and each is the count of some point of the series. *)
Theorem chart_never_dips (points : list DataPoint) :
  nondecreasing points →
  ∃ buckets,
    (∀ fuel, (360 ≤ fuel)%nat → resampleTimeSeries fuel points = Some buckets) ∧
    StronglySorted Z.le (omap b_count buckets) ∧
    (∀ c, c ∈ omap b_count buckets → ∃ p, p ∈ points ∧ c = count p).
Proof.
  intros Hc. unfold resampleTimeSeries.
  destruct points as [|p0 rest].
  { exists []. split; [done|]. split; [constructor|]. by intros c Hin%elem_of_nil. }
  assert (is_Some (last (p0 :: rest))) as [pn Hn] by (by rewrite last_is_Some).
  rewrite Hn.
  remember (bucketWidth (timestamp pn - timestamp p0)) as w eqn:Hw.
  assert (Hpos : 0 < w) by (subst w; apply bucketWidth_pos).
  pose proof (bucket_count (timestamp pn - timestamp p0)) as Hcount. rewrite <- Hw in Hcount.
  assert (Hrounds : (rounds (timestamp pn) w (timestamp p0) ≤ 360)%nat).
  { unfold rounds. destruct (Z.leb_spec (timestamp p0) (timestamp pn)); lia. }
  destruct (fill_spec (p0 :: rest) (timestamp pn) w _ Hpos (timestamp p0) 0%nat [] []
              Hrounds) as (bs & js & Hfill & _ & _ & Hagree & Hinc & _).
  destruct (shown_sorted (p0 :: rest) w Hc bs js 0%nat Hagree Hinc) as [Hsorted Hall].
  exists bs. split_and!.
  - intros fuel Hfuel. by eapply fill_fuel.
  - done.
  - intros c Hin. rewrite Forall_forall in Hall.
    destruct (Hall c Hin) as (i & p & _ & Hp & ->).
    exists p. split; [by eapply list_elem_of_lookup_2|done].
Qed.

Lemma chart_never_dips_witness :
  ∃ buckets,
    (∀ fuel, (360 ≤ fuel)%nat → resampleTimeSeries fuel four_points = Some buckets) ∧
    StronglySorted Z.le (omap b_count buckets) ∧
    (∀ c, c ∈ omap b_count buckets → ∃ p, p ∈ four_points ∧ c = count p).
Proof.
  apply (chart_never_dips four_points).
  unfold nondecreasing, four_points. repeat constructor; simpl; lia.
Defined.

End ChartProofs.

(** ** The tooltip's interpolation *)

Section TooltipProofs.
Import Resampler Chart.

Lemma countAt_lookup chartData (k : nat) b :
  chartData !! k = Some b → countAt chartData (Z.of_nat k) = Ok (b_count b).
Proof.
  intros Hk. unfold countAt. destruct (Z.ltb_spec (Z.of_nat k) 0); [lia|].
  by rewrite Nat2Z.id, Hk.
Qed.

(** The scan to the left stops on the nearest bucket before [left0 + 1]
    that shows a count, or at -1. *)
Lemma scanLeft_spec chartData fuel :
  ∀ left0,
    left0 < Z.of_nat (length chartData) → (Z.to_nat (left0 + 1) ≤ fuel)%nat →
    ∃ left,
      scanLeft fuel chartData left0 = Ok left ∧
      left ≤ left0 ∧ (0 ≤ left0 → -1 ≤ left) ∧
      (if 0 <=? left then countAt chartData left else Ok None)
        = Ok (shownBefore chartData (left0 + 1)) ∧
      (0 ≤ left → is_Some (shownBefore chartData (left0 + 1))).
Proof.
  induction fuel as [|fuel IH]; intros left0 Hlt Hfuel.
  - assert (left0 < 0) by lia. exists left0.
    simpl. destruct (Z.leb_spec 0 left0); [lia|].
    split_and!; [done|lia|lia| |lia].
    unfold shownBefore. by replace (Z.to_nat (left0 + 1)) with 0%nat by lia.
  - cbn [scanLeft]. destruct (Z.leb_spec 0 left0) as [Hge|Hneg].
    2:{ exists left0. destruct (Z.leb_spec 0 left0); [lia|].
        split_and!; [done|lia|lia| |lia].
        unfold shownBefore. by replace (Z.to_nat (left0 + 1)) with 0%nat by lia. }
    destruct (lookup_lt_is_Some_2 chartData (Z.to_nat left0)) as [b Hb]; [lia|].
    pose proof (countAt_lookup _ _ _ Hb) as Hc. rewrite Z2Nat.id in Hc by lia.
    rewrite Hc. cbn [bind].
    assert (Htake : take (Z.to_nat (left0 + 1)) chartData
                    = take (Z.to_nat left0) chartData ++ [b]).
    { replace (Z.to_nat (left0 + 1)) with (S (Z.to_nat left0)) by lia.
      by apply take_S_r. }
    destruct (b_count b) as [v|] eqn:Hv.
    + exists left0. destruct (Z.leb_spec 0 left0); [|lia].
      assert (shownBefore chartData (left0 + 1) = Some v) as ->.
      { unfold shownBefore. rewrite Htake, omap_app. cbn [omap list_omap]. rewrite Hv.
        apply last_snoc. }
      split_and!; [done|lia|lia|done|done].
    + destruct (IH (left0 - 1)) as (left & Hrun & Hle & Hlow & Hval & Hsome); [lia|lia|].
      assert (shownBefore chartData (left0 + 1) = shownBefore chartData (left0 - 1 + 1)) as ->.
      { unfold shownBefore. rewrite Htake, omap_app. cbn [omap list_omap]. rewrite Hv.
        rewrite app_nil_r. by replace (left0 - 1 + 1) with left0 by lia. }
      exists left. split_and!; [done|lia| |done|done].
      intros _. destruct (Z.leb_spec 0 (left0 - 1)); [by apply Hlow|].
      cbn [scanLeft] in Hrun. destruct fuel; simpl in Hrun;
        destruct (Z.leb_spec 0 (left0 - 1)); try lia; simplify_eq; lia.
Qed.

(** The scan to the right stops on the nearest bucket from [right0] on
    that shows a count, or at the length. *)
Lemma scanRight_spec chartData fuel :
  ∀ right0,
    0 ≤ right0 → (Z.to_nat (Z.of_nat (length chartData) - right0) ≤ fuel)%nat →
    ∃ right,
      scanRight fuel chartData right0 = Ok right ∧
      right0 ≤ right ∧ (right0 ≤ Z.of_nat (length chartData) → right ≤ Z.of_nat (length chartData)) ∧
      (if right <? Z.of_nat (length chartData) then countAt chartData right else Ok None)
        = Ok (shownAfter chartData (right0 - 1)) ∧
      (right < Z.of_nat (length chartData) → is_Some (shownAfter chartData (right0 - 1))).
Proof.
  assert (Hpast : ∀ right0, Z.of_nat (length chartData) ≤ right0 →
                    shownAfter chartData (right0 - 1) = None).
  { intros right0 Hge. unfold shownAfter. rewrite drop_ge; [done|lia]. }
  induction fuel as [|fuel IH]; intros right0 Hpos Hfuel.
  - exists right0. simpl.
    destruct (Z.ltb_spec right0 (Z.of_nat (length chartData))); [lia|].
    split_and!; [done|lia|lia|by rewrite Hpast|lia].
  - cbn [scanRight]. destruct (Z.ltb_spec right0 (Z.of_nat (length chartData))) as [Hlt|Hge].
    2:{ exists right0. destruct (Z.ltb_spec right0 (Z.of_nat (length chartData))); [lia|].
        split_and!; [done|lia|lia|by rewrite Hpast|lia]. }
    destruct (lookup_lt_is_Some_2 chartData (Z.to_nat right0)) as [b Hb]; [lia|].
    pose proof (countAt_lookup _ _ _ Hb) as Hc. rewrite Z2Nat.id in Hc by lia.
    rewrite Hc. cbn [bind].
    assert (Hdrop : drop (Z.to_nat (right0 - 1 + 1)) chartData
                    = b :: drop (Z.to_nat (right0 + 1 - 1 + 1)) chartData).
    { replace (Z.to_nat (right0 - 1 + 1)) with (Z.to_nat right0) by lia.
      replace (Z.to_nat (right0 + 1 - 1 + 1)) with (S (Z.to_nat right0)) by lia.
      by apply drop_S. }
    destruct (b_count b) as [v|] eqn:Hv.
    + exists right0. destruct (Z.ltb_spec right0 (Z.of_nat (length chartData))); [|lia].
      assert (shownAfter chartData (right0 - 1) = Some v) as ->.
      { unfold shownAfter. rewrite Hdrop. cbn [omap list_omap]. by rewrite Hv. }
      split_and!; [done|lia|lia|done|done].
    + destruct (IH (right0 + 1)) as (right & Hrun & Hle & Hupp & Hval & Hsome); [lia|lia|].
      assert (shownAfter chartData (right0 - 1) = shownAfter chartData (right0 + 1 - 1)) as ->.
      { unfold shownAfter. rewrite Hdrop. cbn [omap list_omap]. by rewrite Hv. }
      exists right. split_and!; [done|lia| |done|done].
      intros _. apply Hupp. lia.
Qed.

(** A value between two integers rounds to an integer between them. *)
Lemma mathRound_between (a b : Z) (x : Q) :
  (inject_Z a <= x)%Q → (x <= inject_Z b)%Q → a ≤ mathRound x ≤ b.
Proof.
  intros Ha Hb. unfold mathRound. split.
  - rewrite <- (Qfloor_Z a). apply Qfloor_resp_le.
    eapply Qle_trans; [exact Ha|]. rewrite <- (Qplus_0_r x) at 1.
    apply Qplus_le_r. done.
  - assert (Qfloor (x + (1 # 2)) < b + 1); [|lia].
    rewrite Zlt_Qlt. eapply Qle_lt_trans; [apply Qfloor_le|].
    rewrite inject_Z_plus.
    eapply Qle_lt_trans; [apply Qplus_le_l; exact Hb|].
    apply Qplus_lt_r. done.
Qed.

(** Inside the chart, and one position off either end, the call returns:
    the nearest shown count when only one side has one, and with one on
    either side a whole number between the two. *)
Lemma interpolateAtIndex_inside chartData (q : Q) :
  -1 ≤ Qfloor q ≤ Z.of_nat (length chartData) →
  ∃ r, interpolateAtIndex chartData (Live.Fin q) = Ok r ∧
       match shownBefore chartData (Qfloor q), shownAfter chartData (Qfloor q) with
       | None, None => r = None
       | Some l, None => r = Some l
       | None, Some x => r = Some x
       | Some l, Some x => ∃ v, r = Some v ∧ Z.min l x ≤ v ≤ Z.max l x
       end.
Proof.
  intros Hi. unfold interpolateAtIndex. cbv zeta.
  remember (Qfloor q) as i eqn:Hq.
  destruct (scanLeft_spec chartData (S (length chartData)) (i - 1))
    as (left & Hl & Hl1 & Hl2 & Hlv & Hls); [lia|lia|].
  destruct (scanRight_spec chartData (S (length chartData)) (i + 1))
    as (right & Hr & Hr1 & Hr2 & Hrv & Hrs); [lia|lia|].
  replace (i - 1 + 1) with i in * by lia.
  replace (i + 1 - 1) with i in * by lia.
  rewrite Hl, Hr. cbn [bind]. rewrite Hlv, Hrv. cbn [bind].
  destruct (shownBefore chartData i) as [l|], (shownAfter chartData i) as [x|];
    eexists; (split; [reflexivity|]); try done.
  eexists. split; [reflexivity|].
  assert (Hlr : 0 < right - left) by lia.
  assert (Ht0 : (0 <= inject_Z (i - left) / inject_Z (right - left))%Q).
  { apply Qle_shift_div_l; [by rewrite <- (Zlt_Qlt 0)|].
    rewrite Qmult_0_l. rewrite <- (Zle_Qle 0). lia. }
  assert (Ht1 : (inject_Z (i - left) / inject_Z (right - left) <= 1)%Q).
  { apply Qle_shift_div_r; [by rewrite <- (Zlt_Qlt 0)|].
    rewrite Qmult_1_l. rewrite <- Zle_Qle. lia. }
  remember (inject_Z (i - left) / inject_Z (right - left))%Q as t eqn:Ht.
  destruct (Z.le_ge_cases l x) as [Hle|Hge].
  - rewrite Z.min_l, Z.max_r by lia. apply mathRound_between.
    + rewrite <- (Qplus_0_r (inject_Z l)) at 1. apply Qplus_le_r.
      apply Qmult_le_0_compat; [|done]. rewrite <- (Zle_Qle 0). lia.
    + setoid_replace (inject_Z x) with (inject_Z l + inject_Z (x - l) * 1)%Q
        using relation Qeq by (unfold Z.sub; rewrite inject_Z_plus, inject_Z_opp; ring).
      apply Qplus_le_r. rewrite !(Qmult_comm (inject_Z (x - l))).
      apply Qmult_le_compat_r; [done|]. rewrite <- (Zle_Qle 0). lia.
  - rewrite Z.min_r, Z.max_l by lia. apply mathRound_between.
    + setoid_replace (inject_Z x) with (inject_Z l + inject_Z (x - l) * 1)%Q
        using relation Qeq by (unfold Z.sub; rewrite inject_Z_plus, inject_Z_opp; ring).
      apply Qplus_le_r.
      setoid_replace (inject_Z (x - l) * 1)%Q with (- (inject_Z (l - x) * 1))%Q
        using relation Qeq by (unfold Z.sub; rewrite !inject_Z_plus, !inject_Z_opp; ring).
      setoid_replace (inject_Z (x - l) * t)%Q with (- (inject_Z (l - x) * t))%Q
        using relation Qeq by (unfold Z.sub; rewrite !inject_Z_plus, !inject_Z_opp; ring).
      apply Qopp_le_compat. rewrite !(Qmult_comm (inject_Z (l - x))).
      apply Qmult_le_compat_r; [done|]. rewrite <- (Zle_Qle 0). lia.
    + rewrite <- (Qplus_0_r (inject_Z l)) at 2. apply Qplus_le_r.
      setoid_replace (inject_Z (x - l) * t)%Q with (- (inject_Z (l - x) * t))%Q
        using relation Qeq by (unfold Z.sub; rewrite !inject_Z_plus, !inject_Z_opp; ring).
      setoid_replace 0%Q with (- 0)%Q using relation Qeq by ring.
      apply Qopp_le_compat. apply Qmult_le_0_compat; [|done]. rewrite <- (Zle_Qle 0). lia.
Qed.

(** X15. The tooltip's interpolation reads only inside the chart: with
    [i] the floor of the index, the call returns exactly when
    [-1 ≤ i ≤ length], and raises a type error otherwise. When it returns
    it gives the nearest shown count if only one side has one, a whole
    number between the two nearest if both do, and [null] if neither
    does. *)
Theorem interpolateAtIndex_range (chartData : list Bucket) (q : Q) :
  (interpolateAtIndex chartData (Live.Fin q) = Raise TypeError
   ↔ Qfloor q < -1 ∨ Z.of_nat (length chartData) < Qfloor q) ∧
  (-1 ≤ Qfloor q ≤ Z.of_nat (length chartData) →
   ∃ r, interpolateAtIndex chartData (Live.Fin q) = Ok r ∧
        match shownBefore chartData (Qfloor q), shownAfter chartData (Qfloor q) with
        | None, None => r = None
        | Some l, None => r = Some l
        | None, Some x => r = Some x
        | Some l, Some x => ∃ v, r = Some v ∧ Z.min l x ≤ v ≤ Z.max l x
        end).
Proof.
  split.
  - split.
    + intros Hraise.
      destruct (Z.lt_ge_cases (Qfloor q) (-1)) as [|Hlow]; [by left|].
      destruct (Z.lt_ge_cases (Z.of_nat (length chartData)) (Qfloor q)) as [|Hupp]; [by right|].
      destruct (interpolateAtIndex_inside chartData q) as (r & Hr & _); [lia|].
      congruence.
    + unfold interpolateAtIndex. cbv zeta. remember (Qfloor q) as i eqn:Hi.
      intros [Hlow|Hupp].
      * cbn [scanLeft]. destruct (Z.leb_spec 0 (i - 1)); [lia|]. cbn [bind].
        cbn [scanRight].
        destruct (Z.ltb_spec (i + 1) (Z.of_nat (length chartData))); [|lia].
        unfold countAt. destruct (Z.ltb_spec (i + 1) 0); [|lia]. done.
      * cbn [scanLeft]. destruct (Z.leb_spec 0 (i - 1)); [|lia].
        unfold countAt. destruct (Z.ltb_spec (i - 1) 0); [lia|].
        rewrite (proj2 (lookup_ge_None chartData (Z.to_nat (i - 1)))) by lia. done.
  - apply interpolateAtIndex_inside.
Qed.

Lemma shownBefore_Some chartData (i : Z) (k : nat) b :
  chartData !! k = Some b → is_Some (b_count b) → Z.of_nat k < i →
  is_Some (shownBefore chartData i).
Proof.
  intros Hk [v Hv] Hlt. unfold shownBefore. apply last_is_Some.
  assert (v ∈ omap b_count (take (Z.to_nat i) chartData)) as Hin; [|by intros Heq; rewrite Heq in Hin; inversion Hin].
  apply list_elem_of_omap. exists b. split; [|done].
  apply list_elem_of_lookup. exists k. rewrite lookup_take_lt; [done|lia].
Qed.

Lemma shownAfter_Some chartData (i : Z) (k : nat) b :
  chartData !! k = Some b → is_Some (b_count b) → 0 ≤ i < Z.of_nat k →
  is_Some (shownAfter chartData i).
Proof.
  intros Hk [v Hv] Hlt. unfold shownAfter. rewrite head_is_Some.
  assert (v ∈ omap b_count (drop (Z.to_nat (i + 1)) chartData)) as Hin; [|by intros Heq; rewrite Heq in Hin; inversion Hin].
  apply list_elem_of_omap. exists b. split; [|done].
  apply list_elem_of_lookup. exists (k - Z.to_nat (i + 1))%nat. rewrite lookup_drop.
  by replace (Z.to_nat (i + 1) + (k - Z.to_nat (i + 1)))%nat with k by lia.
Qed.

(** X16. The tooltip's formatter on a bucket without a count. When its
    third argument carries the bucket's index as [label], then on the
    chart of a chronological series it shows a whole number between the
    nearest counts shown on either side, which both exist. When the third
    argument is missing or has no [label], the index is [NaN] and it shows
    'No data'. For a bucket with a count it shows that count. *)
Theorem formatter_spec (points : list DataPoint) (p0 pn : DataPoint)
    (chartData : list Bucket) :
  chronological points → head points = Some p0 → last points = Some pn →
  resampleTimeSeries 360 points = Some chartData →
  (∀ (i : Z) b value,
     0 ≤ i → chartData !! Z.to_nat i = Some b → b_count b = None →
     Live.nullish value = true →
     ∃ l x v,
       shownBefore chartData i = Some l ∧
       shownAfter chartData i = Some x ∧
       interpolateAtIndex chartData (Live.Fin (inject_Z i)) = Ok (Some v) ∧
       formatter chartData value (labelled i)
         = Ok (Signups (Live.Fin (inject_Z v))) ∧
       Z.min l x ≤ v ≤ Z.max l x) ∧
  (∀ value props,
     Live.nullish value = true →
     (Live.nullish props = true
      ∨ ∃ fields, props = Live.VObj fields
                  ∧ Live.nullish (Live.field fields "label") = true) →
     formatter chartData value props = Ok NoData) ∧
  (∀ (n : Live.JSNum) props,
     formatter chartData (Live.VNum n) props = Ok (Signups n)).
Proof.
  intros Hs H0 Hn Hrun. split; [|split].
  - intros i b value Hi Hb Hnone Hnull.
    destruct (resample_ends points p0 pn chartData Hs H0 Hn Hrun)
      as [(bf & Hbf & _ & Hcf) (bl & Hbl & _ & Hcl)].
    rewrite head_lookup in Hbf. rewrite last_lookup in Hbl.
    replace (Nat.pred (length chartData)) with (length chartData - 1)%nat in Hbl by lia.
    apply lookup_lt_Some in Hb as Hlt.
    assert (Z.to_nat i ≠ 0%nat) as Hne0.
    { intros Heq. rewrite Heq in Hb. simplify_eq. rewrite Hnone in Hcf. by destruct Hcf. }
    assert (Z.to_nat i ≠ (length chartData - 1)%nat) as Hnel.
    { intros Heq. rewrite Heq in Hb. simplify_eq. rewrite Hnone in Hcl. by destruct Hcl. }
    destruct (shownBefore_Some chartData i 0 bf Hbf Hcf) as [l Hl]; [lia|].
    destruct (shownAfter_Some chartData i (length chartData - 1) bl Hbl Hcl)
      as [x Hx]; [lia|].
    destruct (interpolateAtIndex_inside chartData (inject_Z i)) as (r & Hr & Hcase).
    { rewrite Qfloor_Z. lia. }
    rewrite Qfloor_Z, Hl, Hx in Hcase. destruct Hcase as (v & -> & Hv).
    exists l, x, v. split; [done|]. split; [done|]. split; [done|]. split; [|done].
    assert (Hf : formatter chartData value (labelled i)
                 = bind (interpolateAtIndex chartData (Live.Fin (inject_Z i)))
                     (λ interp, match interp with
                                | None => Ok NoData
                                | Some v => Ok (Signups (Live.Fin (inject_Z v)))
                                end)).
    { unfold formatter. rewrite Hnull. reflexivity. }
    by rewrite Hf, Hr.
  - intros value props Hnull Hprops. unfold formatter. rewrite Hnull.
    destruct Hprops as [Hp|(fields & -> & Hl)].
    + rewrite Hp. cbn [bind]. by rewrite (eq_refl : Live.nullish Live.VUndefined = true).
    + cbn [Live.nullish Live.get bind]. by rewrite Hl.
  - intros n props. by unfold formatter.
Qed.

Lemma formatter_spec_witness :
  (∀ (i : Z) b value,
     0 ≤ i → four_buckets !! Z.to_nat i = Some b → b_count b = None →
     Live.nullish value = true →
     ∃ l x v,
       shownBefore four_buckets i = Some l ∧
       shownAfter four_buckets i = Some x ∧
       interpolateAtIndex four_buckets (Live.Fin (inject_Z i)) = Ok (Some v) ∧
       formatter four_buckets value (labelled i)
         = Ok (Signups (Live.Fin (inject_Z v))) ∧
       Z.min l x ≤ v ≤ Z.max l x) ∧
  (∀ value props,
     Live.nullish value = true →
     (Live.nullish props = true
      ∨ ∃ fields, props = Live.VObj fields
                  ∧ Live.nullish (Live.field fields "label") = true) →
     formatter four_buckets value props = Ok NoData) ∧
  (∀ (n : Live.JSNum) props,
     formatter four_buckets (Live.VNum n) props = Ok (Signups n)).
Proof.
  apply (formatter_spec four_points (mkPoint 0 1) (mkPoint 200000 4) four_buckets).
  - unfold chronological, four_points. repeat constructor; simpl; lia.
  - reflexivity.
  - reflexivity.
  - reflexivity.
Defined.

(** The empty third bucket of [four_buckets], between 2 and 4: with its
    index as label the tooltip reads 3; with the entry that the chart
    library passes, which has no label, it reads 'No data'. *)
Example formatter_four_buckets :
  formatter four_buckets Live.VNull (labelled 2) = Ok (Signups (Live.Fin 3)) ∧
  formatter four_buckets Live.VNull
    (Live.VObj [("name", Live.VStr "count"); ("value", Live.VNull)]) = Ok NoData ∧
  formatter four_buckets Live.VUndefined Live.VUndefined = Ok NoData ∧
  formatter four_buckets (Live.VNum (Live.Fin 4)) Live.VUndefined
    = Ok (Signups (Live.Fin 4)).
Proof. repeat split; vm_compute; reflexivity. Qed.

(** On five buckets with a gap of two: a third and two thirds of the way
    from 10 to 40, the neighbours at the ends, and the reads off the chart. *)
Example interpolateAtIndex_gappy :
  interpolateAtIndex gappy (Live.Fin 1) = Ok (Some 20) ∧
  interpolateAtIndex gappy (Live.Fin (5 # 2)) = Ok (Some 30) ∧
  interpolateAtIndex gappy (Live.Fin 0) = Ok (Some 40) ∧
  interpolateAtIndex gappy (Live.Fin 4) = Ok (Some 40) ∧
  interpolateAtIndex gappy (Live.Fin 5) = Ok (Some 41) ∧
  interpolateAtIndex gappy (Live.Fin 6) = Raise TypeError ∧
  interpolateAtIndex gappy (Live.Fin (-2)) = Raise TypeError ∧
  interpolateAtIndex gappy Live.NaN = Ok None.
Proof. repeat split; vm_compute; reflexivity. Qed.

End TooltipProofs.

(** ** Downsampling as a projection *)

Section DownsampleProofs.
Import Hourly Stats Resampler.

Lemma truncateToHour_fixed offset t :
  (t + offset) mod hourMs = 0 → truncateToHour (fixedZone offset) t = t.
Proof. intros H. unfold truncateToHour. cbn [fixedZone offsetAt offsetOfLocal]. lia. Qed.

Lemma truncateToHour_mono offset t1 t2 :
  t1 ≤ t2 → truncateToHour (fixedZone offset) t1 ≤ truncateToHour (fixedZone offset) t2.
Proof.
  intros Hle. unfold truncateToHour. cbn [fixedZone offsetAt offsetOfLocal].
  assert (Hh : 0 < hourMs) by (unfold hourMs; lia).
  pose proof (Z.div_le_mono (t1 + offset) (t2 + offset) hourMs Hh ltac:(lia)) as Hdiv.
  rewrite (Z.mod_eq (t1 + offset) hourMs), (Z.mod_eq (t2 + offset) hourMs) by lia.
  nia.
Qed.

(** Where the clock keeps one distance from UTC the zone may be taken as
    fixed. *)
Lemma steady_truncate zone offset allRows row :
  steady zone offset allRows → row ∈ allRows →
  truncateToHour zone (timestamp row) = truncateToHour (fixedZone offset) (timestamp row).
Proof.
  intros Hs Hin. unfold steady in Hs. rewrite Forall_forall in Hs.
  destruct (Hs row Hin) as [H1 H2]. unfold truncateToHour.
  cbn [fixedZone offsetAt offsetOfLocal]. cbv zeta in H2. by rewrite H1, H2.
Qed.

(** An ordered series has one point per timestamp. *)
Lemma ascending_same_time points p q :
  ascending points → p ∈ points → q ∈ points → timestamp p = timestamp q → p = q.
Proof.
  intros Hs [i Hi]%list_elem_of_lookup [j Hj]%list_elem_of_lookup Heq.
  destruct (Nat.lt_trichotomy i j) as [Hlt|[->|Hgt]].
  - pose proof (ascending_lt points i j p q Hs Hi Hj Hlt). lia.
  - by simplify_eq.
  - pose proof (ascending_lt points j i q p Hs Hj Hi Hgt). lia.
Qed.

Lemma ascending_NoDup points : ascending points → NoDup points.
Proof.
  intros Hs. apply NoDup_alt. intros i j p Hi Hj.
  destruct (Nat.lt_trichotomy i j) as [Hlt|[->|Hgt]]; [|done|].
  - pose proof (ascending_lt points i j p p Hs Hi Hj Hlt). lia.
  - pose proof (ascending_lt points j i p p Hs Hj Hi Hgt). lia.
Qed.

(** An ordered series of points on the hour is its own downsampling. *)
Lemma hourlyData_fixed offset points :
  ascending points →
  (∀ p, p ∈ points → (timestamp p + offset) mod hourMs = 0) →
  hourlyData (fixedZone offset) points = points.
Proof.
  intros Hs Hhour.
  apply (StronglySorted_unique_strong (λ a b, timestamp a < timestamp b)).
  - intros x1 x2 _ _ H1 H2. lia.
  - apply hourlyData_ascending.
  - done.
  - apply NoDup_Permutation; [apply ascending_NoDup, hourlyData_ascending
                             |by apply ascending_NoDup|].
    intros p. rewrite elem_of_hourlyData. unfold lastInHour. split.
    + intros (q & Hlast & Hc)%fmap_Some.
      apply last_filter_split in Hlast as (l1 & l2 & Hl & Hq & _).
      assert (q ∈ points) as Hin by (rewrite Hl; set_solver).
      rewrite (truncateToHour_fixed offset _ (Hhour q Hin)) in Hq.
      assert (p = q) as -> by (destruct p, q; simpl in *; congruence). done.
    + intros Hp.
      assert (p ∈ filter (λ row, truncateToHour (fixedZone offset) (timestamp row) = timestamp p) points)
        as Hin.
      { apply list_elem_of_filter. split; [|done].
        by apply truncateToHour_fixed, Hhour. }
      destruct (last (filter _ points)) as [q|] eqn:Hlast.
      * apply last_Some_elem_of in Hlast.
        apply list_elem_of_filter in Hlast as [Hq Hqin].
        rewrite (truncateToHour_fixed offset _ (Hhour q Hqin)) in Hq.
        by rewrite (ascending_same_time points q p Hs Hqin Hp Hq).
      * apply last_None in Hlast. rewrite Hlast in Hin. by apply elem_of_nil in Hin.
Qed.

Lemma hourlyMap_size zone allRows :
  (size (hourlyMap zone allRows) ≤ length allRows)%nat.
Proof.
  induction allRows as [|row allRows IH] using rev_ind; [done|].
  rewrite hourlyMap_snoc, length_app, map_size_insert. cbn [length].
  destruct (hourlyMap zone allRows !! _); simpl; lia.
Qed.

(** X17. The output of the downsampling is never longer than its input and
    empty only for an empty input. In a zone without clock changes it is a
    projection: applied to its own output it changes nothing. On
    chronological rows over which the clock keeps one distance from UTC
    the last hourly sample sits at the top of the hour that holds the
    latest row and carries the latest row's count, so the chart ends on
    the count that is displayed. *)
Theorem hourlyData_stable (zone : Zone) (offset : Z) (allRows : list DataPoint) :
  (length (hourlyData zone allRows) ≤ length allRows)%nat ∧
  (hourlyData zone allRows = [] ↔ allRows = []) ∧
  hourlyData (fixedZone offset) (hourlyData (fixedZone offset) allRows)
    = hourlyData (fixedZone offset) allRows ∧
  (steady zone offset allRows → chronological allRows →
   ∀ latest, last allRows = Some latest →
     let h := truncateToHour zone (timestamp latest) in
     last (hourlyData zone allRows) = Some (mkPoint h (count latest)) ∧
     (h + offset) mod hourMs = 0 ∧ h ≤ timestamp latest < h + hourMs).
Proof.
  split_and!.
  - unfold hourlyData. rewrite length_fmap, merge_sort_Permutation, length_map_to_list.
    apply hourlyMap_size.
  - split; [|by intros ->].
    intros Hnil. destruct allRows as [|row rest]; [done|]. exfalso.
    assert (is_Some (lastInHour zone (row :: rest) (truncateToHour zone (timestamp row))))
      as [c Hc].
    { apply lastInHour_Some. exists row. split; [by left|done]. }
    assert (mkPoint (truncateToHour zone (timestamp row)) c
              ∈ hourlyData zone (row :: rest)) as Hin by (by apply elem_of_hourlyData).
    rewrite Hnil in Hin. by apply elem_of_nil in Hin.
  - apply hourlyData_fixed; [apply hourlyData_ascending|].
    intros p. apply hourlyData_on_the_hour, steady_fixedZone.
  - intros Hsteady Hs latest Hlatest h.
    assert (Hlin : latest ∈ allRows) by (by apply last_Some_elem_of).
    split; [|by apply (steady_top zone offset allRows)].
    assert (Hin : mkPoint h (count latest) ∈ hourlyData zone allRows).
    { apply elem_of_hourlyData. cbn [timestamp count]. unfold lastInHour.
      apply last_Some in Hlatest as [pre ->].
      rewrite filter_app, filter_cons_True, filter_nil by done.
      by rewrite last_snoc. }
    destruct (last (hourlyData zone allRows)) as [q|] eqn:Hq.
    2:{ apply last_None in Hq. rewrite Hq in Hin. by apply elem_of_nil in Hin. }
    f_equal. apply (ascending_same_time (hourlyData zone allRows)).
    + apply hourlyData_ascending.
    + by apply last_Some_elem_of.
    + done.
    + cbn [timestamp].
      pose proof (ascending_last_max _ q _ (hourlyData_ascending zone allRows) Hq Hin) as Hmax.
      cbn [timestamp] in Hmax.
      assert (timestamp q ≤ h); [|lia].
      assert (q ∈ hourlyData zone allRows) as Hqin by (by apply last_Some_elem_of).
      apply elem_of_hourlyData in Hqin.
      assert (is_Some (lastInHour zone allRows (timestamp q))) as Hsome by (by rewrite Hqin).
      apply lastInHour_Some in Hsome as (row & Hrow & <-).
      unfold h.
      rewrite (steady_truncate zone offset allRows row Hsteady Hrow).
      rewrite (steady_truncate zone offset allRows latest Hsteady Hlin).
      apply truncateToHour_mono.
      apply last_Some in Hlatest as [pre ->].
      apply elem_of_app in Hrow as [Hrow|Hrow%list_elem_of_singleton]; [|by subst].
      unfold chronological in Hs.
      apply (StronglySorted_app_1_elem_of _ _ _ row latest Hs Hrow). by left.
Qed.

(** Across the clock change of [helsinki] the last sample is not in the
    hour of the latest row: after the rows of 00:30Z and 01:30Z it sits at
    00:00Z. *)
Example hourlyData_last_sample :
  last (hourlyData helsinki (take 2 autumn_rows)) = Some (mkPoint 1761436800000 200) ∧
  last (take 2 autumn_rows) = Some (mkPoint 1761442200000 200) ∧
  1761436800000 + hourMs < 1761442200000.
Proof. split_and!; vm_compute; reflexivity. Qed.

End DownsampleProofs.

(** ** The growth of the last day *)

Section GrowthProofs.
Import Stats Resampler.

(** X18. With counts that never decrease, the growth of the last 24 hours
    is not negative and not more than the growth of the whole series; it
    is the whole growth when every row is at most a day old, and 0 when
    fewer than two rows are. *)
Theorem lastDayGrowthOf_bounds (allRows : list DataPoint) (now : Z) (p0 pn : DataPoint) :
  nondecreasing allRows → head allRows = Some p0 → last allRows = Some pn →
  0 ≤ lastDayGrowthOf allRows now ≤ count pn - count p0 ∧
  ((∀ p, p ∈ allRows → now - timestamp p ≤ day) → (2 ≤ length allRows)%nat →
   lastDayGrowthOf allRows now = count pn - count p0) ∧
  ((length (filter (λ d, (now - day ≤ timestamp d)%Z) allRows) < 2)%nat →
   lastDayGrowthOf allRows now = 0).
Proof.
  intros Hc H0 Hn.
  rewrite head_lookup in H0. apply last_lookup_index in Hn as Hn'.
  assert (Hgrow : count p0 ≤ count pn).
  { eapply (nondecreasing_le allRows 0 (length allRows - 1)); eauto. lia. }
  unfold lastDayGrowthOf. cbv zeta.
  change (24 * 60 * 60 * 1000) with day.
  remember (filter (λ d, now - day ≤ timestamp d) allRows) as recent eqn:Hrec.
  split; [|split].
  - destruct recent as [|r0 [|r1 rest]]; [lia|lia|].
    assert (is_Some (last (r0 :: r1 :: rest))) as [rl Hl] by (by rewrite last_is_Some).
    rewrite Hl.
    assert (Hrc : nondecreasing (r0 :: r1 :: rest)).
    { rewrite Hrec. by apply sorted_filter. }
    assert (count r0 ≤ count rl).
    { apply last_lookup_index in Hl.
      eapply (nondecreasing_le _ 0 (length (r0 :: r1 :: rest) - 1)); eauto. lia. }
    assert (r0 ∈ allRows) as [i Hi]%list_elem_of_lookup.
    { assert (r0 ∈ r0 :: r1 :: rest) as Hin by (by left).
      rewrite Hrec in Hin. by apply list_elem_of_filter in Hin as [_ ?]. }
    assert (rl ∈ allRows) as [j Hj]%list_elem_of_lookup.
    { assert (rl ∈ r0 :: r1 :: rest) as Hin by (by apply last_Some_elem_of).
      rewrite Hrec in Hin. by apply list_elem_of_filter in Hin as [_ ?]. }
    assert (count p0 ≤ count r0) by (eapply (nondecreasing_le allRows 0 i); eauto; lia).
    assert (count rl ≤ count pn).
    { apply lookup_lt_Some in Hj as Hlt.
      eapply (nondecreasing_le allRows j (length allRows - 1)); eauto. lia. }
    lia.
  - intros Hall Hlen.
    assert (recent = allRows) as ->.
    { rewrite Hrec. apply filter_all. rewrite Forall_forall. intros p Hp.
      specialize (Hall p Hp). lia. }
    destruct allRows as [|a [|b rest]]; [simpl in Hlen; lia..|].
    rewrite Hn. simpl in H0. by simplify_eq.
  - intros Hfew. destruct recent as [|r0 [|r1 rest]]; [done|done|simpl in Hfew; lia].
Qed.

Lemma lastDayGrowthOf_bounds_witness :
  0 ≤ lastDayGrowthOf (scenario 0) 86400000
    ≤ count (mkPoint 5400000 40) - count (mkPoint 0 0) ∧
  ((∀ p, p ∈ scenario 0 → 86400000 - timestamp p ≤ day) → (2 ≤ length (scenario 0))%nat →
   lastDayGrowthOf (scenario 0) 86400000
     = count (mkPoint 5400000 40) - count (mkPoint 0 0)) ∧
  ((length (filter (λ d, (86400000 - day ≤ timestamp d)%Z) (scenario 0)) < 2)%nat →
   lastDayGrowthOf (scenario 0) 86400000 = 0).
Proof.
  apply (lastDayGrowthOf_bounds (scenario 0) 86400000 (mkPoint 0 0) (mkPoint 5400000 40)).
  - unfold nondecreasing, scenario. repeat constructor; simpl; lia.
  - reflexivity.
  - reflexivity.
Defined.

End GrowthProofs.

(** ** Labels, status and cards *)

Section DisplayProofs.
Import Live Display.

(** X19. The label after a fetch, by the age [now - latestTs] of the
    latest row: under a minute, also when the row is from the future,
    "< 1 min ago"; under a day the whole minutes; from a day on the whole
    days, with the prefix "Last updated: " that the other forms lack, and
    "day" in the singular on the first day only. *)
Theorem lastUpdatedLabel_cases (latestTs now : Z) :
  let age := now - latestTs in
  (age < 60000 → lastUpdatedLabel latestTs now = "< 1 min ago"%string) ∧
  (60000 ≤ age < 86400000 →
   lastUpdatedLabel latestTs now = (pretty (age / 60000) +:+ " min ago")%string) ∧
  (86400000 ≤ age < 172800000 →
   lastUpdatedLabel latestTs now = "Last updated: 1 day ago"%string) ∧
  (172800000 ≤ age →
   lastUpdatedLabel latestTs now
     = ("Last updated: " +:+ pretty (age / 86400000) +:+ " days ago")%string).
Proof.
  intros age. unfold lastUpdatedLabel. cbv zeta. fold age.
  assert (Hdays : age / 60000 / 1440 = age / 86400000).
  { rewrite Z.div_div by lia. done. }
  split_and!; intros Hage.
  - assert (Z.max 0 (age / 60000) = 0) as ->.
    { assert (age / 60000 ≤ 0); [|lia].
      assert (age / 60000 < 1); [|lia]. apply Z.div_lt_upper_bound; lia. }
    done.
  - assert (1 ≤ age / 60000) by (apply Z.div_le_lower_bound; lia).
    assert (age / 60000 < 1440) by (apply Z.div_lt_upper_bound; lia).
    rewrite Z.max_r by lia.
    destruct (Z.leb_spec 1440 (age / 60000)); [lia|].
    destruct (Z.eqb_spec (age / 60000) 0); [lia|]. done.
  - assert (1440 ≤ age / 60000) by (apply Z.div_le_lower_bound; lia).
    rewrite Z.max_r by lia.
    destruct (Z.leb_spec 1440 (age / 60000)); [|lia].
    rewrite Hdays.
    assert (age / 86400000 = 1) as ->.
    { assert (1 ≤ age / 86400000) by (apply Z.div_le_lower_bound; lia).
      assert (age / 86400000 < 2) by (apply Z.div_lt_upper_bound; lia). lia. }
    done.
  - assert (1440 ≤ age / 60000) by (apply Z.div_le_lower_bound; lia).
    rewrite Z.max_r by lia.
    destruct (Z.leb_spec 1440 (age / 60000)); [|lia].
    rewrite Hdays.
    assert (2 ≤ age / 86400000) by (apply Z.div_le_lower_bound; lia).
    destruct (Z.eqb_spec (age / 86400000) 1); [lia|].
    done.
Qed.


Lemma percentage_Fin (x : Q) :
  percentage (Fin x) = mul (round64 (x / 5000)) (Fin 100).
Proof. reflexivity. Qed.










End DisplayProofs.

(** ** One refresh cycle, and runs of events *)

Section FetchProofs.
Import Live Fetch.

(** One run of [fetchData], by the rows the pager collected. *)
Lemma fetchData_rows be zone now st :
  ∃ allRows log st',
    Pager.fetchAllSamples be = Some (allRows, log) ∧
    fetchData be zone now st = Some st' ∧
    loading st' = false ∧ timeRange st' = timeRange st ∧
    match allRows, last allRows with
    | _ :: _, Some latest =>
        data st' = Hourly.hourlyData zone allRows ∧
        currentCount st' = Fin (inject_Z (count latest)) ∧
        lastUpdated st' = Display.lastUpdatedLabel (timestamp latest) now ∧
        match allRows with
        | _ :: _ :: _ =>
            ∃ s, Stats.computeStats allRows now = Ok (Some s) ∧ stats st' = Some s
        | _ => stats st' = stats st
        end
    | _, _ => st' = setLoading false st
    end.
Proof.
  destruct (Pager.fetchAllSamples be) as [[allRows log]|] eqn:Hrun.
  2:{ by destruct (pageLoop_total be (Pager.keyFor (Pager.probeOk be)) 101 [] None 0 [] ltac:(lia) ltac:(lia) ltac:(lia)) as [? ?]; unfold Pager.fetchAllSamples in Hrun; simplify_eq. }
  exists allRows, log. unfold fetchData. rewrite Hrun.
  destruct allRows as [|a rest]; [eexists; by split_and!|].
  assert (is_Some (last (a :: rest))) as [latest Hl] by (by rewrite last_is_Some).
  rewrite Hl. cbv zeta.
  destruct rest as [|b rest].
  - unfold Stats.computeStats. eexists. by split_and!.
  - destruct (peakHourly_max (a :: b :: rest)) as (v & Hpk & _).
    assert (∃ s, Stats.computeStats (a :: b :: rest) now = Ok (Some s)) as [s Hs].
    { unfold Stats.computeStats. rewrite Hl, Hpk. cbn [bind]. by eexists. }
    rewrite Hs. eexists. split_and!; try done. by exists s.
Qed.

(** X22. A run of [fetchData] always ends with the loading flag cleared
    and the range untouched, whatever the backend answers. With no rows
    (an empty table, or a first page that fails) nothing else changes; with
    rows the series is their hourly downsampling and the count and label
    come from the last row; the statistics are replaced when there are at
    least two rows and kept as they were with exactly one. A second run
    against the same answers at the same time changes nothing. *)
Theorem fetchData_settles (be : Pager.Backend) (zone : Hourly.Zone) (now : Z) (st : View) :
  ∃ st',
    fetchData be zone now st = Some st' ∧
    loading st' = false ∧ timeRange st' = timeRange st ∧
    (∀ allRows log, Pager.fetchAllSamples be = Some (allRows, log) →
       match allRows, last allRows with
       | _ :: _, Some latest =>
           data st' = Hourly.hourlyData zone allRows ∧
           currentCount st' = Fin (inject_Z (count latest)) ∧
           lastUpdated st' = Display.lastUpdatedLabel (timestamp latest) now ∧
           match allRows with
           | _ :: _ :: _ =>
               ∃ s, Stats.computeStats allRows now = Ok (Some s) ∧ stats st' = Some s
           | _ => stats st' = stats st
           end
       | _, _ => st' = setLoading false st
       end) ∧
    (Pager.run be (Pager.mkQuery (Pager.keyFor (Pager.probeOk be)) None Pager.PAGE_SIZE)
       = Pager.Failed →
     st' = setLoading false st) ∧
    fetchData be zone now st' = Some st'.
Proof.
  destruct (fetchData_rows be zone now st)
    as (allRows & log & st' & Hrun & Hfetch & Hload & Hrange & Hcase).
  exists st'. split_and!; [done..| | |].
  - intros allRows' log' Hrun'. by simplify_eq.
  - intros Hfail. unfold Pager.fetchAllSamples in Hrun. cbn [Pager.pageLoop] in Hrun.
    rewrite Hfail in Hrun. by simplify_eq.
  - unfold fetchData in *. rewrite Hrun in *.
    destruct (last allRows) as [latest|]; [|by simplify_eq].
    destruct (Stats.computeStats allRows now) as [[s|]|f]; by simplify_eq.
Qed.

(** X23. A fetch from a non-empty table with distinct keys and at most 100
    pages of rows shows the row with the greatest key: the count is that
    row's count, 0 if it is null, and the label is computed from that
    row's timestamp. The series is the hourly downsampling of the table in
    key order. *)
Theorem fetchData_table (hasId : bool) (table : list Row) (zone : Hourly.Zone) (now : Z)
    (st : View) :
  NoDup (Pager.keyOf (Pager.keyFor hasId) <$> table) →
  (length table ≤ 100 * Pager.PAGE_SIZE)%nat → table ≠ [] →
  ∃ st' top,
    fetchData (Pager.tableBackend hasId table) zone now st = Some st' ∧
    top ∈ table ∧
    (∀ r, r ∈ table →
       Pager.keyOf (Pager.keyFor hasId) r ≤ Pager.keyOf (Pager.keyFor hasId) top) ∧
    currentCount st' = Fin (inject_Z (default 0 (row_count top))) ∧
    lastUpdated st' = Display.lastUpdatedLabel (row_timestamp top) now ∧
    data st'
      = Hourly.hourlyData zone
          (toDataPoint <$> merge_sort (Pager.keyLe (Pager.keyFor hasId)) table) ∧
    loading st' = false ∧
    ((2 ≤ length table)%nat → ∃ s, stats st' = Some s ∧
                                   totalSignups s = default 0 (row_count top)).
Proof.
  intros Hnd Hlen Hne.
  set (k := Pager.keyFor hasId) in *.
  pose proof (merge_sort_strict k table Hnd) as Hs.
  pose proof (merge_sort_Permutation (Pager.keyLe k) table) as Hperm.
  destruct (pageLoop_table hasId table k 101 [] (merge_sort (Pager.keyLe k) table) [] 0 [])
    as (qs & qlast & Hrun & _); try done.
  { rewrite Hperm. unfold Pager.PAGE_SIZE in *. lia. }
  { rewrite Hperm. apply Nat.le_lt_trans with 100%nat; [|lia].
    apply ceilDiv_le; [unfold Pager.PAGE_SIZE|]; lia. }
  destruct (fetchData_rows (Pager.tableBackend hasId table) zone now st)
    as (allRows & log & st' & Hrun' & Hfetch & Hload & Hrange & Hcase).
  unfold Pager.fetchAllSamples in Hrun'. cbn [Pager.probeOk Pager.tableBackend] in Hrun'.
  fold k in Hrun'.
  change (Pager.keyOf k <$> last []) with (@None Z) in Hrun.
  rewrite Hrun in Hrun'. injection Hrun' as <- _.
  remember (merge_sort (Pager.keyLe k) table) as sorted eqn:Hsorted.
  assert (is_Some (last sorted)) as [top Htop].
  { apply last_is_Some. intros ->. apply Permutation_nil_l in Hperm. done. }
  assert (Hlast : last (toDataPoint <$> sorted) = Some (toDataPoint top)).
  { by rewrite fmap_last, Htop. }
  exists st', top. split; [done|]. split.
  { rewrite <- Hperm. by apply last_Some_elem_of. }
  split.
  { intros r Hr. eapply (last_is_max k sorted top r); [done|done|by rewrite Hperm]. }
  destruct sorted as [|r1 rest]; [done|]. cbn [fmap list_fmap] in Hcase, Hlast.
  rewrite Hlast in Hcase.
  destruct Hcase as (Hdata & Hcount & Hlabel & Hstats).
  split_and!; try done.
  intros H2. assert (length (r1 :: rest) = length table) as Hl by (by rewrite Hperm).
  destruct rest as [|r2 rest]; [simpl in Hl; lia|]. cbn [fmap list_fmap] in Hstats.
  destruct Hstats as (s & Hs' & Hst). exists s. split; [done|].
  unfold Stats.computeStats in Hs'. cbn [fmap list_fmap] in Hlast.
  rewrite Hlast in Hs'.
  destruct (Stats.peakHourly _); [|done]. cbn [bind] in Hs'. by simplify_eq.
Qed.

Lemma fetchData_table_witness :
  ∃ st' top,
    fetchData (Pager.tableBackend true Pager.three_rows) (Hourly.fixedZone 0) 1000 initialView
      = Some st' ∧
    top ∈ Pager.three_rows ∧
    (∀ r, r ∈ Pager.three_rows →
       Pager.keyOf (Pager.keyFor true) r ≤ Pager.keyOf (Pager.keyFor true) top) ∧
    currentCount st' = Fin (inject_Z (default 0 (row_count top))) ∧
    lastUpdated st' = Display.lastUpdatedLabel (row_timestamp top) 1000 ∧
    data st'
      = Hourly.hourlyData (Hourly.fixedZone 0)
          (toDataPoint <$> merge_sort (Pager.keyLe (Pager.keyFor true)) Pager.three_rows) ∧
    loading st' = false ∧
    ((2 ≤ length Pager.three_rows)%nat →
     ∃ s, stats st' = Some s ∧ totalSignups s = default 0 (row_count top)).
Proof.
  apply (fetchData_table true Pager.three_rows (Hourly.fixedZone 0) 1000 initialView).
  - apply (bool_decide_unpack _). vm_compute. reflexivity.
  - unfold Pager.PAGE_SIZE, Pager.three_rows. cbn [length]. lia.
  - done.
Defined.

Lemma onChange_cases payload st :
  onChange payload st = st ∨
  ∃ n, isNaN n = false ∧ onChange payload st = setCount n st.
Proof.
  unfold onChange.
  destruct (tryBody_cases payload st) as [[n Hn]|[Hsame|[f Hf]]].
  - rewrite (tryBody_carries payload st n Hn).
    destruct (isNaN n) eqn:Hnan; [by left|]. right. by exists n.
  - rewrite Hsame. by left.
  - rewrite Hf. by left.
Qed.

(** What one event does to each cell of the state. *)
Lemma step_cells zone st e :
  (isNaN (currentCount st) = false → isNaN (currentCount (step zone st e)) = false) ∧
  loading (step zone st e) = (if isTick e then false else loading st) ∧
  timeRange (step zone st e) = (match e with Pick r => r | _ => timeRange st end) ∧
  (is_Some (stats st) → is_Some (stats (step zone st e))) ∧
  (isTick e = false →
   data (step zone st e) = data st ∧ stats (step zone st e) = stats st).
Proof.
  destruct e as [be now|c|payload|r]; cbn [step isTick].
  - destruct (fetchData_rows be zone now st)
      as (allRows & log & st' & _ & -> & Hload & Hrange & Hcase).
    cbn [default from_option id]. split_and!; [|done|done| |done].
    + intros Hnum. destruct allRows as [|a rest]; [by subst st'|].
      destruct (last (a :: rest)); [|by subst st'].
      destruct Hcase as (_ & -> & _). done.
    + intros Hsome. destruct allRows as [|a rest]; [by subst st'|].
      destruct (last (a :: rest)); [|by subst st'].
      destruct Hcase as (_ & _ & _ & Hstats).
      destruct rest as [|b rest]; [by rewrite Hstats|].
      destruct Hstats as (s & _ & ->). done.
  - done.
  - destruct (onChange_cases payload st) as [->|(n & Hn & ->)]; [done|].
    by split_and!.
  - done.
Qed.

Lemma lastPick_snoc events e :
  lastPick (events ++ [e]) = match e with Pick r => r | _ => lastPick events end.
Proof.
  unfold lastPick. rewrite omap_app. cbn [omap list_omap].
  destruct e; rewrite ?app_nil_r; try done. by rewrite last_snoc.
Qed.

Lemma session_snoc zone events e :
  session zone (events ++ [e]) = step zone (session zone events) e.
Proof. unfold session. by rewrite foldl_app. Qed.

(** X24. Over any run of fetches, timers, realtime messages and range
    clicks from the initial state: the count shown is always a number; the
    loading flag is set exactly until the first fetch has run and never
    again after it; the range is the one clicked last; statistics, once
    there, are never taken away; and only a fetch changes the series and
    the statistics. *)
Theorem session_invariants (zone : Hourly.Zone) (events : list Event) :
  let st := session zone events in
  isNaN (currentCount st) = false ∧
  loading st = negb (existsb isTick events) ∧
  timeRange st = lastPick events ∧
  (∀ more, is_Some (stats st) → is_Some (stats (session zone (events ++ more)))) ∧
  (∀ e, isTick e = false →
     data (step zone st e) = data st ∧ stats (step zone st e) = stats st).
Proof.
  cbv zeta. split_and!.
  - induction events as [|e events IH] using rev_ind; [done|].
    rewrite session_snoc. by apply step_cells.
  - induction events as [|e events IH] using rev_ind; [done|].
    rewrite session_snoc, existsb_app. cbn [existsb].
    destruct (step_cells zone (session zone events) e) as (_ & -> & _).
    rewrite IH, orb_false_r. by destruct (isTick e), (existsb isTick events).
  - induction events as [|e events IH] using rev_ind; [done|].
    rewrite session_snoc, lastPick_snoc.
    destruct (step_cells zone (session zone events) e) as (_ & _ & -> & _).
    by destruct e.
  - intros more. induction more as [|e more IH] using rev_ind; [by rewrite app_nil_r|].
    intros Hsome. rewrite app_assoc, session_snoc. apply step_cells. by apply IH.
  - intros e He. by apply step_cells.
Qed.

(** X25. The timer that a fetch leaves behind is not cancelled by a
    realtime message: when a message with a number arrives between the
    fetch and its timer, the timer puts the fetched count back, while the
    label stays the "< 1 min ago" of the message. *)
Theorem late_timer_overrides (be : Pager.Backend) (zone : Hourly.Zone) (now : Z) (st : View)
    (payload : Value) (n : JSNum) (e : Event) :
  timerOf be = Some e → carries payload n → isNaN n = false →
  let st1 := step zone st (Tick be now) in
  let st2 := step zone st1 (Push payload) in
  let st3 := step zone st2 e in
  currentCount st2 = n ∧ lastUpdated st2 = "< 1 min ago"%string ∧
  currentCount st3 = currentCount st1 ∧ lastUpdated st3 = "< 1 min ago"%string ∧
  data st3 = data st1 ∧ stats st3 = stats st1 ∧ loading st3 = false.
Proof.
  intros Htimer Hcarries Hnum. cbv zeta. unfold timerOf in Htimer.
  destruct (fetchData_rows be zone now st)
    as (allRows & log & st' & Hrun & Hfetch & Hload & Hrange & Hcase).
  rewrite Hrun in Htimer.
  destruct allRows as [|a rest]; [done|].
  revert Hcase Htimer. destruct (last (a :: rest)) as [latest|]; [|done].
  intros (Hdata & Hcount & _) [= <-].
  cbn [step]. rewrite Hfetch. cbn [default from_option id].
  unfold onChange. rewrite (tryBody_carries payload st' n Hcarries), Hnum.
  by split_and!.
Qed.

Lemma late_timer_overrides_witness :
  currentCount after_message = Fin 99 ∧
  lastUpdated after_message = "< 1 min ago"%string ∧
  currentCount (step (Hourly.fixedZone 0) after_message (Late 7)) = currentCount after_fetch ∧
  lastUpdated (step (Hourly.fixedZone 0) after_message (Late 7)) = "< 1 min ago"%string ∧
  data (step (Hourly.fixedZone 0) after_message (Late 7)) = data after_fetch ∧
  stats (step (Hourly.fixedZone 0) after_message (Late 7)) = stats after_fetch ∧
  loading (step (Hourly.fixedZone 0) after_message (Late 7)) = false.
Proof.
  apply (late_timer_overrides (Pager.tableBackend true Pager.three_rows) (Hourly.fixedZone 0) 1000 initialView
           (insertOf (VNum (Fin 99))) (Fin 99) (Late 7)).
  - vm_compute. reflexivity.
  - by apply (carries_new (insertOf (VNum (Fin 99))) (VObj [("count", VNum (Fin 99))])
                (VNum (Fin 99))).
  - reflexivity.
Defined.

End FetchProofs.

(** ** Counts that arrive as numerals *)

Section NumeralProofs.
Import Live Numeral.

Lemma pretty_N_char_digit (d : N) :
  (d < 10)%N →
  isDec (pretty_N_char d) ∧ digitOf 10 (pretty_N_char d) = Some (Z.of_N d).
Proof.
  intros Hd.
  assert (d = 0 ∨ d = 1 ∨ d = 2 ∨ d = 3 ∨ d = 4 ∨ d = 5 ∨ d = 6 ∨ d = 7 ∨ d = 8 ∨ d = 9)%N
    as Hcases by lia.
  unfold isDec.
  repeat (destruct Hcases as [->|Hcases]; [vm_compute; split; [split; congruence|reflexivity]|]).
  subst d. vm_compute. split; [split; congruence|reflexivity].
Qed.

Lemma isDec_not_space c : isDec c → isSpace c = false.
Proof.
  unfold isDec, isSpace. intros H.
  destruct (Z.eqb_spec (code c) 32); [lia|].
  destruct (Z.leb_spec 9 (code c)), (Z.leb_spec (code c) 13); try done; lia.
Qed.

(** The digits that [pretty_N_go] puts in front of [s], read back. *)
Lemma pretty_N_go_digits (x : N) :
  ∀ s, ∃ ds (k : nat),
    list_ascii_of_string (pretty_N_go x s) = ds ++ list_ascii_of_string s ∧
    Forall isDec ds ∧ length ds = k ∧
    ((0 < x)%N → ∃ c rest, ds = c :: rest ∧ 49 ≤ code c) ∧
    ∀ tail acc n,
      takeDigits 10 (ds ++ tail) acc n
        = takeDigits 10 tail (acc * 10 ^ Z.of_nat k + Z.of_N x) (n + k)%nat.
Proof.
  induction x as [x IH] using (well_founded_induction N.lt_wf_0). intros s.
  destruct (decide (x = 0)%N) as [->|Hpos].
  - exists [], 0%nat. rewrite pretty_N_go_0. split_and!; [done|done|done|lia|].
    intros tail acc n. cbn [app]. f_equal; [|lia].
    change (10 ^ Z.of_nat 0) with 1. change (Z.of_N 0) with 0. lia.
  - rewrite pretty_N_go_step by lia.
    destruct (IH (x `div` 10)%N) with (s := String (pretty_N_char (x `mod` 10)) s)
      as (ds & k & Hl & Hdec & Hlen & Hlead & Htake).
    { apply N.div_lt; lia. }
    destruct (pretty_N_char_digit (x `mod` 10)%N) as [Hd Hval].
    { apply N.mod_lt. lia. }
    exists (ds ++ [pretty_N_char (x `mod` 10)]), (S k).
    split_and!.
    + rewrite Hl. cbn [list_ascii_of_string]. by rewrite <- app_assoc.
    + apply Forall_app. split; [done|]. by constructor.
    + rewrite length_app, Hlen. cbn [length]. lia.
    + intros _. destruct (decide (x `div` 10 = 0)%N) as [Hsmall|Hbig].
      * assert (ds = []) as ->.
        { rewrite Hsmall, pretty_N_go_0 in Hl. cbn [list_ascii_of_string] in Hl.
          destruct ds as [|c ds]; [done|]. exfalso.
          apply (f_equal length) in Hl. rewrite length_app in Hl. cbn [length] in Hl. lia. }
        eexists _, []. split; [done|].
        assert (x `mod` 10 = x)%N as Hx.
        { apply N.mod_small. by apply N.div_small_iff in Hsmall. }
        rewrite Hx.
        assert (x < 10)%N by (rewrite <- Hx; apply N.mod_lt; lia).
        assert (x = 1 ∨ x = 2 ∨ x = 3 ∨ x = 4 ∨ x = 5 ∨ x = 6 ∨ x = 7 ∨ x = 8 ∨ x = 9)%N
          as Hcases by lia.
        repeat (destruct Hcases as [->|Hcases]; [vm_compute; congruence|]).
        subst x. vm_compute. congruence.
      * assert (0 < x `div` 10)%N as Hgt by (by apply N.neq_0_lt_0).
        destruct (Hlead Hgt) as (c & rest & -> & Hc).
        by exists c, (rest ++ [pretty_N_char (x `mod` 10)]).
    + intros tail acc n. rewrite <- app_assoc. rewrite Htake. cbn [app takeDigits].
      rewrite Hval. f_equal; [|lia].
      rewrite Nat2Z.inj_succ, Z.pow_succ_r by lia.
      rewrite (N.div_mod x 10) at 3 by lia.
      rewrite N2Z.inj_add, N2Z.inj_mul. change (Z.of_N 10) with 10. lia.
Qed.

Lemma trimLeft_id (l : list ascii) :
  (∀ c, head l = Some c → isSpace c = false) → trimLeft l = l.
Proof. destruct l as [|c l]; [done|]. intros H. simpl. by rewrite (H c eq_refl). Qed.

Lemma trim_id (l : list ascii) :
  (∀ c, head l = Some c → isSpace c = false) →
  (∀ c, last l = Some c → isSpace c = false) →
  trim l = l.
Proof.
  intros Hhead Hlast. unfold trim. rewrite (trimLeft_id l Hhead).
  rewrite trimLeft_id; [apply reverse_involutive|].
  intros c. rewrite head_reverse. apply Hlast.
Qed.

Lemma leading_digit (c : ascii) :
  49 ≤ code c ≤ 57 →
  c = "1"%char ∨ c = "2"%char ∨ c = "3"%char ∨ c = "4"%char ∨ c = "5"%char ∨
  c = "6"%char ∨ c = "7"%char ∨ c = "8"%char ∨ c = "9"%char.
Proof.
  unfold code. intros Hc. rewrite <- (ascii_nat_embedding c).
  assert (nat_of_ascii c = 49 ∨ nat_of_ascii c = 50 ∨ nat_of_ascii c = 51 ∨
          nat_of_ascii c = 52 ∨ nat_of_ascii c = 53 ∨ nat_of_ascii c = 54 ∨
          nat_of_ascii c = 55 ∨ nat_of_ascii c = 56 ∨ nat_of_ascii c = 57)%nat
    as Hcases by lia.
  repeat (destruct Hcases as [->|Hcases]; [tauto|]). rewrite Hcases. tauto.
Qed.

(** The digits of a positive number parse to the double nearest to it. *)
Lemma digits_parse (p : positive) :
  ∃ c rest,
    list_ascii_of_string (pretty_N_go (N.pos p) "") = c :: rest ∧
    Forall isDec (c :: rest) ∧ 49 ≤ code c ∧
    infinityOr (c :: rest) = round64 (inject_Z (Z.pos p)).
Proof.
  destruct (pretty_N_go_digits (N.pos p) "") as (ds & k & Hl & Hdec & Hlen & Hlead & Htake).
  destruct Hlead as (c & rest & -> & Hc); [done|].
  cbn [list_ascii_of_string] in Hl. rewrite app_nil_r in Hl.
  exists c, rest. split_and!; [done|done|done|].
  specialize (Htake [] 0 0%nat). rewrite app_nil_r in Htake.
  cbn [length] in Hlen. subst k.
  unfold infinityOr.
  destruct (decide (c :: rest = list_ascii_of_string "Infinity")) as [Heq|_].
  { cbn [list_ascii_of_string] in Heq. injection Heq as -> _.
    vm_compute in Hc. by destruct Hc. }
  unfold unsignedDecimal. rewrite Htake. cbn [takeDigits].
  cbv beta iota zeta. cbn [Nat.add Nat.eqb andb exponentOf].
  apply round64_comp.
  change (Z.of_nat 0) with 0. change (10 ^ 0) with 1.
  change (Z.of_N (N.pos p)) with (Z.pos p).
  replace (0 * 10 ^ Z.of_nat (S (length rest)) + Z.pos p) with (Z.pos p) by lia.
  replace (Z.pos p * 1 + 0) with (Z.pos p) by lia.
  change (Qpower 10 0) with 1%Q. change (inject_Z 1) with 1%Q. field.
Qed.

Lemma stringToNumber_pretty (n : Z) : stringToNumber (pretty n) = round64 (inject_Z n).
Proof.
  destruct n as [|p|p].
  - vm_compute. reflexivity.
  - change (pretty (Z.pos p)) with (pretty_N_go (N.pos p) "").
    destruct (digits_parse p) as (c & rest & Hl & Hdec & Hc & Hparse).
    unfold stringToNumber. rewrite Hl. rewrite trim_id.
    + apply Forall_cons in Hdec as [[_ Hc9] _].
      destruct (leading_digit c ltac:(lia)) as [->|[->|[->|[->|[->|[->|[->|[->| ->]]]]]]]];
        exact Hparse.
    + intros c' [= <-]. apply isDec_not_space. by apply Forall_cons in Hdec as [? _].
    + intros c' Hlast. apply isDec_not_space.
      rewrite Forall_forall in Hdec. apply Hdec. by apply last_Some_elem_of.
  - change (pretty (Z.neg p)) with ("-" +:+ pretty_N_go (N.pos p) "")%string.
    destruct (digits_parse p) as (c & rest & Hl & Hdec & Hc & Hparse).
    unfold stringToNumber.
    change (list_ascii_of_string ("-" +:+ pretty_N_go (N.pos p) ""))
      with ("-"%char :: list_ascii_of_string (pretty_N_go (N.pos p) "")).
    rewrite Hl. rewrite trim_id.
    + cbv beta iota. rewrite Hparse. unfold round64.
      change (inject_Z (Z.pos p) ?= 0)%Q with Gt. change (inject_Z (Z.neg p) ?= 0)%Q with Lt.
      change (- inject_Z (Z.neg p))%Q with (inject_Z (Z.pos p)).
      pose proof (roundPos_sign (inject_Z (Z.pos p)) eq_refl) as [->|(v & -> & _)]; done.
    + intros c' [= <-]. done.
    + intros c' Hlast. apply isDec_not_space.
      rewrite Forall_forall in Hdec. apply Hdec.
      change (last ("-"%char :: c :: rest)) with (last (c :: rest)) in Hlast.
      by apply last_Some_elem_of.
Qed.

Lemma round64_number (x : Q) : isNaN (round64 x) = false.
Proof. pose proof (round64_mono x x (Qle_refl x)). by destruct (round64 x). Qed.

(** X26. A count that arrives as the decimal numeral of an integer, as a
    string: [Number] of the numeral is the double nearest to the integer,
    negative ones included, and a realtime message carrying it in its new
    row, or in its old row when there is no new one, sets the displayed
    count to that double. Up to [2^53] in size that is the integer itself,
    so the count is read back exactly; beyond, it need not be:
    "9007199254740993" displays 9007199254740992. *)
Theorem onChange_decimal_count (n : Z) (st : View) :
  toNumber (VStr (pretty n)) = round64 (inject_Z n) ∧
  onChange (insertOf (VStr (pretty n))) st = setCount (round64 (inject_Z n)) st ∧
  onChange (deleteOf (VStr (pretty n))) st = setCount (round64 (inject_Z n)) st ∧
  (- 2 ^ 53 ≤ n ≤ 2 ^ 53 →
   toNumber (VStr (pretty n)) = Fin (inject_Z n) ∧
   currentCount (onChange (insertOf (VStr (pretty n))) st) = Fin (inject_Z n)) ∧
  (pretty 9007199254740993 = "9007199254740993"%string ∧
   toNumber (VStr "9007199254740993") = Fin (inject_Z 9007199254740992) ∧
   currentCount (onChange (insertOf (VStr "9007199254740993")) st)
     = Fin (inject_Z 9007199254740992)).
Proof.
  assert (Hnum : toNumber (VStr (pretty n)) = round64 (inject_Z n))
    by apply stringToNumber_pretty.
  assert (Hins : onChange (insertOf (VStr (pretty n))) st
                 = setCount (round64 (inject_Z n)) st).
  { unfold onChange.
    rewrite (tryBody_carries (insertOf (VStr (pretty n))) st (toNumber (VStr (pretty n)))).
    - by rewrite Hnum, round64_number.
    - by eapply carries_new. }
  split; [done|]. split; [done|]. split; [|split].
  - unfold onChange.
    rewrite (tryBody_carries (deleteOf (VStr (pretty n))) st (toNumber (VStr (pretty n)))).
    + by rewrite Hnum, round64_number.
    + by eapply carries_old.
  - intros Hn. rewrite Hins, Hnum. by rewrite round64_int.
  - split; [vm_compute; reflexivity|]. split; [vm_compute; reflexivity|].
    unfold onChange.
    rewrite (tryBody_carries (insertOf (VStr "9007199254740993")) st
               (toNumber (VStr "9007199254740993"))).
    + by vm_compute.
    + by eapply carries_new.
Qed.

End NumeralProofs.
